(** * MarkXS: the document parser of [parse_xs.py], embedded and verified

    The development follows the source file top-down: Python's string
    primitives, the seven line grammars (regular expressions), the AST,
    the inline lexer, the table and header extractors, the section tree
    builder with its store of mutable section objects, [parse_document],
    and then the properties.

    Conventions of the embedding.
    - A Python [str] is a [list ascii]; a character is its code point,
      restricted to 0..255.  [isspace] is [str.isspace] on that range,
      which is also the class of "\s" in a [str] pattern.
    - Line numbers, columns and list indices are [nat]; the integers of a
      section number are [N].
    - A loop that walks a string or the line list by an index [i] is a
      structural recursion on the suffix that starts at [i], carrying [i]
      along; [lines[i]] outside such a loop is [nth i lines []].
    - A loop whose cursor jumps ([parse_labels_into], the bullet loop, the
      body loop) is defined by well-founded recursion on the distance to
      the end.
    - Functions that append to a list they were handed return the new
      list. Section dictionaries are mutated after they were attached to
      the tree, so they live in a store ([heap]) and the tree holds their
      addresses until the document is read back ([resolve_body]).
    - The code raises in one place only: in the heading branch [int]
      refuses a string of more than 4300 digits with a ValueError (the
      default of [sys.int_max_str_digits], CPython 3.11 and later).
      [int_of_str] is the value of [int] where it returns, so the
      embedded run is the run of the code up to the first such heading,
      and [parse_document lines] is the document that the code returns
      when it returns one.  [no_heading_raises lines] says that no line
      of the input is such a heading. *)

From Stdlib Require Import String Ascii List Arith Lia Bool NArith DecimalString.
From Equations Require Import Equations.
Import ListNotations.

Local Open Scope list_scope.
Local Open Scope nat_scope.

(* ===================================================================== *)
(** ** Python strings *)
(* ===================================================================== *)

Abbreviation str := (list ascii).

Definition lit (s : String.string) : str := String.list_ascii_of_string s.
Arguments lit s%_string.

Definition ch_eqb (a b : ascii) : bool := Ascii.eqb a b.

Definition nonempty {A} (l : list A) : bool :=
  match l with [] => false | _ :: _ => true end.

(** [str.isspace] for one character: TAB..CR, FS..US, SPACE, NEL, NBSP. *)
Definition isspace (c : ascii) : bool :=
  let n := nat_of_ascii c in
  ((9 <=? n) && (n <=? 13)) || ((28 <=? n) && (n <=? 32))
  || (n =? 133) || (n =? 160).

Definition isupper (c : ascii) : bool :=
  let n := nat_of_ascii c in (65 <=? n) && (n <=? 90).

Definition islower (c : ascii) : bool :=
  let n := nat_of_ascii c in (97 <=? n) && (n <=? 122).

Definition isdigit (c : ascii) : bool :=
  let n := nat_of_ascii c in (48 <=? n) && (n <=? 57).

(** The class "[A-Za-z0-9_-]". *)
Definition iskey (c : ascii) : bool :=
  isupper c || islower c || isdigit c || ch_eqb c "_" || ch_eqb c "-".

(** The class "[A-Z ]". *)
Definition isupper_or_space (c : ascii) : bool := isupper c || ch_eqb c " ".

Definition isnewline (c : ascii) : bool := ch_eqb c "010".

Fixpoint takewhile {A} (p : A -> bool) (s : list A) : list A :=
  match s with
  | [] => []
  | c :: r => if p c then c :: takewhile p r else []
  end.

Fixpoint dropwhile {A} (p : A -> bool) (s : list A) : list A :=
  match s with
  | [] => []
  | c :: r => if p c then dropwhile p r else s
  end.

Definition lstrip (s : str) : str := dropwhile isspace s.
Definition rstrip (s : str) : str := rev (dropwhile isspace (rev s)).
Definition strip (s : str) : str := rstrip (lstrip s).

(** [s.lstrip(" ")] and its mirror image. *)
Definition lstrip_sp (s : str) : str := dropwhile (ch_eqb " ") s.
Definition rstrip_sp (s : str) : str := rev (dropwhile (ch_eqb " ") (rev s)).

(** [s[a:b]] for [a <= b]. *)
Definition slice {A} (a b : nat) (s : list A) : list A := firstn (b - a) (skipn a s).

Fixpoint startswith (prefix s : str) : bool :=
  match prefix, s with
  | [], _ => true
  | p :: prefix', c :: s' => ch_eqb p c && startswith prefix' s'
  | _ :: _, [] => false
  end.

Fixpoint str_eqb (a b : str) : bool :=
  match a, b with
  | [], [] => true
  | x :: a', y :: b' => ch_eqb x y && str_eqb a' b'
  | _, _ => false
  end.

(** [s.find(sub)]: the index of the first occurrence. [sub in s] is
    [find] being [Some], [s.index(sub)] its value. *)
Fixpoint find (sub s : str) : option nat :=
  if startswith sub s then Some 0
  else match s with
       | [] => None
       | _ :: r => option_map S (find sub r)
       end.

(** [s.split(sep)] for a one-character separator. *)
Fixpoint split (sep : ascii) (s : str) : list str :=
  match s with
  | [] => [[]]
  | c :: r =>
      if ch_eqb c sep then [] :: split sep r
      else match split sep r with
           | h :: t => (c :: h) :: t
           | [] => [[c]]
           end
  end.

(** [sep.join(l)]. *)
Fixpoint join (sep : str) (l : list str) : str :=
  match l with
  | [] => []
  | x :: r => match r with [] => x | _ :: _ => x ++ sep ++ join sep r end
  end.

(** [l[1:-1]]. *)
Definition inner {A} (l : list A) : list A := removelast (tl l).

(** [int(s)] for a string of decimal digits: its value where [int]
    returns.  [int] raises a ValueError on more than
    [sys.int_max_str_digits] digits, 4300 unless the interpreter was
    started with another limit. *)
Definition digit_val (c : ascii) : N := N.of_nat (nat_of_ascii c - 48).
Definition int_of_str (s : str) : N :=
  fold_left (fun acc c => (10 * acc + digit_val c)%N) s 0%N.

Definition int_max_str_digits : nat := 4300.
Definition int_raises (s : str) : bool := int_max_str_digits <? length s.

(** [str(n)]. *)
Definition str_of_int (n : N) : str :=
  String.list_ascii_of_string (NilZero.string_of_uint (N.to_uint n)).

Definition fence_marker : str := lit "```".
Definition comment_marker : str := lit "i#".

(* ===================================================================== *)
(** ** The line grammars

    Each matcher returns the groups of a successful [re.match].  The
    patterns are deterministic: wherever a greedy repetition could give
    characters back, the next pattern element cannot accept them, so the
    greedy choice is the only one that can succeed.  The comments at each
    matcher say why.  Where a pattern is quoted, a blank is written
    between a star and the closing parenthesis after it; the blank is not
    part of the pattern. *)
(* ===================================================================== *)

(** The pattern end "(.* )$".  A dot stops at the first newline and
    "$" holds at the end of the string or before a newline that ends it. *)
Definition dot_star_eol (s : str) : option str :=
  match dropwhile (fun c => negb (isnewline c)) s with
  | [] => Some (takewhile (fun c => negb (isnewline c)) s)
  | [_] => Some (takewhile (fun c => negb (isnewline c)) s)
  | _ => None
  end.

(** The pattern end "(.+)$". *)
Definition dot_plus_eol (s : str) : option str :=
  match dot_star_eol s with
  | Some (c :: g) => Some (c :: g)
  | _ => None
  end.

(** The tail of "P+(?:sP+)*" once a first [P] has been read: more [P]s,
    or the separator [s] when a [P] follows it.  Returns the matched text
    and what is left. *)
Fixpoint runs_rest (p : ascii -> bool) (sep : ascii) (s : str) : str * str :=
  match s with
  | [] => ([], [])
  | c :: r =>
      if p c then let (m, t) := runs_rest p sep r in (c :: m, t)
      else if ch_eqb c sep then
        match r with
        | c2 :: _ =>
            if p c2 then let (m, t) := runs_rest p sep r in (c :: m, t)
            else ([], s)
        | [] => ([], s)
        end
      else ([], s)
  end.

(** "P+(?:sP+)*", longest match. *)
Definition runs (p : ascii -> bool) (sep : ascii) (s : str) : option (str * str) :=
  match s with
  | c :: r => if p c then let (m, t) := runs_rest p sep r in Some (c :: m, t) else None
  | [] => None
  end.

(** HEADER_RE = "^([A-Z]+(?: [A-Z]+)* )\: (.+)$": groups 1 and 2.  The tag
    is followed by a colon, which is neither a letter nor a space, so only
    the longest tag can be followed by it. *)
Definition HEADER_RE (line : str) : option (str * str) :=
  match runs isupper " " line with
  | Some (tag, ":"%char :: " "%char :: rest) =>
      match dot_plus_eol rest with
      | Some text => Some (tag, text)
      | None => None
      end
  | _ => None
  end.

(** METADATA_RE = "^\s*([A-Za-z0-9_-]+(?: [A-Za-z0-9_-]+)* ): (.* )$":
    groups 1 and 2.  A key starts with a key character, which is not
    white space, so "\s*" takes all leading white space. *)
Definition METADATA_RE (line : str) : option (str * str) :=
  match runs iskey " " (lstrip line) with
  | Some (key, ":"%char :: " "%char :: rest) =>
      match dot_star_eol rest with
      | Some value => Some (key, value)
      | None => None
      end
  | _ => None
  end.

(** SECTION_RE = "^(\d+(?:\.\d+)* )\.? ([A-Z](?:[A-Z ]*[A-Z])?)(?:: (.* ))?$":
    groups 1, 2 and 3 (group 3 is [None] when the description part did
    not take part in the match).

    After the dotted number comes an optional dot and a space; a digit
    given back by the number would have to be one of those, so the number
    is the longest one.  The title is a run of capitals and spaces that
    starts and ends with a capital: "[A-Z ]*" gives back the spaces at the
    end of the run.  What follows the title must be ": " and a
    description, or the end of the line; a shorter title is followed by a
    capital or a space and fails both. *)
Definition SECTION_RE (line : str) : option (str * str * option str) :=
  match runs isdigit "." line with
  | None => None
  | Some (number, after_number) =>
      let after_space :=
        match after_number with
        | "."%char :: " "%char :: r => Some r
        | " "%char :: r => Some r
        | _ => None
        end in
      match after_space with
      | Some (c :: r) =>
          if isupper c then
            let run := takewhile isupper_or_space r in
            let title := c :: rstrip_sp run in
            let after_title := skipn (length title) (c :: r) in
            match after_title with
            | [] => Some (number, title, None)
            | ["010"%char] => Some (number, title, None)
            | ":"%char :: " "%char :: rest =>
                match dot_star_eol rest with
                | Some d => Some (number, title, Some d)
                | None => None
                end
            | _ => None
            end
          else None
      | _ => None
      end
  end.

Definition ismarker (c : ascii) : bool :=
  ch_eqb c "-" || ch_eqb c "*" || ch_eqb c "+".

(** BULLET_RE = "^(\s* )([-*+]) (.+)$": groups 1, 2 and 3.  A marker is
    not white space, so group 1 is all the leading white space. *)
Definition BULLET_RE (line : str) : option (str * ascii * str) :=
  match dropwhile isspace line with
  | m :: " "%char :: rest =>
      if ismarker m then
        match dot_plus_eol rest with
        | Some text => Some (takewhile isspace line, m, text)
        | None => None
        end
      else None
  | _ => None
  end.

(** TABLE_RE = "^\s*\|". *)
Definition TABLE_RE (line : str) : bool :=
  match dropwhile isspace line with
  | "|"%char :: _ => true
  | _ => false
  end.

(** FENCE_RE = "^(\s* )```(.* )$": groups 1 and 2. *)
Definition FENCE_RE (line : str) : option (str * str) :=
  match dropwhile isspace line with
  | "`"%char :: "`"%char :: "`"%char :: rest =>
      match dot_star_eol rest with
      | Some info => Some (takewhile isspace line, info)
      | None => None
      end
  | _ => None
  end.

(** COMMENT_RE = "^\s*#". *)
Definition COMMENT_RE (line : str) : bool :=
  match dropwhile isspace line with
  | "#"%char :: _ => true
  | _ => false
  end.

(** LABEL_RE = "([A-Za-z0-9_-]+):" tried at each position of [s], which
    is the text from offset [p] on: the leftmost position where a run of
    label characters reaches a colon.  Returns [match.start()] and
    [match.end()]. *)
Fixpoint LABEL_search_from (s : str) (p : nat) : option (nat * nat) :=
  match s with
  | [] => None
  | _ :: r =>
      match takewhile iskey s, dropwhile iskey s with
      | (_ :: _) as run, ":"%char :: _ => Some (p, p + length run + 1)
      | _, _ => LABEL_search_from r (S p)
      end
  end.

(** [LABEL_RE.search(text, pos)]. *)
Definition LABEL_search (text : str) (pos : nat) : option (nat * nat) :=
  LABEL_search_from (skipn pos text) pos.

(* ===================================================================== *)
(** ** The AST *)
(* ===================================================================== *)

Record Pos := { line : nat; column : nat }.
Record Loc := { loc_start : Pos; loc_end : Pos }.

(** [make_loc]; the two optional arguments default to the start. *)
Definition make_loc (start_line start_col : nat) (end_line end_col : option nat) : Loc :=
  {| loc_start := {| line := start_line; column := start_col |};
     loc_end := {| line := match end_line with Some l => l | None => start_line end;
                   column := match end_col with Some c => c | None => start_col end |} |}.

Inductive Severity := error | warning.

Inductive DiagnosticCode :=
| EMPTY | HEADER_INVALID | INLINE_COMMENT_ILLEGAL
| SECTION_PARENT_MISSING | FENCE_UNTERMINATED | FENCE_IN_TABLE.

Record Diagnostic := {
  severity : Severity;
  message : str;
  d_loc : Pos;
  code : DiagnosticCode }.

Inductive InlineNode :=
| Text (value : str) (loc : Loc)
| InlineCode (code : str) (loc : Loc)
| InlineLabel (identifier : str) (text : option str) (loc : Loc)
| InlineComment (text : str) (loc : Loc).

Record Header := { h_tag : str; h_text : str; h_loc : Loc }.

Record MetadataEntry := { m_key : str; m_value : str; m_loc : Loc }.

(** The row that [parse_table] makes up for a table without rows has no
    ["loc"] key. *)
Record TableRow := { cells : list str; r_loc : option Loc }.

Record BulletItem := {
  marker : ascii;
  inline : list InlineNode;
  continuation : option (list str);
  i_loc : Loc }.

#[local] Set Warnings "-register-all".

Inductive Block :=
| BlankLine (loc : Loc)
| WholeLineComment (text : str) (loc : Loc)
| FencedCodeBlock (infoString : option str) (indent : nat) (content : list str) (loc : Loc)
| Table (header : TableRow) (align : option TableRow) (rows : list TableRow) (loc : Loc)
| Section (number : list N) (title : str) (description : option str) (level : nat)
          (body : list Block) (loc : Loc)
| BulletList (items : list BulletItem) (loc : Loc)
| Paragraph (inline : list InlineNode) (loc : Loc).

(** The ["diagnostics"] key is present only when there is something in
    it. *)
Record Document := {
  header : option Header;
  metadata : list MetadataEntry;
  body : list Block;
  diagnostics : option (list Diagnostic) }.

(* ===================================================================== *)
(** ** Inline comments outside the inline lexer *)
(* ===================================================================== *)

(** The loop of [strip_illegal_inline_comment]; [rest] is [line[i:]]. *)
Fixpoint strip_illegal_loop (line : str) (line_no : nat) (diags : list Diagnostic)
    (in_code : bool) (i : nat) (rest : str) : str * list Diagnostic :=
  match rest with
  | [] => (line, diags)
  | ch :: rest' =>
      if ch_eqb ch "`" then
        strip_illegal_loop line line_no diags (negb in_code) (i + 1) rest'
      else if negb in_code && startswith comment_marker rest then
        (rstrip (firstn i line),
         diags ++ [ {| severity := warning;
                       message := lit "Inline comment not allowed in this context; stripped before parsing.";
                       d_loc := {| line := line_no; column := i + 1 |};
                       code := INLINE_COMMENT_ILLEGAL |} ])
      else strip_illegal_loop line line_no diags in_code (i + 1) rest'
  end.

Definition strip_illegal_inline_comment (line : str) (line_no : nat)
    (diags : list Diagnostic) : str * list Diagnostic :=
  strip_illegal_loop line line_no diags false 0 line.

(** The loop of [strip_inline_comment_for_detection]. *)
Fixpoint strip_detect_loop (line : str) (in_code : bool) (i : nat) (rest : str) : str :=
  match rest with
  | [] => line
  | ch :: rest' =>
      if ch_eqb ch "`" then strip_detect_loop line (negb in_code) (i + 1) rest'
      else if negb in_code && startswith comment_marker rest then rstrip (firstn i line)
      else strip_detect_loop line in_code (i + 1) rest'
  end.

Definition strip_inline_comment_for_detection (line : str) : str :=
  strip_detect_loop line false 0 line.

(* ===================================================================== *)
(** ** The inline lexer *)
(* ===================================================================== *)

(** The end of the current label: the start of the next match or the end
    of the text. *)
Definition label_end (text : str) (match_end : nat) : nat :=
  match LABEL_search text match_end with
  | Some (next_start, _) => next_start
  | None => length text
  end.

(** The bounds of a match, by which the label loop below terminates. *)
Lemma length_takewhile {A} (p : A -> bool) (s : list A) :
  length (takewhile p s) + length (dropwhile p s) = length s.
Proof.
  induction s as [|c r IH]; simpl; [reflexivity|].
  destruct (p c); simpl; lia.
Qed.

Lemma LABEL_search_from_bounds s p ms me :
  LABEL_search_from s p = Some (ms, me) -> p <= ms /\ ms < me /\ me <= p + length s.
Proof.
  revert p; induction s as [|c r IH]; intros p; [discriminate|].
  cbn [LABEL_search_from].
  pose proof (length_takewhile iskey (c :: r)) as Hlen.
  destruct (takewhile iskey (c :: r)) as [|x run];
    [intros H; apply IH in H; simpl; lia|].
  destruct (dropwhile iskey (c :: r)) as [|d t];
    [intros H; apply IH in H; simpl; lia|].
  destruct (Ascii.ascii_dec d ":") as [->|Hd].
  - intros H. injection H as <- <-. simpl in *. lia.
  - intros H.
    assert (H' : LABEL_search_from r (S p) = Some (ms, me)).
    { clear -H Hd. destruct d as [[] [] [] [] [] [] [] []]; try exact H.
      now elim Hd. }
    apply IH in H'. simpl. lia.
Qed.

Lemma LABEL_search_bounds text pos ms me :
  LABEL_search text pos = Some (ms, me) ->
  pos <= ms /\ ms < me /\ me <= length text.
Proof.
  unfold LABEL_search. intros H. apply LABEL_search_from_bounds in H.
  rewrite length_skipn in H. lia.
Qed.

Lemma label_end_bounds text me : me <= length text -> me <= label_end text me <= length text.
Proof.
  unfold label_end. intros Hme.
  destruct (LABEL_search text me) as [[ns ne]|] eqn:H; [|lia].
  apply LABEL_search_bounds in H. lia.
Qed.

(** Keeps the equation of a [with] scrutinee in the context. *)
Definition inspect {A} (a : A) : {b | a = b} := exist _ a eq_refl.

(** The loop of [parse_labels_into], from the cursor [pos]. *)
Equations? parse_labels_loop (text : str) (out : list InlineNode)
    (line_no base_col pos : nat) : list InlineNode by wf (length text - pos) lt :=
  parse_labels_loop text out line_no base_col pos
    with inspect (LABEL_search text pos) => {
    | exist _ None _ :=
        let remaining := skipn pos text in
        if nonempty remaining then
          out ++ [Text remaining
                    (make_loc line_no (base_col + pos) (Some line_no)
                              (Some (base_col + length text)))]
        else out;
    | exist _ (Some (match_start, match_end)) Hm :=
        let out1 :=
          if pos <? match_start then
            out ++ [Text (slice pos match_start text)
                      (make_loc line_no (base_col + pos) (Some line_no)
                                (Some (base_col + match_start)))]
          else out in
        let identifier := slice match_start (match_end - 1) text in
        let end_ := label_end text match_end in
        let trailing := slice match_end end_ text in
        let label_end_col := base_col + end_ in
        parse_labels_loop text
          (out1 ++ [InlineLabel identifier
                      (if nonempty trailing then Some trailing else None)
                      (make_loc line_no (base_col + match_start) (Some line_no)
                                (Some label_end_col))])
          line_no base_col end_ }.
Proof.
  apply LABEL_search_bounds in Hm.
  pose proof (label_end_bounds text match_end). lia.
Qed.

Definition parse_labels_into (text : str) (out : list InlineNode)
    (line_no base_col : nat) : list InlineNode :=
  parse_labels_loop text out line_no base_col 0.

(** The loop of [parse_inline_without_comment] and what follows it;
    [rest] is [text[i:]]. *)
Fixpoint piwc_loop (text : str) (line_no start_col : nat) (result : list InlineNode)
    (in_code : bool) (code_start plain_start i : nat) (rest : str) : list InlineNode :=
  match rest with
  | [] =>
      let plain_start := if in_code then code_start - 1 else plain_start in
      if plain_start <? length text then
        parse_labels_into (skipn plain_start text) result line_no (start_col + plain_start)
      else result
  | ch :: rest' =>
      if ch_eqb ch "`" then
        if in_code then
          piwc_loop text line_no start_col
            (result ++ [InlineCode (slice code_start i text)
                          (make_loc line_no (start_col + code_start) (Some line_no)
                                    (Some (start_col + i)))])
            false code_start (i + 1) (i + 1) rest'
        else
          let result :=
            if plain_start <? i then
              parse_labels_into (slice plain_start i text) result line_no
                                (start_col + plain_start)
            else result in
          piwc_loop text line_no start_col result true (i + 1) plain_start (i + 1) rest'
      else piwc_loop text line_no start_col result in_code code_start plain_start (i + 1) rest'
  end.

Definition parse_inline_without_comment (text : str) (line_no start_col : nat)
    : list InlineNode :=
  piwc_loop text line_no start_col [] false 0 0 0 text.

(** The first loop of [parse_inline]: the position of the comment marker. *)
Fixpoint comment_pos_loop (allow_inline_comment in_code : bool) (idx : nat) (rest : str)
    : option nat :=
  match rest with
  | [] => None
  | ch :: rest' =>
      let in_code := if ch_eqb ch "`" then negb in_code else in_code in
      if allow_inline_comment && negb in_code && startswith comment_marker rest
      then Some idx
      else comment_pos_loop allow_inline_comment in_code (idx + 1) rest'
  end.

Definition parse_inline (text : str) (allow_inline_comment : bool)
    (line_no start_col : nat) : list InlineNode :=
  match comment_pos_loop allow_inline_comment false 0 text with
  | Some comment_pos =>
      let prefix := firstn comment_pos text in
      let nodes := parse_inline_without_comment prefix line_no start_col in
      nodes ++ [InlineComment (lstrip (skipn (comment_pos + 2) text))
                  (make_loc line_no (start_col + comment_pos) (Some line_no)
                            (Some (start_col + length text)))]
  | None => parse_inline_without_comment text line_no start_col
  end.

(* ===================================================================== *)
(** ** Header and table extractors *)
(* ===================================================================== *)

Definition parse_header (line : str) (line_no : nat) (diags : list Diagnostic)
    : option Header * list Diagnostic :=
  match HEADER_RE line with
  | None =>
      (None,
       diags ++ [ {| severity := error;
                     message := lit "Invalid or missing header line";
                     d_loc := {| line := line_no; column := 1 |};
                     code := HEADER_INVALID |} ])
  | Some (g1, g2) =>
      (Some {| h_tag := g1; h_text := g2;
               h_loc := make_loc line_no 1 (Some line_no) (Some (length line + 1)) |},
       diags)
  end.

(** The cells of one row: [row.strip().split("|")[1:-1]], each stripped. *)
Definition row_cells (row : str) : list str :=
  map strip (inner (split "|" (strip row))).

(** The [for idx, row in enumerate(rows)] loop of [parse_table]. *)
Fixpoint table_rows_loop (rows : list str) (diags : list Diagnostic)
    (start_line idx : nat) (parsed_rows : list TableRow)
    : list TableRow * list Diagnostic :=
  match rows with
  | [] => (parsed_rows, diags)
  | row :: rows' =>
      let diags :=
        match find fence_marker row with
        | Some k =>
            diags ++ [ {| severity := error;
                          message := lit "Fenced code block delimiter inside table is not allowed.";
                          d_loc := {| line := start_line + idx; column := k + 1 |};
                          code := FENCE_IN_TABLE |} ]
        | None => diags
        end in
      let cells := row_cells row in
      table_rows_loop rows' diags start_line (idx + 1)
        (parsed_rows ++
           [ {| cells := cells;
                r_loc := Some (make_loc (start_line + idx) 1 (Some (start_line + idx))
                                        (Some (length (rstrip row) + 1))) |} ])
  end.

Definition parse_table (rows : list str) (diags : list Diagnostic) (start_line : nat)
    : Block * list Diagnostic :=
  let (parsed_rows, diags) := table_rows_loop rows diags start_line 0 [] in
  let header_row :=
    match parsed_rows with
    | r :: _ => r
    | [] => {| cells := []; r_loc := None |}
    end in
  let align_row := nth_error parsed_rows 1 in
  let data_rows := skipn 2 parsed_rows in
  let end_line := if nonempty rows then start_line + length rows - 1 else start_line in
  let end_col := if nonempty rows then length (rstrip (last rows [])) + 1 else 1 in
  (Table header_row align_row data_rows
         (make_loc start_line 1 (Some end_line) (Some end_col)),
   diags).

(* ===================================================================== *)
(** ** The section tree builder

    A section dictionary keeps receiving blocks after it was appended to
    its parent's body, and the open-ancestor stack holds the same
    dictionaries.  The store [heap] holds the section objects in the
    order of their creation; a body holds finished blocks by value
    ([Leaf]) and sections by address ([Ref]). *)
(* ===================================================================== *)

Inductive Entry :=
| Leaf (b : Block)
| Ref (addr : nat).

Record SectionObj := {
  s_number : list N;
  s_title : str;
  s_description : option str;
  s_level : nat;
  s_body : list Entry;
  s_loc : Loc }.

(** The variables of [parse_document] that its body loop updates: the
    cursor, the diagnostics, the document's body, the section objects and
    the stack of open ancestors, innermost last. *)
Record PState := {
  idx : nat;
  diags : list Diagnostic;
  root : list Entry;
  heap : list SectionObj;
  section_stack : list nat }.

Definition set_idx (st : PState) (i : nat) : PState :=
  {| idx := i; diags := diags st; root := root st; heap := heap st;
     section_stack := section_stack st |}.

Definition set_diags (st : PState) (d : list Diagnostic) : PState :=
  {| idx := idx st; diags := d; root := root st; heap := heap st;
     section_stack := section_stack st |}.

(** [obj["body"].append(e)] for the object at address [a]. *)
Fixpoint heap_append (h : list SectionObj) (a : nat) (e : Entry) : list SectionObj :=
  match h, a with
  | [], _ => []
  | o :: h', 0 =>
      {| s_number := s_number o; s_title := s_title o;
         s_description := s_description o; s_level := s_level o;
         s_body := s_body o ++ [e]; s_loc := s_loc o |} :: h'
  | o :: h', S a' => o :: heap_append h' a' e
  end.

(** [target.append(e)], where the target is the body of the section at
    an address, or the document's body. *)
Definition append_to (st : PState) (target : option nat) (e : Entry) : PState :=
  match target with
  | Some a =>
      {| idx := idx st; diags := diags st; root := root st;
         heap := heap_append (heap st) a e; section_stack := section_stack st |}
  | None =>
      {| idx := idx st; diags := diags st; root := root st ++ [e];
         heap := heap st; section_stack := section_stack st |}
  end.

(** [l[-1]] when [l] is not empty. *)
Definition top {A} (l : list A) : option A :=
  match rev l with
  | x :: _ => Some x
  | [] => None
  end.

Definition add_block (st : PState) (block : Block) : PState :=
  append_to st (top (section_stack st)) (Leaf block).

Definition number_at (h : list SectionObj) (a : nat) : list N :=
  match nth_error h a with
  | Some o => s_number o
  | None => []
  end.

Fixpoint number_eqb (a b : list N) : bool :=
  match a, b with
  | [], [] => true
  | x :: a', y :: b' => N.eqb x y && number_eqb a' b'
  | _, _ => false
  end.

(** The popping loop of [place_section], on the stack read from its top. *)
Fixpoint pop_loop (h : list SectionObj) (len : nat) (rstack : list nat) : list nat :=
  match rstack with
  | [] => []
  | a :: below =>
      if len <=? length (number_at h a) then pop_loop h len below else rstack
  end.

(** [for candidate in reversed(section_stack)]: the innermost open
    section with the given number. *)
Fixpoint find_parent (h : list SectionObj) (parent_number : list N) (rstack : list nat)
    : option nat :=
  match rstack with
  | [] => None
  | a :: below =>
      if number_eqb (number_at h a) parent_number then Some a
      else find_parent h parent_number below
  end.

Definition missing_parent_message (parent_number : list N) : str :=
  lit "Missing parent section " ++ join (lit ".") (map str_of_int parent_number)
  ++ lit "; attached to document root.".

(** [place_section]; [section] is the fresh node, stored at the next free
    address. *)
Definition place_section (st : PState) (section : SectionObj) (line_no : nat) : PState :=
  let stack := rev (pop_loop (heap st) (length (s_number section)) (rev (section_stack st))) in
  let parent_number := removelast (s_number section) in
  let parent :=
    if nonempty parent_number then find_parent (heap st) parent_number (rev stack)
    else None in
  let diags1 :=
    if nonempty parent_number then
      match parent with
      | None =>
          diags st ++ [ {| severity := warning;
                           message := missing_parent_message parent_number;
                           d_loc := {| line := line_no; column := 1 |};
                           code := SECTION_PARENT_MISSING |} ]
      | Some _ => diags st
      end
    else diags st in
  let addr := length (heap st) in
  let st1 := {| idx := idx st; diags := diags1; root := root st;
                heap := heap st ++ [section]; section_stack := stack |} in
  let st2 := append_to st1 parent (Ref addr) in
  {| idx := idx st2; diags := diags st2; root := root st2; heap := heap st2;
     section_stack := section_stack st2 ++ [addr] |}.

(** Reading the finished tree back from the store.  A section only ever
    refers to sections created after it, so the store is resolved from
    its end: [later] holds the finished sections of the addresses from
    [base] on. *)
Definition resolve_entry (base : nat) (later : list Block) (e : Entry) : list Block :=
  match e with
  | Leaf b => [b]
  | Ref a =>
      if base <=? a then
        match nth_error later (a - base) with
        | Some b => [b]
        | None => []
        end
      else []
  end.

Fixpoint resolve_heap (h : list SectionObj) (base : nat) : list Block :=
  match h with
  | [] => []
  | o :: h' =>
      let later := resolve_heap h' (S base) in
      Section (s_number o) (s_title o) (s_description o) (s_level o)
              (flat_map (resolve_entry (S base) later) (s_body o)) (s_loc o)
      :: later
  end.

Definition resolve_body (h : list SectionObj) (entries : list Entry) : list Block :=
  flat_map (resolve_entry 0 (resolve_heap h 0)) entries.

(* ===================================================================== *)
(** ** The document parser *)
(* ===================================================================== *)

(** [not line.strip()]. *)
Definition isblank (line : str) : bool := negb (nonempty (strip line)).

(** The search for the first non-blank line. *)
Fixpoint first_non_blank_from (rest : list str) (i : nat) : option nat :=
  match rest with
  | [] => None
  | ln :: rest' => if isblank ln then first_non_blank_from rest' (i + 1) else Some i
  end.

(** The metadata loop; [rest] is [lines[idx:]]. *)
Fixpoint metadata_loop (rest : list str) (idx : nat) (metadata : list MetadataEntry)
    (diags : list Diagnostic) : list MetadataEntry * nat * list Diagnostic :=
  match rest with
  | [] => (metadata, idx, diags)
  | line :: rest' =>
      if isblank line then (metadata, idx + 1, diags)
      else
        match METADATA_RE line with
        | None => (metadata, idx, diags)
        | Some _ =>
            let (cleaned_line, diags) := strip_illegal_inline_comment line (idx + 1) diags in
            match METADATA_RE cleaned_line with
            | None => (metadata, idx, diags)
            | Some (g1, g2) =>
                metadata_loop rest' (idx + 1)
                  (metadata ++
                     [ {| m_key := g1; m_value := g2;
                          m_loc := make_loc (idx + 1) 1 (Some (idx + 1))
                                            (Some (length line + 1)) |} ])
                  diags
            end
        end
  end.

(** The closing test of an open fence. *)
Definition closes_fence (fence_indent : nat) (l2 : str) : bool :=
  startswith (repeat " "%char fence_indent ++ fence_marker) l2
  && str_eqb (strip l2) fence_marker.

(** The content loop of a fenced block; [rest] is [lines[idx:]].  Returns
    [content], [closed], [closing_line_text] and the cursor. *)
Fixpoint fence_loop (fence_indent : nat) (rest : list str) (content : list str)
    (idx : nat) : list str * bool * str * nat :=
  match rest with
  | [] => (content, false, [], idx)
  | l2 :: rest' =>
      if closes_fence fence_indent l2 then (content, true, l2, idx + 1)
      else fence_loop fence_indent rest' (content ++ [l2]) (idx + 1)
  end.

Definition fence_block (lines : list str) (st : PState) (g1 g2 : str) : PState :=
  let fence_start_line := idx st + 1 in
  let fence_indent := length g1 in
  let info := if nonempty (strip g2) then Some (strip g2) else None in
  let '(content, closed, closing_line_text, idx') :=
    fence_loop fence_indent (skipn (idx st + 1) lines) [] (idx st + 1) in
  let end_line_no := fence_start_line + length content + (if closed then 1 else 0) in
  let end_col :=
    if nonempty closing_line_text then length closing_line_text + 1
    else if nonempty content then length (last content []) + 1 else 1 in
  let diags1 :=
    if closed then diags st
    else diags st ++ [ {| severity := error;
                          message := lit "Unterminated fenced code block";
                          d_loc := {| line := fence_start_line + length content; column := 1 |};
                          code := FENCE_UNTERMINATED |} ] in
  add_block (set_diags (set_idx st idx') diags1)
    (FencedCodeBlock info fence_indent content
       (make_loc fence_start_line 1 (Some end_line_no) (Some end_col))).

(** The row loop of a table; [rest] is [lines[idx:]]. *)
Fixpoint table_loop (rest : list str) (rows : list str) (idx : nat) : list str * nat :=
  match rest with
  | [] => (rows, idx)
  | l :: rest' =>
      if TABLE_RE l then table_loop rest' (rows ++ [l]) (idx + 1) else (rows, idx)
  end.

Definition table_block (lines : list str) (st : PState) : PState :=
  let table_start_line := idx st + 1 in
  let (rows, idx') := table_loop (skipn (idx st) lines) [] (idx st) in
  let (table_node, diags1) := parse_table rows (diags st) table_start_line in
  add_block (set_diags (set_idx st idx') diags1) table_node.

(** The heading branch.  [inl] is the state after a heading was placed;
    [inr] carries the diagnostics on when the line falls through to the
    branches below. *)
Definition section_block (st : PState) (line : str) : PState + list Diagnostic :=
  let cleaned_probe := strip_inline_comment_for_detection line in
  match SECTION_RE cleaned_probe with
  | None => inr (diags st)
  | Some _ =>
      let (cleaned_line, diags1) := strip_illegal_inline_comment line (idx st + 1) (diags st) in
      match SECTION_RE cleaned_line with
      | None => inr diags1
      | Some (g1, title, desc) =>
          let number := map int_of_str (split "." g1) in
          let sec_node :=
            {| s_number := number; s_title := title;
               s_description := match desc with
                                | Some (c :: d) => Some (c :: d)
                                | _ => None
                                end;
               s_level := length number; s_body := [];
               s_loc := make_loc (idx st + 1) 1 (Some (idx st + 1))
                                 (Some (length (rstrip line) + 1)) |} in
          let st1 := place_section (set_diags st diags1) sec_node (idx st + 1) in
          inl (set_idx st1 (idx st + 1))
      end
  end.

(** Would the heading branch raise on this line?  It calls [int] on
    the components of the number of a line that matches SECTION_RE
    without its inline comment (the two functions that drop the comment
    return the same string). *)
Definition heading_raises (line : str) : bool :=
  match SECTION_RE (strip_inline_comment_for_detection line) with
  | Some (g1, _, _) => existsb int_raises (split "." g1)
  | None => false
  end.

(** No line of the input makes the heading branch raise, whichever
    lines the body loop comes to. *)
Definition no_heading_raises (lines : list str) : bool :=
  forallb (fun l => negb (heading_raises l)) lines.

Definition comment_block (st : PState) (line : str) : PState :=
  add_block (set_idx st (idx st + 1))
    (WholeLineComment (lstrip (skipn 1 (lstrip line)))
       (make_loc (idx st + 1) 1 (Some (idx st + 1)) (Some (length line + 1)))).

(** May a line not continue a bullet item or a paragraph because another
    block starts on it? *)
Definition starts_fence_table_or_section (l : str) : bool :=
  match FENCE_RE l with Some _ => true | None => false end
  || TABLE_RE l
  || match SECTION_RE (strip_inline_comment_for_detection l) with
     | Some _ => true
     | None => false
     end.

Definition is_bullet (l : str) : bool :=
  match BULLET_RE l with Some _ => true | None => false end.

(** The lookahead loop of a bullet item; [rest] is [lines[lookahead:]]. *)
Fixpoint continuation_loop (base_indent : nat) (rest : list str) (cont_lines : list str)
    (lookahead : nat) : list str * nat :=
  match rest with
  | [] => (cont_lines, lookahead)
  | la_line :: rest' =>
      if isblank la_line then (cont_lines, lookahead)
      else if is_bullet la_line then (cont_lines, lookahead)
      else if starts_fence_table_or_section la_line then (cont_lines, lookahead)
      else if base_indent <=? length la_line - length (lstrip_sp la_line) then
        continuation_loop base_indent rest' (cont_lines ++ [strip la_line]) (lookahead + 1)
      else (cont_lines, lookahead)
  end.

(** One turn of the item loop, for the bullet line at [idx] with groups
    [g1], [marker] and [text]: the item and the cursor after it. *)
Definition bullet_item (lines : list str) (idx : nat) (g1 : str) (marker : ascii)
    (text : str) : BulletItem * nat :=
  let indent := length g1 in
  let base_indent := indent + 2 in
  let (cont_lines, lookahead) :=
    continuation_loop base_indent (skipn (idx + 1) lines) [] (idx + 1) in
  let full_text := join (lit " ") (text :: cont_lines) in
  let inline_nodes := parse_inline full_text true (idx + 1) (indent + 3) in
  let last_line_idx := lookahead - 1 in
  ({| marker := marker; inline := inline_nodes;
      continuation := if nonempty cont_lines then Some cont_lines else None;
      i_loc := make_loc (idx + 1) (indent + 1) (Some (last_line_idx + 1))
                        (Some (length (rstrip (nth last_line_idx lines [])) + 1)) |},
   lookahead).

(** The lookahead only moves forward, by which the item loop below
    terminates. *)
Lemma continuation_loop_cursor base rest cont la :
  la <= snd (continuation_loop base rest cont la) <= la + length rest.
Proof.
  revert cont la; induction rest as [|l rest IH]; intros cont la; simpl; [lia|].
  destruct (isblank l); [simpl; lia|].
  destruct (is_bullet l); [simpl; lia|].
  destruct (starts_fence_table_or_section l); [simpl; lia|].
  destruct (_ <=? _); [|simpl; lia].
  specialize (IH (cont ++ [strip l]) (la + 1)). lia.
Qed.

Lemma bullet_item_cursor lines idx g1 marker text :
  idx < length lines ->
  idx + 1 <= snd (bullet_item lines idx g1 marker text) <= length lines.
Proof.
  intros Hlt. unfold bullet_item.
  pose proof (continuation_loop_cursor (length g1 + 2) (skipn (idx + 1) lines) [] (idx + 1)) as H.
  destruct (continuation_loop _ _ _ _) as [cont la]. simpl in *.
  rewrite length_skipn in H. lia.
Qed.

(** The item loop of a bullet list. *)
Equations? bullet_loop (lines : list str) (idx : nat) (items : list BulletItem)
    : list BulletItem * nat by wf (length lines - idx) lt :=
  bullet_loop lines idx items with le_lt_dec (length lines) idx => {
    | left _ := (items, idx);
    | right Hlt with inspect (BULLET_RE (nth idx lines [])) => {
      | exist _ None _ := (items, idx);
      | exist _ (Some (g1, marker, text)) _ :=
          bullet_loop lines (snd (bullet_item lines idx g1 marker text))
                      (items ++ [fst (bullet_item lines idx g1 marker text)]) } }.
Proof.
  match goal with
  | H : ?i < length lines |- context [bullet_item lines ?i ?g ?m ?t] =>
      pose proof (bullet_item_cursor lines i g m t H)
  end.
  lia.
Qed.

Definition bullet_block (lines : list str) (st : PState) : PState :=
  let list_start_line := idx st + 1 in
  let (items, idx') := bullet_loop lines (idx st) [] in
  let list_end_line :=
    match top items with
    | Some it => line (loc_end (i_loc it))
    | None => list_start_line
    end in
  let list_end_col :=
    match top items with
    | Some it => column (loc_end (i_loc it))
    | None => 1
    end in
  add_block (set_idx st idx')
    (BulletList items (make_loc list_start_line 1 (Some list_end_line) (Some list_end_col))).

(** May a line not continue a paragraph? *)
Definition ends_paragraph (l : str) : bool :=
  starts_fence_table_or_section l || COMMENT_RE l || is_bullet l.

(** The line loop of a paragraph; [rest] is [lines[idx:]]. *)
Fixpoint paragraph_loop (rest : list str) (para_lines : list (nat * str)) (idx : nat)
    : list (nat * str) * nat :=
  match rest with
  | [] => (para_lines, idx)
  | l :: rest' =>
      if isblank l then (para_lines, idx)
      else if ends_paragraph l then (para_lines, idx)
      else paragraph_loop rest' (para_lines ++ [(idx, l)]) (idx + 1)
  end.

Definition paragraph_block (lines : list str) (st : PState) : PState :=
  let (para_lines, idx') := paragraph_loop (skipn (idx st) lines) [] (idx st) in
  match para_lines, top para_lines with
  | first :: _, Some last_pl =>
      let text := join (lit " ") (map (fun pl => strip (snd pl)) para_lines) in
      let inline_nodes := parse_inline text true (fst first + 1) 1 in
      let last_line_idx := fst last_pl in
      add_block (set_idx st idx')
        (Paragraph inline_nodes
           (make_loc (fst first + 1) 1 (Some (last_line_idx + 1))
                     (Some (length (rstrip (nth last_line_idx lines [])) + 1))))
  | _, _ => set_idx st (idx' + 1)
  end.

(** One turn of the body loop, taken when [idx st < length lines]. *)
Definition body_step (lines : list str) (st : PState) : PState :=
  let line := nth (idx st) lines [] in
  if isblank line then
    {| idx := idx st + 1; diags := diags st;
       root := root st ++ [Leaf (BlankLine (make_loc (idx st + 1) 1 (Some (idx st + 1))
                                                     (Some (length line + 1))))];
       heap := heap st; section_stack := section_stack st |}
  else
    match FENCE_RE line with
    | Some (g1, g2) => fence_block lines st g1 g2
    | None =>
        if TABLE_RE line then table_block lines st
        else
          match section_block st line with
          | inl st' => st'
          | inr diags1 =>
              let st := set_diags st diags1 in
              if COMMENT_RE line then comment_block st line
              else if is_bullet line then bullet_block lines st
              else paragraph_block lines st
          end
    end.

(** *** The cursor moves forward

    Every turn of the body loop consumes at least one line, by which the
    loop terminates. *)

Lemma idx_append_to st target e : idx (append_to st target e) = idx st.
Proof. destruct target; reflexivity. Qed.

Lemma idx_add_block st b : idx (add_block st b) = idx st.
Proof. apply idx_append_to. Qed.

Lemma fence_loop_cursor k rest content i :
  let '(content', closed, _, i') := fence_loop k rest content i in
  i' = i + (length content' - length content) + (if closed then 1 else 0)
  /\ length content <= length content'
  /\ i' <= i + length rest.
Proof.
  revert content i; induction rest as [|l rest IH]; intros content i; simpl.
  - lia.
  - destruct (closes_fence k l); [lia|].
    specialize (IH (content ++ [l]) (i + 1)).
    destruct (fence_loop k rest (content ++ [l]) (i + 1)) as [[[c' cl] ct] i'].
    rewrite length_app in IH. simpl in IH. destruct cl; lia.
Qed.

Lemma table_loop_cursor rest rows i :
  snd (table_loop rest rows i) = i + (length (fst (table_loop rest rows i)) - length rows)
  /\ length rows <= length (fst (table_loop rest rows i))
  /\ snd (table_loop rest rows i) <= i + length rest.
Proof.
  revert rows i; induction rest as [|l rest IH]; intros rows i; simpl.
  - lia.
  - destruct (TABLE_RE l); simpl; [|lia].
    specialize (IH (rows ++ [l]) (i + 1)). rewrite length_app in IH. simpl in IH. lia.
Qed.

Lemma table_loop_first l rest i :
  TABLE_RE l = true -> i + 1 <= snd (table_loop (l :: rest) [] i).
Proof.
  intros H. simpl. rewrite H.
  pose proof (table_loop_cursor rest [l] (i + 1)). simpl in *. lia.
Qed.

Lemma bullet_loop_cursor lines i items :
  i <= snd (bullet_loop lines i items) <= Nat.max i (length lines).
Proof.
  funelim (bullet_loop lines i items); simpl; try lia.
  match goal with
  | Hl : ?i < length lines |- context [bullet_item lines ?i ?g ?m ?t] =>
      pose proof (bullet_item_cursor lines i g m t Hl)
  end.
  lia.
Qed.

Lemma bullet_loop_first lines i items :
  i < length lines -> is_bullet (nth i lines []) = true ->
  i + 1 <= snd (bullet_loop lines i items).
Proof.
  intros Hlt Hb. unfold is_bullet in Hb.
  funelim (bullet_loop lines i items); simpl; try lia.
  - match goal with
    | Hl : ?i < length lines |- context [bullet_item lines ?i ?g ?m ?t] =>
        pose proof (bullet_item_cursor lines i g m t Hl);
        pose proof (bullet_loop_cursor lines (snd (bullet_item lines i g m t))
                      (items ++ [fst (bullet_item lines i g m t)]))
    end.
    lia.
  - match goal with H : BULLET_RE _ = None |- _ => rewrite H in Hb; discriminate end.
Qed.

Lemma paragraph_loop_cursor rest para i :
  snd (paragraph_loop rest para i)
  = i + (length (fst (paragraph_loop rest para i)) - length para)
  /\ length para <= length (fst (paragraph_loop rest para i))
  /\ snd (paragraph_loop rest para i) <= i + length rest.
Proof.
  revert para i; induction rest as [|l rest IH]; intros para i; simpl.
  - lia.
  - destruct (isblank l); simpl; [lia|].
    destruct (ends_paragraph l); simpl; [lia|].
    specialize (IH (para ++ [(i, l)]) (i + 1)). rewrite length_app in IH. simpl in IH. lia.
Qed.

Lemma top_nonempty {A} (l : list A) : l <> [] -> exists x, top l = Some x.
Proof.
  intros H. unfold top. destruct (rev l) eqn:E; [|eauto].
  apply (f_equal (@rev A)) in E. rewrite rev_involutive in E. now subst.
Qed.

Lemma skipn_nth {A} (l : list A) i d : i < length l -> skipn i l = nth i l d :: skipn (S i) l.
Proof.
  revert i; induction l as [|x l IH]; intros [|i] H; simpl in *; try lia; [reflexivity|].
  apply IH. lia.
Qed.

Lemma body_step_cursor lines st :
  idx st < length lines ->
  idx st + 1 <= idx (body_step lines st) <= length lines.
Proof.
  intros Hlt. unfold body_step.
  destruct (isblank _) eqn:Hblank; [simpl; lia|].
  destruct (FENCE_RE _) as [[g1 g2]|] eqn:Hfence.
  { unfold fence_block.
    pose proof (fence_loop_cursor (length g1) (skipn (idx st + 1) lines) [] (idx st + 1)) as H.
    destruct (fence_loop _ _ _ _) as [[[c cl] ct] i']. rewrite idx_add_block. simpl.
    rewrite length_skipn in H. lia. }
  destruct (TABLE_RE _) eqn:Htable.
  { unfold table_block.
    rewrite (skipn_nth lines (idx st) []) by assumption.
    pose proof (table_loop_first _ (skipn (S (idx st)) lines) (idx st) Htable) as H1.
    pose proof (table_loop_cursor (nth (idx st) lines [] :: skipn (S (idx st)) lines) [] (idx st)) as H2.
    cbn [length] in H2. rewrite length_skipn in H2.
    destruct (table_loop _ _ _) as [rows i']. destruct (parse_table _ _ _) as [t d].
    rewrite idx_add_block. cbn [fst snd idx set_diags set_idx] in *. lia. }
  destruct (section_block st _) as [st'|d1] eqn:Hsec.
  { unfold section_block in Hsec.
    destruct (SECTION_RE (strip_inline_comment_for_detection _)); [|discriminate].
    destruct (strip_illegal_inline_comment _ _ _) as [cl d1].
    destruct (SECTION_RE cl) as [[[g1 t] d]|]; [|discriminate].
    injection Hsec as <-. cbn [idx set_idx]. lia. }
  destruct (COMMENT_RE _).
  { unfold comment_block. rewrite idx_add_block. cbn [idx set_idx set_diags]. lia. }
  destruct (is_bullet _) eqn:Hb.
  { unfold bullet_block.
    pose proof (bullet_loop_first lines (idx st) [] Hlt Hb) as H1.
    pose proof (bullet_loop_cursor lines (idx st) []) as H2.
    cbn [idx set_idx set_diags] in *. destruct (bullet_loop _ _ _) as [items i'].
    rewrite idx_add_block. cbn [fst snd idx set_idx set_diags] in *. lia. }
  unfold paragraph_block. cbn [idx set_idx set_diags].
  pose proof (paragraph_loop_cursor (skipn (idx st) lines) [] (idx st)) as H.
  rewrite length_skipn in H.
  destruct (paragraph_loop _ _ _) as [para i']. cbn [fst snd length] in H.
  destruct para as [|p para].
  - cbn [idx set_idx length] in *. lia.
  - destruct (top_nonempty (p :: para)) as [x ->]; [discriminate|].
    rewrite idx_add_block. cbn [idx set_idx length] in *. lia.
Qed.

(** The body loop. *)
Equations? body_loop (lines : list str) (st : PState) : PState
    by wf (length lines - idx st) lt :=
  body_loop lines st with le_lt_dec (length lines) (idx st) => {
    | left _ := st;
    | right Hlt := body_loop lines (body_step lines st) }.
Proof.
  pose proof (body_step_cursor lines st Hlt). lia.
Qed.

Definition empty_document : Document :=
  {| header := None; metadata := []; body := [];
     diagnostics :=
       Some [ {| severity := error; message := lit "Empty document";
                 d_loc := {| line := 1; column := 1 |}; code := EMPTY |} ] |}.

(** The state in which the body loop starts, with the header and the
    metadata read before it; [None] for an input without a non-blank
    line. *)
Definition parse_prologue (lines : list str)
    : option (option Header * list MetadataEntry * PState) :=
  match first_non_blank_from lines 0 with
  | None => None
  | Some first_non_blank =>
      let idx0 := first_non_blank in
      let (header_line, diags0) :=
        strip_illegal_inline_comment (nth idx0 lines []) (idx0 + 1) [] in
      let (header, diags1) := parse_header header_line (idx0 + 1) diags0 in
      let '(metadata, idx1, diags2) :=
        metadata_loop (skipn (idx0 + 1) lines) (idx0 + 1) [] diags1 in
      Some (header, metadata,
            {| idx := idx1; diags := diags2; root := []; heap := [];
               section_stack := [] |})
  end.

Definition parse_document (lines : list str) : Document :=
  match parse_prologue lines with
  | None => empty_document
  | Some (header, metadata, st0) =>
      let st := body_loop lines st0 in
      {| header := header; metadata := metadata;
         body := resolve_body (heap st) (root st);
         diagnostics := if nonempty (diags st) then Some (diags st) else None |}
  end.

(* ===================================================================== *)
(** * The vocabulary of the properties *)
(* ===================================================================== *)

(** ** Locations *)

(** [p <= q] in the lexicographic order on (line, column). *)
Definition pos_le (p q : Pos) : bool :=
  (line p <? line q) || ((line p =? line q) && (column p <=? column q)).

(** A location is in order and ends within the first [n] lines. *)
Definition loc_ok (n : nat) (l : Loc) : bool :=
  pos_le (loc_start l) (loc_end l) && (line (loc_end l) <=? n).

Definition inline_loc (nd : InlineNode) : Loc :=
  match nd with
  | Text _ l | InlineCode _ l | InlineLabel _ _ l | InlineComment _ l => l
  end.

Definition inline_ok (n : nat) (nd : InlineNode) : bool := loc_ok n (inline_loc nd).

(** A row without a location is not in order. *)
Definition row_ok (n : nat) (r : TableRow) : bool :=
  match r_loc r with
  | Some l => loc_ok n l
  | None => false
  end.

Definition item_ok (n : nat) (it : BulletItem) : bool :=
  loc_ok n (i_loc it) && forallb (inline_ok n) (inline it).

(** Every node of a block, the block itself included. *)
Fixpoint block_ok (n : nat) (b : Block) : bool :=
  match b with
  | BlankLine l => loc_ok n l
  | WholeLineComment _ l => loc_ok n l
  | FencedCodeBlock _ _ _ l => loc_ok n l
  | Table h a rows l =>
      loc_ok n l && row_ok n h
      && match a with Some r => row_ok n r | None => true end
      && forallb (row_ok n) rows
  | Section _ _ _ _ body l => loc_ok n l && forallb (block_ok n) body
  | BulletList items l => loc_ok n l && forallb (item_ok n) items
  | Paragraph nodes l => loc_ok n l && forallb (inline_ok n) nodes
  end.

(** Every node of a document parsed from [n] lines. *)
Definition document_ok (n : nat) (d : Document) : bool :=
  match header d with Some h => loc_ok n (h_loc h) | None => true end
  && forallb (fun m => loc_ok n (m_loc m)) (metadata d)
  && forallb (block_ok n) (body d).

Definition inlines_ok (n : nat) (l : list InlineNode) : Prop :=
  Forall (fun nd => inline_ok n nd = true) l.

(** An item ends on or after the line [i0 + 1] and all its nodes are in
    order. *)
Definition item_good (n i0 : nat) (it : BulletItem) : Prop :=
  item_ok n it = true
  /\ i0 + 1 <= line (loc_end (i_loc it))
  /\ 1 <= column (loc_end (i_loc it)).

(** What the blocks and the fresh sections of a document of [n] lines
    satisfy, and with them the entries, the section objects and the store
    as a whole. *)
Definition good_block (n : nat) (b : Block) : Prop := block_ok n b = true.

Definition good_section (n : nat) (s : SectionObj) : Prop :=
  loc_ok n (s_loc s) = true /\ s_body s = [].

Definition entry_ok (n : nat) (e : Entry) : Prop :=
  match e with
  | Leaf b => block_ok n b = true
  | Ref _ => True
  end.

Definition section_ok (n : nat) (o : SectionObj) : Prop :=
  loc_ok n (s_loc o) = true /\ Forall (entry_ok n) (s_body o).

Definition store_ok (n : nat) (st : PState) : Prop :=
  Forall (entry_ok n) (root st) /\ Forall (section_ok n) (heap st).

(** ** The inline lexer *)

Definition is_code (nd : InlineNode) : bool :=
  match nd with InlineCode _ _ => true | _ => false end.

(** Is a code span open after [p], when it was [in_code] before? *)
Definition open_after (in_code : bool) (p : str) : bool :=
  fold_left (fun b c => if ch_eqb c "`" then negb b else b) p in_code.

(** ** Tables and fences *)

(** The row and the diagnostic that the row loop of [parse_table] makes
    for the row of index [i], and those it makes for the rows from index
    [i] on. *)
Definition table_row (start_line i : nat) (row : str) : TableRow :=
  {| cells := row_cells row;
     r_loc := Some (make_loc (start_line + i) 1 (Some (start_line + i))
                             (Some (length (rstrip row) + 1))) |}.

Definition fence_in_table (start_line i k : nat) : Diagnostic :=
  {| severity := error;
     message := lit "Fenced code block delimiter inside table is not allowed.";
     d_loc := {| line := start_line + i; column := k + 1 |};
     code := FENCE_IN_TABLE |}.

Fixpoint table_rows (start_line i : nat) (rows : list str) : list TableRow :=
  match rows with
  | [] => []
  | row :: rows' => table_row start_line i row :: table_rows start_line (i + 1) rows'
  end.

Fixpoint table_diags (start_line i : nat) (rows : list str) : list Diagnostic :=
  match rows with
  | [] => []
  | row :: rows' =>
      match find fence_marker row with
      | Some k => [fence_in_table start_line i k]
      | None => []
      end ++ table_diags start_line (i + 1) rows'
  end.

(** A line that does not close the fence of indentation [k]. *)
Definition not_closing (k : nat) (l : str) : bool := negb (closes_fence k l).

(** The diagnostic of the fence branch. *)
Definition unterminated_fence (line_no : nat) : Diagnostic :=
  {| severity := error;
     message := lit "Unterminated fenced code block";
     d_loc := {| line := line_no; column := 1 |};
     code := FENCE_UNTERMINATED |}.

(** A diagnostic other than that of an unterminated fence. *)
Definition quiet (d : Diagnostic) : Prop := code d <> FENCE_UNTERMINATED.

(** ** The body loop and the store *)

(** The states in which the body loop tests its condition. *)
Inductive reach (lines : list str) : PState -> Prop :=
| reach_start h m st0 : parse_prologue lines = Some (h, m, st0) -> reach lines st0
| reach_step st :
    reach lines st -> idx st < length lines -> reach lines (body_step lines st).

(** [st1] differs from [st] in its cursor and in diagnostics appended. *)
Definition same_store (st st1 : PState) : Prop :=
  root st1 = root st /\ heap st1 = heap st /\ section_stack st1 = section_stack st
  /\ exists ds, diags st1 = diags st ++ ds.

(** What a turn of the body loop does to the store: nothing, or it
    appends a finished block to the document's body, or adds a finished
    block through [add_block], or places a fresh section.  [P] holds of
    the block and [Q] of the section. *)
Inductive step_effect (P : Block -> Prop) (Q : SectionObj -> Prop) (st : PState)
    : PState -> Prop :=
| eff_none st1 : same_store st st1 -> step_effect P Q st st1
| eff_root st1 b :
    same_store st st1 -> P b -> step_effect P Q st (append_to st1 None (Leaf b))
| eff_add st1 b :
    same_store st st1 -> P b -> step_effect P Q st (add_block st1 b)
| eff_section st1 sec ln i :
    same_store st st1 -> Q sec ->
    step_effect P Q st (set_idx (place_section st1 sec ln) i).

(** A body refers only to sections created later; every section is
    referred to by the document's body or by an earlier section; the open
    ancestors exist. *)
Definition store_wf (st : PState) : Prop :=
  (forall a o r, nth_error (heap st) a = Some o -> In (Ref r) (s_body o) ->
                 a < r < length (heap st))
  /\ (forall a, a < length (heap st) ->
                In (Ref a) (root st)
                \/ exists a' o', a' < a /\ nth_error (heap st) a' = Some o'
                                 /\ In (Ref a) (s_body o'))
  /\ (forall a, In a (section_stack st) -> a < length (heap st)).

(** The document's body refers to sections that exist. *)
Definition roots_wf (st : PState) : Prop :=
  forall r, In (Ref r) (root st) -> r < length (heap st).

(** [e] is in the document's body or in the body of a section. *)
Definition in_store (e : Entry) (st : PState) : Prop :=
  In e (root st) \/ exists a o, nth_error (heap st) a = Some o /\ In e (s_body o).

(** The section object [o] after [o["body"].append(e)]. *)
Definition with_entry (o : SectionObj) (e : Entry) : SectionObj :=
  {| s_number := s_number o; s_title := s_title o; s_description := s_description o;
     s_level := s_level o; s_body := s_body o ++ [e]; s_loc := s_loc o |}.

(** [b] is a node of the tree [t]. *)
Inductive subblock (b : Block) : Block -> Prop :=
| sub_here : subblock b b
| sub_section number title description level body loc t :
    In t body -> subblock b t ->
    subblock b (Section number title description level body loc).

(** [b] is a node of one of the trees of [l]. *)
Definition occurs (b : Block) (l : list Block) : Prop :=
  exists t, In t l /\ subblock b t.

(** ** Example documents *)

(** The headings "1 OVERVIEW" and "1.2.1 DEEP" under a header line, and
    the same followed by "1.2.1.1 DEEPER". *)
Definition overview_deep : list str :=
  [lit "DOC: sections"; lit "1 OVERVIEW"; lit "1.2.1 DEEP"].

Definition overview_deep_deeper : list str :=
  overview_deep ++ [lit "1.2.1.1 DEEPER"].

Definition sections_header : Header :=
  {| h_tag := lit "DOC"; h_text := lit "sections";
     h_loc := make_loc 1 1 (Some 1) (Some 14) |}.

Definition parent_1_2_missing : Diagnostic :=
  {| severity := warning;
     message := lit "Missing parent section 1.2; attached to document root.";
     d_loc := {| line := 3; column := 1 |};
     code := SECTION_PARENT_MISSING |}.

Definition intent_auth : str := lit "intent: refactor module auth: tighten validation".

(** A fence with the info string "python" that is never closed. *)
Definition open_fence_doc : list str :=
  [lit "DOC: fence"; lit "```python"; lit "x = 1"].

(** A table whose first row holds the fence marker. *)
Definition fence_in_table_doc : list str :=
  [lit "DOC: table"; lit "| a | ``` |"; lit "| b |"].

(** ** The text behind the inline nodes *)

Definition opt_text (t : option str) : str :=
  match t with Some x => x | None => [] end.

(** The characters of the lexed text that a node stands for: a code span
    with its two backticks, a label with its colon and its text, a
    comment with its marker. *)
Definition node_source (nd : InlineNode) : str :=
  match nd with
  | Text v _ => v
  | InlineCode c _ => "`"%char :: c ++ ["`"%char]
  | InlineLabel id t _ => id ++ ":"%char :: opt_text t
  | InlineComment t _ => comment_marker ++ t
  end.

Definition render (nodes : list InlineNode) : str := concat (map node_source nodes).

(** No empty [Text], no empty identifier, only label characters in an
    identifier, and no label text that is present and empty. *)
Definition node_filled (nd : InlineNode) : bool :=
  match nd with
  | Text v _ => nonempty v
  | InlineLabel id t _ =>
      nonempty id && forallb iskey id
      && match t with Some x => nonempty x | None => true end
  | InlineCode _ _ => true
  | InlineComment _ _ => true
  end.

Definition is_comment (nd : InlineNode) : bool :=
  match nd with InlineComment _ _ => true | _ => false end.

(** The characters between the columns of a node other than a comment:
    a code span without its backticks. *)
Definition node_text (nd : InlineNode) : str :=
  match nd with
  | Text v _ => v
  | InlineCode c _ => c
  | InlineLabel id t _ => id ++ ":"%char :: opt_text t
  | InlineComment t _ => t
  end.

(** The node lies on line [line_no], between two offsets of the text
    that was lexed from column [start_col], and the characters between
    these offsets are those of the node. *)
Definition placed (text : str) (start_col line_no : nat) (nd : InlineNode) : Prop :=
  line (loc_start (inline_loc nd)) = line_no
  /\ line (loc_end (inline_loc nd)) = line_no
  /\ exists a b,
       column (loc_start (inline_loc nd)) = start_col + a
       /\ column (loc_end (inline_loc nd)) = start_col + b
       /\ a <= b /\ b <= length text
       /\ slice a b text = node_text nd.

(** ** The turns of the body loop, block by block *)

Definition block_loc (b : Block) : Loc :=
  match b with
  | BlankLine l | WholeLineComment _ l | FencedCodeBlock _ _ _ l | Table _ _ _ l
  | Section _ _ _ _ _ l | BulletList _ l | Paragraph _ l => l
  end.

(** The line on which a block starts. *)
Definition start_line (b : Block) : nat := line (loc_start (block_loc b)).

Definition is_blank_line (b : Block) : bool :=
  match b with BlankLine _ => true | _ => false end.

Definition is_section (b : Block) : bool :=
  match b with Section _ _ _ _ _ _ => true | _ => false end.

(** An item with one of the three markers, at least one inline node, and
    no continuation that is present and empty. *)
Definition item_filled (it : BulletItem) : bool :=
  ismarker (marker it) && nonempty (inline it)
  && match continuation it with Some c => nonempty c | None => true end.

(** A block that goes through [add_block]: never a blank line or a
    section; an info string is absent rather than empty, the header row
    of a table has a location, a list has items and each item is filled,
    a paragraph has inline nodes. *)
Definition content_ok (b : Block) : bool :=
  match b with
  | BlankLine _ => false
  | Section _ _ _ _ _ _ => false
  | WholeLineComment _ _ => true
  | FencedCodeBlock info _ _ _ =>
      match info with Some x => nonempty x | None => true end
  | Table h _ _ _ => match r_loc h with Some _ => true | None => false end
  | BulletList items _ => nonempty items && forallb item_filled items
  | Paragraph nodes _ => nonempty nodes
  end.

(** A section as the heading branch makes it. *)
Definition fresh_section (s : SectionObj) : Prop :=
  s_level s = length (s_number s) /\ s_number s <> [] /\ s_body s = [].

(** The diagnostics that a turn appends before it touches the store:
    their codes, each with its severity. *)
Definition turn_diag (d : Diagnostic) : Prop :=
  (code d = INLINE_COMMENT_ILLEGAL /\ severity d = warning)
  \/ (code d = FENCE_UNTERMINATED /\ severity d = error)
  \/ (code d = FENCE_IN_TABLE /\ severity d = error).

(** [st1] differs from [st] in its cursor and in diagnostics appended,
    which are among those of [turn_diag]. *)
Definition same_store_coded (st st1 : PState) : Prop :=
  root st1 = root st /\ heap st1 = heap st /\ section_stack st1 = section_stack st
  /\ exists ds, diags st1 = diags st ++ ds /\ Forall turn_diag ds.

(** The line of a diagnostic. *)
Definition dline (d : Diagnostic) : nat := line (d_loc d).

(** [l] never decreases and starts at [lo] or above. *)
Fixpoint nondecreasing (lo : nat) (l : list nat) : bool :=
  match l with
  | [] => true
  | x :: r => (lo <=? x) && nondecreasing x r
  end.

(** Diagnostics in the order of their lines, from [lo] to [hi]. *)
Definition diag_run (lo : nat) (ds : list Diagnostic) (hi : nat) : Prop :=
  nondecreasing lo (map dline ds) = true /\ Forall (fun d => dline d <= hi) ds.

(** [st1] has the diagnostics of [st] and then some of the lines after
    the cursor, up to [hi], in the order of the lines. *)
Definition diag_lines (st st1 : PState) (hi : nat) : Prop :=
  exists ds, diags st1 = diags st ++ ds /\ diag_run (idx st + 1) ds hi.

(** What a turn of the body loop does: it appends a blank line to the
    document's body, or adds a content block through [add_block], or
    places a fresh section, with the line of its heading as the line of
    a diagnostic.  What it adds starts on the line of the cursor, and
    its diagnostics are on the lines that it reads. *)
Inductive turn (st : PState) : PState -> Prop :=
| turn_blank st1 loc :
    same_store_coded st st1 -> line (loc_start loc) = idx st + 1 ->
    diag_lines st st1 (idx st1) ->
    turn st (append_to st1 None (Leaf (BlankLine loc)))
| turn_content st1 b :
    same_store_coded st st1 -> content_ok b = true -> start_line b = idx st + 1 ->
    diag_lines st st1 (idx st1) ->
    turn st (add_block st1 b)
| turn_section st1 sec i :
    same_store_coded st st1 -> fresh_section sec ->
    line (loc_start (s_loc sec)) = idx st + 1 ->
    diag_lines st st1 (idx st + 1) ->
    turn st (set_idx (place_section st1 sec (line (loc_start (s_loc sec)))) i).

(** ** The section tree and the document's body *)

(** The sections of a tree are numbered: a number has components, as
    many as the level says, and a section inside the section numbered
    [p] has the number [p] with one more component. *)
Fixpoint numbered (parent : option (list N)) (b : Block) : bool :=
  match b with
  | Section number _ _ level body _ =>
      (level =? length number) && nonempty number
      && match parent with
         | Some p => number_eqb (removelast number) p
         | None => true
         end
      && forallb (numbered (Some number)) body
  | _ => true
  end.

(** No blank line inside a section, and every block other than a blank
    line and a section satisfies [content_ok]. *)
Fixpoint filled (inside : bool) (b : Block) : bool :=
  match b with
  | BlankLine _ => negb inside
  | Section _ _ _ _ body _ => forallb (filled true) body
  | _ => content_ok b
  end.

(** The same in the store.  [h'] holds the objects of [h], with their
    numbers and locations. *)
Definition heap_grows (h h' : list SectionObj) : Prop :=
  forall r o, nth_error h r = Some o ->
    exists o', nth_error h' r = Some o' /\ s_number o' = s_number o /\ s_loc o' = s_loc o.

Definition entry_fits (h : list SectionObj) (num : list N) (e : Entry) : Prop :=
  match e with
  | Leaf b => content_ok b = true
  | Ref r => exists o', nth_error h r = Some o' /\ removelast (s_number o') = num
  end.

Definition section_fits (h : list SectionObj) (o : SectionObj) : Prop :=
  s_level o = length (s_number o) /\ s_number o <> []
  /\ Forall (entry_fits h (s_number o)) (s_body o).

Definition heap_fits (h : list SectionObj) : Prop :=
  forall a o, nth_error h a = Some o -> section_fits h o.

Definition root_fits (e : Entry) : Prop :=
  match e with
  | Leaf b => is_blank_line b = true \/ content_ok b = true
  | Ref _ => True
  end.

Definition store_fits (st : PState) : Prop :=
  Forall root_fits (root st) /\ heap_fits (heap st).

(** ** The document's body and the missing parents *)

Definition is_ref (e : Entry) : bool :=
  match e with Ref _ => true | Leaf _ => false end.

Definition blank_or_ref (e : Entry) : bool :=
  match e with Ref _ => true | Leaf b => is_blank_line b end.

Definition is_spm (d : Diagnostic) : bool :=
  match code d with SECTION_PARENT_MISSING => true | _ => false end.

(** The diagnostic of a section without its parent, from the section's
    number and location. *)
Definition spm_of (number : list N) (loc : Loc) : Diagnostic :=
  {| severity := warning;
     message := missing_parent_message (removelast number);
     d_loc := {| line := line (loc_start loc); column := 1 |};
     code := SECTION_PARENT_MISSING |}.

(** The diagnostic that a block of the document's body stands for: that
    of a section whose number has two components or more. *)
Definition spm_block (b : Block) : list Diagnostic :=
  match b with
  | Section number _ _ _ _ loc =>
      if 2 <=? length number then [spm_of number loc] else []
  | _ => []
  end.

Definition spm_entry (h : list SectionObj) (e : Entry) : list Diagnostic :=
  match e with
  | Ref r =>
      match nth_error h r with
      | Some o => if 2 <=? length (s_number o) then [spm_of (s_number o) (s_loc o)] else []
      | None => []
      end
  | Leaf _ => []
  end.

(** The diagnostics of a document, the key being absent for none. *)
Definition diags_of (d : Document) : list Diagnostic :=
  match diagnostics d with Some l => l | None => [] end.

Definition root_inv (st : PState) : Prop :=
  roots_wf st
  /\ (section_stack st = [] -> Forall (fun e => is_ref e = false) (root st))
  /\ forallb blank_or_ref (dropwhile (fun e => negb (is_ref e)) (root st)) = true
  /\ filter is_spm (diags st) = flat_map (spm_entry (heap st)) (root st).

(** ** The diagnostics by code *)

(** The severity that goes with a code. *)
Definition severity_of (c : DiagnosticCode) : Severity :=
  match c with
  | INLINE_COMMENT_ILLEGAL | SECTION_PARENT_MISSING => warning
  | _ => error
  end.

(** The codes that say that the document has no header. *)
Definition header_code (d : Diagnostic) : bool :=
  match code d with EMPTY | HEADER_INVALID => true | _ => false end.

(** A diagnostic of the body loop. *)
Definition body_diag (d : Diagnostic) : Prop :=
  severity d = severity_of (code d) /\ header_code d = false.

(** The diagnostics so far go with their codes and tell whether the
    header [h] is there. *)
Definition header_inv (h : option Header) (st : PState) : Prop :=
  Forall (fun d => severity d = severity_of (code d)
                   /\ (header_code d = true -> h = None)) (diags st)
  /\ (h = None -> existsb header_code (diags st) = true).

(** ** The lines of the blocks *)

(** [l] is strictly increasing and above [lo]. *)
Fixpoint increasing (lo : nat) (l : list nat) : bool :=
  match l with
  | [] => true
  | x :: r => (lo <? x) && increasing x r
  end.

(** In the body of a section, and of the sections inside it, the blocks
    are in the order of their first lines, after the line of the
    heading. *)
Fixpoint in_source_order (b : Block) : bool :=
  match b with
  | Section _ _ _ _ body loc =>
      increasing (line (loc_start loc)) (map start_line body)
      && forallb in_source_order body
  | _ => true
  end.

Definition body_in_source_order (l : list Block) : bool :=
  increasing 0 (map start_line l) && forallb in_source_order l.

(** The lines of the headings of a tree. *)
Fixpoint headings (b : Block) : list nat :=
  match b with
  | Section _ _ _ _ body loc => line (loc_start loc) :: flat_map headings body
  | _ => []
  end.

(** None of the lines [hs] lies after the heading of a section and
    before a block of its body that is not a section, at any depth. *)
Fixpoint under_nearest_heading (hs : list nat) (b : Block) : bool :=
  match b with
  | Section _ _ _ _ body loc =>
      forallb (fun c =>
                 is_section c
                 || forallb (fun h => (h <=? line (loc_start loc)) || (start_line c <? h)) hs)
              body
      && forallb (under_nearest_heading hs) body
  | _ => true
  end.

(** The same in the store. *)
Definition heading_line (o : SectionObj) : nat := line (loc_start (s_loc o)).

Definition entry_line (h : list SectionObj) (e : Entry) : nat :=
  match e with
  | Leaf b => start_line b
  | Ref r => match nth_error h r with Some o => heading_line o | None => 0 end
  end.

Definition refs_valid (h : list SectionObj) (l : list Entry) : Prop :=
  forall r, In (Ref r) l -> r < length h.

Definition heap_valid (h : list SectionObj) : Prop :=
  forall a o, nth_error h a = Some o -> refs_valid h (s_body o).

Definition root_lines (lo i : nat) (h : list SectionObj) (rt : list Entry) : Prop :=
  lo <= i
  /\ increasing lo (map (entry_line h) rt) = true
  /\ Forall (fun e => entry_line h e <= i) rt.

Definition body_lines (i : nat) (h : list SectionObj) (o : SectionObj) : Prop :=
  heading_line o <= i
  /\ increasing (heading_line o) (map (entry_line h) (s_body o)) = true
  /\ Forall (fun e => entry_line h e <= i) (s_body o).

(** The bodies are in order up to the line [i]; the headings are in the
    order of the addresses; a block was put into a section before any
    later section was made. *)
Definition heap_lines (i : nat) (h : list SectionObj) : Prop :=
  (forall a o, nth_error h a = Some o -> body_lines i h o)
  /\ (forall a o a' o', a < a' -> nth_error h a = Some o -> nth_error h a' = Some o' ->
                        heading_line o < heading_line o')
  /\ (forall a o b a' o', nth_error h a = Some o -> In (Leaf b) (s_body o) -> a < a' ->
                          nth_error h a' = Some o' -> start_line b < heading_line o').

(** With them: the innermost open section is the one made last.  The
    body loop started at the line [lo]. *)
Definition line_inv (lo : nat) (st : PState) : Prop :=
  root_lines lo (idx st) (heap st) (root st)
  /\ heap_lines (idx st) (heap st)
  /\ (section_stack st = [] \/ top (section_stack st) = Some (length (heap st) - 1)).

(** ** The metadata *)

(** A line that the metadata loop takes: not blank, and an entry before
    and after the stripping of an inline comment. *)
Definition metadata_line (l : str) : bool :=
  negb (isblank l)
  && match METADATA_RE l with Some _ => true | None => false end
  && match METADATA_RE (strip_inline_comment_for_detection l) with
     | Some _ => true
     | None => false
     end.

(** The entry of the line [l] at the index [i]: key and value from the
    line without its inline comment, the location from the line as it
    is. *)
Definition metadata_entry (l : str) (i : nat) : list MetadataEntry :=
  match METADATA_RE (strip_inline_comment_for_detection l) with
  | Some (g1, g2) =>
      [ {| m_key := g1; m_value := g2;
           m_loc := make_loc (i + 1) 1 (Some (i + 1)) (Some (length l + 1)) |} ]
  | None => []
  end.

Fixpoint metadata_entries (rest : list str) (i : nat) : list MetadataEntry :=
  match rest with
  | [] => []
  | l :: rest' => metadata_entry l i ++ metadata_entries rest' (i + 1)
  end.

(** The document of a header line, a metadata line, a blank line and a
    paragraph. *)
Definition header_key_blank_para : list str :=
  [lit "DOC: x"; lit "key: v"; lit ""; lit "para"].

(** ** Table rows *)

(** The number of pipe characters of a string. *)
Definition pipes (s : str) : nat := length (filter (fun c => ch_eqb c "|") s).

(** The rows of a table: the header row, the alignment row and the data
    rows. *)
Definition table_all_rows (b : Block) : list TableRow :=
  match b with
  | Table h a rows _ => h :: match a with Some r => [r] | None => [] end ++ rows
  | _ => []
  end.

(** A row of the table for a row of the source: its cells are one fewer
    than the pipes, trimmed and without a pipe. *)
Definition row_of (r : TableRow) (src : str) : Prop :=
  length (cells r) = pipes src - 1
  /\ Forall (fun c => strip c = c /\ pipes c = 0) (cells r).

(** Three rows of a table. *)
Definition three_rows : list str := [lit "| a | b |"; lit "|---|---|"; lit "| 1 | 2 |"].

(** ** Header and metadata lines *)

(** [m] is one or more words of characters of the class [p], none of
    them empty, with one [sep] between two of them. *)
Definition words_of (p : ascii -> bool) (sep : ascii) (m : str) : Prop :=
  exists words,
    words <> [] /\ Forall (fun w => w <> [] /\ forallb p w = true) words
    /\ m = join [sep] words.

(** At most a newline. *)
Definition line_end (tl : str) : Prop := tl = [] \/ tl = ["010"%char].

(** ** The inline comment of a line *)

(** The index at which the loops of [strip_illegal_inline_comment] and
    [strip_inline_comment_for_detection] cut a line: that of the first
    marker outside a code span; [rest] is [line[i:]]. *)
Fixpoint comment_at (in_code : bool) (i : nat) (rest : str) : option nat :=
  match rest with
  | [] => None
  | ch :: rest' =>
      if ch_eqb ch "`" then comment_at (negb in_code) (i + 1) rest'
      else if negb in_code && startswith comment_marker rest then Some i
      else comment_at in_code (i + 1) rest'
  end.

(** ** The order of the diagnostics *)

(** The diagnostics so far are in the order of their lines, none beyond
    the line of the cursor nor beyond the [n] lines of the input. *)
Definition diags_in_order (n : nat) (st : PState) : Prop :=
  nondecreasing 1 (map dline (diags st)) = true
  /\ Forall (fun d => dline d <= idx st + 1) (diags st)
  /\ Forall (fun d => dline d <= n) (diags st).

(** ** Paragraphs and lists *)

(** A line that a paragraph takes: not blank, and no other block starts
    on it. *)
Definition para_line (l : str) : bool := negb (isblank l) && negb (ends_paragraph l).

(** The lines of the paragraph that starts at the index [i], and the
    paragraph: the lines trimmed and joined by single spaces. *)
Definition paragraph_run (lines : list str) (i : nat) : list str :=
  takewhile para_line (skipn i lines).

Definition paragraph_of (lines : list str) (i : nat) : Block :=
  Paragraph
    (parse_inline (join (lit " ") (map strip (paragraph_run lines i))) true (i + 1) 1)
    (make_loc (i + 1) 1 (Some (i + length (paragraph_run lines i)))
              (Some (length (rstrip (last (paragraph_run lines i) [])) + 1))).

(** A line on which the body loop starts a list. *)
Definition list_line (l : str) : bool :=
  negb (isblank l) && negb (starts_fence_table_or_section l) && negb (COMMENT_RE l)
  && is_bullet l.

(** The items cover the lines from the cursor [cur] to the cursor
    [stop]: each starts on the line after the one before it ends, and
    has one continuation line for each line after its first. *)
Fixpoint tiles (cur : nat) (items : list BulletItem) (stop : nat) : Prop :=
  match items with
  | [] => cur = stop
  | it :: r =>
      line (loc_start (i_loc it)) = cur + 1
      /\ cur + 1 <= line (loc_end (i_loc it))
      /\ match continuation it with Some c => length c | None => 0 end
         = line (loc_end (i_loc it)) - (cur + 1)
      /\ tiles (line (loc_end (i_loc it))) r stop
  end.

(** A header line and a paragraph of two lines; a header line and a list
    of two items, the first with a continuation line. *)
Definition header_para2 : list str := [lit "DOC: x"; lit "one"; lit " two "; lit ""].

Definition header_list2 : list str :=
  [lit "DOC: x"; lit "- a"; lit "  more"; lit "- b"].

(** ** The kinds of lines *)

(** The first character of a line that is not white space. *)
Definition first_char (l : str) : option ascii := hd_error (dropwhile isspace l).

(** The class of a character by the block that it can start: a backtick,
    a pipe, a hash, a bullet marker, a digit, anything else. *)
Definition kind_of (c : ascii) : nat :=
  if ch_eqb c "`" then 1
  else if ch_eqb c "|" then 2
  else if ch_eqb c "#" then 3
  else if ismarker c then 4
  else if isdigit c then 5
  else 0.

Definition b2n (b : bool) : nat := if b then 1 else 0.

(** How many of the five tests of the body loop after the one for a
    blank line a line passes: fence, table, heading, whole-line comment,
    bullet. *)
Definition block_starts (l : str) : nat :=
  b2n (match FENCE_RE l with Some _ => true | None => false end)
  + b2n (TABLE_RE l)
  + b2n (match SECTION_RE (strip_inline_comment_for_detection l) with
         | Some _ => true
         | None => false
         end)
  + b2n (COMMENT_RE l)
  + b2n (is_bullet l).

(** ** The order of the inline nodes *)

(** From the column [lo] on, each node ends at or after its start and
    the next one starts at or after its end. *)
Fixpoint cols_in_order (lo : nat) (nodes : list InlineNode) : bool :=
  match nodes with
  | [] => true
  | nd :: r =>
      (lo <=? column (loc_start (inline_loc nd)))
      && (column (loc_start (inline_loc nd)) <=? column (loc_end (inline_loc nd)))
      && cols_in_order (column (loc_end (inline_loc nd))) r
  end.

(** The same, with all the nodes ending at or before the column [b]. *)
Definition ordered_upto (lo : nat) (nodes : list InlineNode) (b : nat) : Prop :=
  cols_in_order lo nodes = true
  /\ Forall (fun nd => column (loc_end (inline_loc nd)) <= b) nodes
  /\ lo <= b.

(* ===================================================================== *)
(** * Properties *)
(* ===================================================================== *)

(** ** Strings *)

Lemma dropwhile_all {A} (p : A -> bool) (s : list A) :
  Forall (fun c => p c = true) s -> dropwhile p s = [].
Proof.
  induction 1 as [|c s Hc _ IH]; simpl; [reflexivity|]. now rewrite Hc.
Qed.

Lemma isblank_all_space (l : str) :
  Forall (fun c => isspace c = true) l -> isblank l = true.
Proof.
  intros H. unfold isblank, strip, rstrip, lstrip.
  now rewrite (dropwhile_all _ _ H).
Qed.

(** ** Where [int] raises *)

(** A heading whose number has 4301 digits makes the heading branch
    raise; one of 4300 digits does not. *)
Lemma heading_raises_at_limit :
  heading_raises (repeat "1"%char 4301 ++ lit " BIG") = true
  /\ heading_raises (repeat "1"%char 4300 ++ lit " BIG") = false.
Proof. vm_compute. split; reflexivity. Qed.

(** On an input that passes [no_heading_raises] the heading branch
    raises at no position of the cursor. *)
Lemma no_heading_raises_at (lines : list str) (i : nat) :
  no_heading_raises lines = true -> i < length lines ->
  heading_raises (nth i lines []) = false.
Proof.
  unfold no_heading_raises. intros H Hi.
  rewrite forallb_forall in H. apply negb_true_iff, H, nth_In, Hi.
Qed.

(** ** The section tree builder: the recovery policy *)

(** C1. After the headings "1 OVERVIEW" and "1.2.1 DEEP" the section
    1.2.1 is a child of the document root, next to section 1 whose body
    is empty, there is exactly one diagnostic, the warning
    SECTION_PARENT_MISSING that names 1.2, and both sections are on the
    stack of open ancestors with 1.2.1 on top; a following heading
    "1.2.1.1 DEEPER" lands in the body of section 1.2.1. *)
Theorem C1_missing_parent_recovery :
  parse_document overview_deep
  = {| header := Some sections_header; metadata := [];
       body := [ Section [1%N] (lit "OVERVIEW") None 1 []
                   (make_loc 2 1 (Some 2) (Some 11));
                 Section [1%N; 2%N; 1%N] (lit "DEEP") None 3 []
                   (make_loc 3 1 (Some 3) (Some 11)) ];
       diagnostics := Some [parent_1_2_missing] |}
  /\ (exists h m st0,
        parse_prologue overview_deep = Some (h, m, st0)
        /\ root (body_loop overview_deep st0) = [Ref 0; Ref 1]
        /\ section_stack (body_loop overview_deep st0) = [0; 1]
        /\ map s_number (heap (body_loop overview_deep st0)) = [[1%N]; [1%N; 2%N; 1%N]])
  /\ parse_document overview_deep_deeper
     = {| header := Some sections_header; metadata := [];
          body := [ Section [1%N] (lit "OVERVIEW") None 1 []
                      (make_loc 2 1 (Some 2) (Some 11));
                    Section [1%N; 2%N; 1%N] (lit "DEEP") None 3
                      [ Section [1%N; 2%N; 1%N; 1%N] (lit "DEEPER") None 4 []
                          (make_loc 4 1 (Some 4) (Some 15)) ]
                      (make_loc 3 1 (Some 3) (Some 11)) ];
          diagnostics := Some [parent_1_2_missing] |}.
Proof.
  split; [vm_compute; reflexivity|]. split; [|vm_compute; reflexivity].
  eexists _, _, _. split; [vm_compute; reflexivity|].
  repeat split; vm_compute; reflexivity.
Qed.

(** ** The inline lexer on the documented examples *)

(** The claim of C2 as written, with the text fields trimmed, does not
    hold whatever the locations are. *)
Lemma C2_label_text_is_not_trimmed :
  ~ exists l1 l2,
      parse_inline intent_auth true 1 1
      = [ InlineLabel (lit "intent") (Some (lit "refactor module")) l1;
          InlineLabel (lit "auth") (Some (lit "tighten validation")) l2 ].
Proof.
  intros (l1 & l2 & H). vm_compute in H. discriminate H.
Qed.

(** C2 (amended). The line is lexed, as the text of a paragraph, into
    exactly two nodes, both labels and no [Text] before them: "intent"
    with the text " refactor module " and "auth" with the text
    " tighten validation", each text being everything after the colon up
    to the next label, blanks included. *)
Theorem C2_two_labels (line_no : nat) :
  parse_inline intent_auth true line_no 1
  = [ InlineLabel (lit "intent") (Some (lit " refactor module "))
        (make_loc line_no 1 (Some line_no) (Some 25));
      InlineLabel (lit "auth") (Some (lit " tighten validation"))
        (make_loc line_no 25 (Some line_no) (Some 49)) ].
Proof. vm_compute. reflexivity. Qed.

(** C5. A comment marker inside a code span does not split the line: the
    result is the one [InlineCode] node. *)
Theorem C5_code_span_precedence (line_no start_col : nat) :
  parse_inline (lit "`i#notacomment`") true line_no start_col
  = [ InlineCode (lit "i#notacomment")
        (make_loc line_no (start_col + 1) (Some line_no) (Some (start_col + 14))) ].
Proof. vm_compute. reflexivity. Qed.

(** ** Empty input *)

(** C7. When every line consists of white space only (there may be no
    line at all), the document is the minimal one: no header, no
    metadata, no body and the one diagnostic EMPTY, an error at line 1,
    column 1.  Neither the header nor the body code runs. *)
Theorem C7_empty_input (lines : list str) :
  Forall (Forall (fun c => isspace c = true)) lines ->
  parse_document lines
  = {| header := None; metadata := []; body := [];
       diagnostics :=
         Some [ {| severity := error; message := lit "Empty document";
                   d_loc := {| line := 1; column := 1 |}; code := EMPTY |} ] |}
  /\ parse_prologue lines = None.
Proof.
  intros H.
  assert (Hnone : forall i, first_non_blank_from lines i = None).
  { induction H as [|l ls Hl _ IH]; intros i; simpl; [reflexivity|].
    now rewrite (isblank_all_space l Hl). }
  unfold parse_document, parse_prologue. rewrite Hnone. split; reflexivity.
Qed.

Lemma C7_empty_input_witness :
  parse_document [lit ""; lit "   "; [" "%char; "009"%char]]
  = {| header := None; metadata := []; body := [];
       diagnostics :=
         Some [ {| severity := error; message := lit "Empty document";
                   d_loc := {| line := 1; column := 1 |}; code := EMPTY |} ] |}
  /\ parse_prologue [lit ""; lit "   "; [" "%char; "009"%char]] = None.
Proof.
  apply (C7_empty_input [lit ""; lit "   "; [" "%char; "009"%char]]).
  repeat constructor.
Defined.

(** ** The table extractor *)

Lemma split_nonempty sep s : split sep s <> [].
Proof.
  destruct s as [|c r]; simpl; [discriminate|].
  destruct (ch_eqb c sep); [discriminate|]. destruct (split sep r); discriminate.
Qed.

Lemma split_app_sep sep a b : split sep (a ++ sep :: b) = split sep a ++ split sep b.
Proof.
  induction a as [|c a IH]; simpl.
  - unfold ch_eqb. now rewrite Ascii.eqb_refl.
  - destruct (ch_eqb c sep); [now rewrite IH|].
    rewrite IH. pose proof (split_nonempty sep a).
    destruct (split sep a); [contradiction|reflexivity].
Qed.

Lemma split_no_sep sep s : ~ In sep s -> split sep s = [s].
Proof.
  induction s as [|c r IH]; intros Hn; simpl; [reflexivity|].
  destruct (ch_eqb c sep) eqn:E.
  - apply Ascii.eqb_eq in E. subst. elim Hn. now left.
  - rewrite IH; [reflexivity|]. intros Hin. apply Hn. now right.
Qed.

Lemma inner_split_last sep pre tail :
  ~ In sep tail -> inner (split sep (pre ++ sep :: tail)) = tl (split sep pre).
Proof.
  intros Hn. rewrite split_app_sep, (split_no_sep sep tail Hn).
  pose proof (split_nonempty sep pre). unfold inner.
  destruct (split sep pre) as [|h t]; [contradiction|]. simpl.
  apply removelast_last.
Qed.

Lemma table_rows_loop_eq rows d start_line i parsed :
  table_rows_loop rows d start_line i parsed
  = (parsed ++ table_rows start_line i rows, d ++ table_diags start_line i rows).
Proof.
  revert d i parsed; induction rows as [|row rows IH]; intros d i parsed; simpl.
  - now rewrite !app_nil_r.
  - rewrite IH. f_equal.
    + now rewrite <- app_assoc.
    + destruct (find fence_marker row); simpl; now rewrite <- ?app_assoc, ?app_nil_r.
Qed.

Lemma table_rows_nth start_line i rows j row :
  nth_error rows j = Some row ->
  nth_error (table_rows start_line i rows) j = Some (table_row start_line (i + j) row).
Proof.
  revert i j; induction rows as [|r rows IH]; intros i [|j]; simpl; try discriminate.
  - intros [= ->]. now rewrite Nat.add_0_r.
  - intros H. rewrite (IH (i + 1) j H). do 2 f_equal. lia.
Qed.

Lemma table_diags_nth start_line i rows j row k :
  nth_error rows j = Some row -> find fence_marker row = Some k ->
  In (fence_in_table start_line (i + j) k) (table_diags start_line i rows).
Proof.
  revert i j; induction rows as [|r rows IH]; intros i [|j]; simpl; try discriminate.
  - intros [= ->] ->. rewrite Nat.add_0_r. now left.
  - intros H Hk. apply in_or_app. right.
    replace (i + S j) with (i + 1 + j) by lia. now apply IH.
Qed.

(** [parse_table] in one equation. *)
Lemma parse_table_eq rows d start_line :
  parse_table rows d start_line
  = (Table match table_rows start_line 0 rows with
           | r :: _ => r
           | [] => {| cells := []; r_loc := None |}
           end
           (nth_error (table_rows start_line 0 rows) 1)
           (skipn 2 (table_rows start_line 0 rows))
           (make_loc start_line 1
              (Some (if nonempty rows then start_line + length rows - 1 else start_line))
              (Some (if nonempty rows then length (rstrip (last rows [])) + 1 else 1))),
     d ++ table_diags start_line 0 rows).
Proof. unfold parse_table. now rewrite table_rows_loop_eq. Qed.

(** C10. When the stripped row continues after its last pipe, the cells
    are those of the part before that pipe: what follows it takes no part
    in them.  A table made of such a row, if the row holds no fence
    marker, adds no diagnostic. *)
Theorem C10_text_after_last_pipe_dropped (row pre tail : str) :
  strip row = pre ++ "|"%char :: tail ->
  ~ In "|"%char tail ->
  row_cells row = map strip (tl (split "|" pre))
  /\ (find fence_marker row = None ->
      forall d start_line,
        exists l1 l2,
          parse_table [row] d start_line
          = (Table {| cells := map strip (tl (split "|" pre)); r_loc := Some l1 |}
                   None [] l2, d)).
Proof.
  intros Hrow Htail.
  assert (Hcells : row_cells row = map strip (tl (split "|" pre))).
  { unfold row_cells. now rewrite Hrow, inner_split_last. }
  split; [exact Hcells|].
  intros Hfence d start_line. rewrite parse_table_eq.
  cbn [table_rows table_diags]. rewrite Hfence. unfold table_row. rewrite Hcells.
  cbn [nth_error skipn app]. rewrite app_nil_r. eauto.
Qed.

Lemma C10_one_cell_of_two :
  row_cells (lit "| a | b") = [lit "a"]
  /\ (find fence_marker (lit "| a | b") = None ->
      forall d start_line,
        exists l1 l2,
          parse_table [lit "| a | b"] d start_line
          = (Table {| cells := [lit "a"]; r_loc := Some l1 |} None [] l2, d)).
Proof.
  apply (C10_text_after_last_pipe_dropped (lit "| a | b") (lit "| a ") (lit " b")).
  - reflexivity.
  - vm_compute. intuition discriminate.
Defined.

(** ** The fenced-block extractor *)

Lemma ch_eqb_eq a b : ch_eqb a b = true <-> a = b.
Proof. apply Ascii.eqb_eq. Qed.

Lemma startswith_spec p s : startswith p s = true <-> exists rest, s = p ++ rest.
Proof.
  revert s; induction p as [|c p IH]; intros s; simpl.
  - split; eauto.
  - destruct s as [|d s].
    + split; [discriminate|]. intros [rest H]. discriminate.
    + rewrite andb_true_iff, ch_eqb_eq, IH. split.
      * intros [-> [rest ->]]. eauto.
      * intros [rest [= -> ->]]. eauto.
Qed.

Lemma str_eqb_eq a b : str_eqb a b = true <-> a = b.
Proof.
  revert b; induction a as [|x a IH]; intros [|y b]; simpl;
    try (split; [discriminate|congruence]); try tauto.
  rewrite andb_true_iff, ch_eqb_eq, IH. split; [intros [-> ->]|intros [= -> ->]]; auto.
Qed.

Lemma dropwhile_app_all {A} (p : A -> bool) (x y : list A) :
  forallb p x = true -> dropwhile p (x ++ y) = dropwhile p y.
Proof.
  induction x as [|c x IH]; simpl; [reflexivity|].
  destruct (p c); simpl; [exact IH|discriminate].
Qed.

Lemma dropwhile_app_stop {A} (p : A -> bool) (x y : list A) :
  forallb p x = false ->
  dropwhile p (x ++ y) = dropwhile p x ++ y /\ dropwhile p x <> [].
Proof.
  induction x as [|c x IH]; simpl; [discriminate|].
  destruct (p c); simpl; [exact IH|]. intros _. split; [reflexivity|discriminate].
Qed.

Lemma forallb_rev {A} (p : A -> bool) (l : list A) : forallb p (rev l) = forallb p l.
Proof.
  induction l as [|c l IH]; simpl; [reflexivity|].
  rewrite forallb_app, IH. simpl. rewrite andb_true_r. apply andb_comm.
Qed.

(** Trailing white space is all that [rstrip] removes. *)
Lemma rstrip_app_space a b : forallb isspace b = true -> rstrip (a ++ b) = rstrip a.
Proof.
  intros H. unfold rstrip. rewrite rev_app_distr, dropwhile_app_all; [reflexivity|].
  now rewrite forallb_rev.
Qed.

Lemma rstrip_app_keep a b :
  forallb isspace b = false -> rstrip (a ++ b) = a ++ rstrip b /\ rstrip b <> [].
Proof.
  intros H. unfold rstrip. rewrite rev_app_distr.
  destruct (dropwhile_app_stop isspace (rev b) (rev a)) as [-> Hne];
    [now rewrite forallb_rev|].
  rewrite rev_app_distr, rev_involutive. split; [reflexivity|].
  intros E. apply Hne. apply (f_equal (@rev ascii)) in E.
  now rewrite rev_involutive in E.
Qed.

Lemma lstrip_spaces_marker k s :
  lstrip (repeat " "%char k ++ fence_marker ++ s) = fence_marker ++ s.
Proof. induction k as [|k IH]; simpl; [reflexivity|exact IH]. Qed.

Lemma closes_fence_spec k l :
  closes_fence k l = true
  <-> (exists rest, l = repeat " "%char k ++ fence_marker ++ rest) /\ strip l = fence_marker.
Proof.
  unfold closes_fence. rewrite andb_true_iff, startswith_spec, str_eqb_eq.
  split; intros [[rest H] Hs]; (split; [exists rest|exact Hs]).
  - now rewrite H, <- app_assoc.
  - now rewrite H, app_assoc.
Qed.

Lemma closes_fence_info k info :
  closes_fence k (repeat " "%char k ++ fence_marker ++ info) = forallb isspace info.
Proof.
  destruct (forallb isspace info) eqn:E.
  - apply closes_fence_spec. split; [eauto|].
    unfold strip. rewrite lstrip_spaces_marker, rstrip_app_space by exact E. reflexivity.
  - destruct (closes_fence _ _) eqn:C; [|reflexivity].
    apply closes_fence_spec in C. destruct C as [_ C].
    unfold strip in C. rewrite lstrip_spaces_marker in C.
    destruct (rstrip_app_keep fence_marker info E) as [H Hne]. rewrite H in C.
    apply (f_equal (@length ascii)) in C. rewrite length_app in C.
    destruct (rstrip info); [contradiction|]. simpl in C. lia.
Qed.

Lemma fence_loop_eq k rest content i :
  fence_loop k rest content i
  = match dropwhile (not_closing k) rest with
    | [] => (content ++ rest, false, [], i + length rest)
    | l :: _ =>
        (content ++ takewhile (not_closing k) rest, true, l,
         i + length (takewhile (not_closing k) rest) + 1)
    end.
Proof.
  revert content i; induction rest as [|l rest IH]; intros content i; simpl.
  - rewrite app_nil_r, Nat.add_0_r. reflexivity.
  - replace (closes_fence k l) with (negb (not_closing k l))
      by (unfold not_closing; apply negb_involutive).
    destruct (not_closing k l); simpl.
    + rewrite IH. destruct (dropwhile (not_closing k) rest);
        rewrite <- app_assoc; simpl; repeat (f_equal; try lia).
    + rewrite app_nil_r, Nat.add_0_r. reflexivity.
Qed.

(** The block that the fence branch adds holds the lines up to the first
    closing line, as they are. *)
Lemma fence_block_content lines st g1 g2 :
  exists st1 info loc,
    fence_block lines st g1 g2
    = add_block st1
        (FencedCodeBlock info (length g1)
           (takewhile (not_closing (length g1)) (skipn (idx st + 1) lines)) loc).
Proof.
  unfold fence_block. rewrite fence_loop_eq. simpl app.
  destruct (dropwhile _ _) eqn:E.
  - assert (Hall : takewhile (not_closing (length g1)) (skipn (idx st + 1) lines)
                   = skipn (idx st + 1) lines).
    { revert E. generalize (skipn (idx st + 1) lines) as r.
      induction r as [|l r IH]; simpl; [reflexivity|].
      destruct (not_closing _ l); [intros H; now rewrite IH|discriminate]. }
    rewrite Hall. eauto.
  - eauto.
Qed.

(** C4. For an open fence of indentation [k]: a line closes it exactly
    when it starts with [k] spaces and the fence marker and its stripped
    text is the marker; a candidate with text after the marker closes it
    only when that text is white space, so never with an info string;
    the content loop collects, unchanged, the lines before the first
    closing line, and the fence branch stores them in the block. *)
Theorem C4_fence_closing_line (k : nat) :
  (forall l,
      closes_fence k l = true
      <-> (exists rest, l = repeat " "%char k ++ fence_marker ++ rest)
          /\ strip l = fence_marker)
  /\ (forall info,
        closes_fence k (repeat " "%char k ++ fence_marker ++ info) = forallb isspace info)
  /\ (forall rest i,
        fence_loop k rest [] i
        = match dropwhile (not_closing k) rest with
          | [] => (rest, false, [], i + length rest)
          | l :: _ =>
              (takewhile (not_closing k) rest, true, l,
               i + length (takewhile (not_closing k) rest) + 1)
          end)
  /\ (forall lines st g1 g2,
        length g1 = k ->
        exists st1 info loc,
          fence_block lines st g1 g2
          = add_block st1
              (FencedCodeBlock info k
                 (takewhile (not_closing k) (skipn (idx st + 1) lines)) loc)).
Proof.
  split; [apply closes_fence_spec|]. split; [apply closes_fence_info|].
  split; [intros; apply fence_loop_eq|].
  intros lines st g1 g2 <-. apply fence_block_content.
Qed.

(** ** The inline lexer *)

Lemma parse_labels_loop_step text out line_no base_col pos :
  parse_labels_loop text out line_no base_col pos
  = match LABEL_search text pos with
    | None =>
        if nonempty (skipn pos text) then
          out ++ [Text (skipn pos text)
                    (make_loc line_no (base_col + pos) (Some line_no)
                              (Some (base_col + length text)))]
        else out
    | Some (match_start, match_end) =>
        parse_labels_loop text
          ((if pos <? match_start then
              out ++ [Text (slice pos match_start text)
                        (make_loc line_no (base_col + pos) (Some line_no)
                                  (Some (base_col + match_start)))]
            else out)
           ++ [InlineLabel (slice match_start (match_end - 1) text)
                 (if nonempty (slice match_end (label_end text match_end) text)
                  then Some (slice match_end (label_end text match_end) text) else None)
                 (make_loc line_no (base_col + match_start) (Some line_no)
                           (Some (base_col + label_end text match_end)))])
          line_no base_col (label_end text match_end)
    end.
Proof.
  funelim (parse_labels_loop text out line_no base_col pos);
    match goal with H : LABEL_search _ _ = _ |- _ => rewrite H end; reflexivity.
Qed.

(** Induction along the cursor positions of the label loop. *)
Lemma label_cursor_ind (text : str) (P : nat -> Prop) :
  (forall pos,
      (forall ms me, LABEL_search text pos = Some (ms, me) -> P (label_end text me)) ->
      P pos) ->
  forall pos, P pos.
Proof.
  intros Hstep.
  assert (H : forall n pos, length text - pos <= n -> P pos).
  { induction n as [|n IH]; intros pos Hn; apply Hstep; intros ms me Hm;
      pose proof (LABEL_search_bounds _ _ _ _ Hm);
      pose proof (label_end_bounds text me); [lia|apply IH; lia]. }
  intros pos. now apply (H (length text - pos)).
Qed.

(** The label loop only appends to [out]. *)
Lemma parse_labels_loop_app text out line_no base_col pos :
  parse_labels_loop text out line_no base_col pos
  = out ++ parse_labels_loop text [] line_no base_col pos.
Proof.
  revert out. pattern pos. apply (label_cursor_ind text). clear pos.
  intros pos IH out.
  rewrite (parse_labels_loop_step text out), (parse_labels_loop_step text []).
  destruct (LABEL_search text pos) as [[ms me]|] eqn:Hm.
  - match goal with
    | |- parse_labels_loop _ ?o1 _ _ _ = _ ++ parse_labels_loop _ ?o2 _ _ _ =>
        rewrite (IH ms me eq_refl o1), (IH ms me eq_refl o2)
    end.
    destruct (pos <? ms); simpl; now rewrite <- ?app_assoc.
  - destruct (nonempty _); simpl; now rewrite ?app_nil_r.
Qed.

Lemma parse_labels_into_app text out line_no base_col :
  parse_labels_into text out line_no base_col
  = out ++ parse_labels_into text [] line_no base_col.
Proof. apply parse_labels_loop_app. Qed.

Lemma parse_labels_loop_no_code text out line_no base_col pos :
  Forall (fun nd => is_code nd = false) out ->
  Forall (fun nd => is_code nd = false) (parse_labels_loop text out line_no base_col pos).
Proof.
  revert out. pattern pos. apply (label_cursor_ind text). clear pos.
  intros pos IH out Hout. rewrite parse_labels_loop_step.
  destruct (LABEL_search text pos) as [[ms me]|] eqn:Hm.
  - apply (IH ms me eq_refl). apply Forall_app. split; [|repeat constructor].
    destruct (pos <? ms); [|exact Hout].
    apply Forall_app. split; [exact Hout|repeat constructor].
  - destruct (nonempty _); [|exact Hout].
    apply Forall_app. split; [exact Hout|repeat constructor].
Qed.

(** A run that starts with a backtick starts with a [Text] node that
    starts with the backtick. *)
Lemma parse_labels_into_backtick tail line_no base_col :
  exists v loc more,
    parse_labels_into ("`"%char :: tail) [] line_no base_col = Text ("`"%char :: v) loc :: more.
Proof.
  unfold parse_labels_into. rewrite parse_labels_loop_step.
  destruct (LABEL_search ("`"%char :: tail) 0) as [[ms me]|] eqn:Hm.
  - assert (Hms : 1 <= ms).
    { unfold LABEL_search in Hm. cbn in Hm.
      apply LABEL_search_from_bounds in Hm. lia. }
    rewrite parse_labels_loop_app.
    destruct ms as [|ms]; [lia|]. cbn. eauto.
  - cbn. eauto.
Qed.

(** With no backtick left, the scanning loop only moves its index. *)
Lemma piwc_loop_plain text line_no start_col result in_code code_start plain_start i rest :
  ~ In "`"%char rest ->
  piwc_loop text line_no start_col result in_code code_start plain_start i rest
  = piwc_loop text line_no start_col result in_code code_start plain_start
      (i + length rest) [].
Proof.
  revert i; induction rest as [|c rest IH]; intros i Hn.
  - now rewrite Nat.add_0_r.
  - cbn [piwc_loop]. destruct (ch_eqb c "`") eqn:E.
    + apply ch_eqb_eq in E. subst. elim Hn. now left.
    + rewrite IH by (intros H; apply Hn; now right).
      replace (i + length (c :: rest)) with (i + 1 + length rest) by (cbn [length]; lia).
      reflexivity.
Qed.

Lemma slice_app_l {A} (a b : nat) (p x : list A) :
  b <= length p -> slice a b (p ++ x) = slice a b p.
Proof.
  intros Hb. unfold slice.
  destruct (le_lt_dec a b) as [Hab|Hab].
  - rewrite skipn_app. replace (a - length p) with 0 by lia. cbn [skipn].
    rewrite firstn_app. rewrite length_skipn.
    replace (b - a - (length p - a)) with 0 by lia. cbn [firstn]. apply app_nil_r.
  - replace (b - a) with 0 by lia. reflexivity.
Qed.

Lemma slice_to_end {A} (a : nat) (p : list A) : slice a (length p) p = skipn a p.
Proof. unfold slice. rewrite <- (length_skipn a p). apply firstn_all. Qed.

Lemma open_after_count p in_code :
  open_after in_code p
  = xorb in_code (Nat.odd (count_occ ascii_dec p "`"%char)).
Proof.
  unfold open_after. revert in_code; induction p as [|c p IH]; intros b; cbn [fold_left count_occ].
  - cbn. now rewrite xorb_false_r.
  - rewrite IH. destruct (ascii_dec c "`") as [->|Hc].
    + cbn [ch_eqb]. unfold ch_eqb. rewrite Ascii.eqb_refl. rewrite Nat.odd_succ.
      rewrite <- Nat.negb_odd. destruct b, (Nat.odd _); reflexivity.
    + destruct (ch_eqb c "`") eqn:E; [apply ch_eqb_eq in E; contradiction|reflexivity].
Qed.

(** The scanning loop over a text whose last backtick opens a span that
    is never closed, against the loop over the text before that
    backtick. *)
Lemma piwc_loop_unmatched (P tail : str) line_no start_col :
  ~ In "`"%char tail ->
  forall p i result in_code code_start plain_start,
    skipn i P = p -> i <= length P ->
    open_after in_code p = false ->
    piwc_loop (P ++ "`"%char :: tail) line_no start_col result in_code code_start
              plain_start i (p ++ "`"%char :: tail)
    = piwc_loop P line_no start_col result in_code code_start plain_start i p
      ++ parse_labels_into ("`"%char :: tail) [] line_no (start_col + length P).
Proof.
  intros Htail. induction p as [|c p IH]; intros i result in_code code_start plain_start Hp Hi Hopen.
  - assert (i = length P).
    { apply (f_equal (@length ascii)) in Hp. rewrite length_skipn in Hp. cbn in Hp. lia. }
    subst i. cbn in Hopen. subst in_code.
    cbn [app piwc_loop]. unfold ch_eqb at 1. rewrite Ascii.eqb_refl.
    rewrite piwc_loop_plain by exact Htail. cbn [piwc_loop].
    replace (length P + 1 - 1) with (length P) by lia.
    replace (length P <? length (P ++ "`"%char :: tail)) with true
      by (symmetry; apply Nat.ltb_lt; rewrite length_app; cbn; lia).
    rewrite skipn_app, skipn_all, Nat.sub_diag. cbn [app skipn].
    rewrite parse_labels_into_app. f_equal.
    rewrite slice_app_l by lia. rewrite slice_to_end.
    destruct (plain_start <? length P); reflexivity.
  - assert (Hlt : i < length P).
    { apply (f_equal (@length ascii)) in Hp. rewrite length_skipn in Hp. cbn in Hp. lia. }
    assert (Hp' : skipn (i + 1) P = p).
    { replace (i + 1) with (1 + i) by lia. rewrite <- skipn_skipn, Hp. reflexivity. }
    cbn [app piwc_loop]. cbn [open_after fold_left] in Hopen.
    destruct (ch_eqb c "`").
    + destruct in_code.
      * rewrite slice_app_l by lia. apply IH; [exact Hp'|lia|exact Hopen].
      * rewrite slice_app_l by lia. apply IH; [exact Hp'|lia|exact Hopen].
    + apply IH; [exact Hp'|lia|exact Hopen].
Qed.

(** C9. When the last backtick of a text opens a span that is never
    closed (an even number of backticks before it, none after it), the
    lexer yields the nodes of the text before that backtick followed by
    the label extraction of the rest, backtick included: no [InlineCode]
    comes from the rest, and its first node is a [Text] that starts with
    the backtick. *)
Theorem C9_unmatched_backtick_is_text (pre tail : str) (line_no start_col : nat) :
  Nat.even (count_occ ascii_dec pre "`"%char) = true ->
  ~ In "`"%char tail ->
  parse_inline_without_comment (pre ++ "`"%char :: tail) line_no start_col
  = parse_inline_without_comment pre line_no start_col
    ++ parse_labels_into ("`"%char :: tail) [] line_no (start_col + length pre)
  /\ Forall (fun nd => is_code nd = false)
       (parse_labels_into ("`"%char :: tail) [] line_no (start_col + length pre))
  /\ exists v loc more,
       parse_labels_into ("`"%char :: tail) [] line_no (start_col + length pre)
       = Text ("`"%char :: v) loc :: more.
Proof.
  intros Heven Htail. split; [|split].
  - unfold parse_inline_without_comment.
    apply (piwc_loop_unmatched pre tail line_no start_col Htail pre 0);
      [reflexivity|lia|].
    rewrite open_after_count, <- Nat.negb_even, Heven. reflexivity.
  - apply parse_labels_loop_no_code. constructor.
  - apply parse_labels_into_backtick.
Qed.

Lemma C9_unmatched_backtick_example :
  parse_inline_without_comment (lit "run `ls` then `cat x") 3 1
  = parse_inline_without_comment (lit "run `ls` then ") 3 1
    ++ parse_labels_into (lit "`cat x") [] 3 (1 + 14)
  /\ Forall (fun nd => is_code nd = false) (parse_labels_into (lit "`cat x") [] 3 (1 + 14))
  /\ exists v loc more,
       parse_labels_into (lit "`cat x") [] 3 (1 + 14) = Text ("`"%char :: v) loc :: more.
Proof.
  apply (C9_unmatched_backtick_is_text (lit "run `ls` then ") (lit "cat x") 3 1).
  - reflexivity.
  - vm_compute. intuition discriminate.
Defined.

(* ===================================================================== *)
(** ** The location invariant *)
(* ===================================================================== *)

Lemma loc_ok_intro n l1 c1 l2 c2 :
  l1 < l2 \/ (l1 = l2 /\ c1 <= c2) -> l2 <= n ->
  loc_ok n (make_loc l1 c1 (Some l2) (Some c2)) = true.
Proof.
  intros H Hn. unfold loc_ok, pos_le, make_loc. cbn.
  apply andb_true_iff. split; [|now apply Nat.leb_le].
  apply orb_true_iff. destruct H as [H|[-> H]].
  - left. now apply Nat.ltb_lt.
  - right. rewrite Nat.eqb_refl. now apply Nat.leb_le.
Qed.

Lemma loc_ok_line n ln c1 c2 :
  ln <= n -> c1 <= c2 -> loc_ok n (make_loc ln c1 (Some ln) (Some c2)) = true.
Proof. intros. apply loc_ok_intro; auto. Qed.

Lemma inlines_ok_snoc n l nd :
  inlines_ok n l -> inline_ok n nd = true -> inlines_ok n (l ++ [nd]).
Proof. intros Hl Hnd. apply Forall_app. split; [exact Hl|now constructor]. Qed.

Lemma parse_labels_loop_ok n text line_no base_col :
  line_no <= n ->
  forall pos out,
    pos <= length text -> inlines_ok n out ->
    inlines_ok n (parse_labels_loop text out line_no base_col pos).
Proof.
  intros Hn pos. pattern pos. apply (label_cursor_ind text). clear pos.
  intros pos IH out Hpos Hout. rewrite parse_labels_loop_step.
  destruct (LABEL_search text pos) as [[ms me]|] eqn:Hm.
  - pose proof (LABEL_search_bounds _ _ _ _ Hm) as Hb.
    pose proof (label_end_bounds text me) as He.
    apply (IH ms me eq_refl); [lia|].
    apply inlines_ok_snoc; [|apply loc_ok_line; lia].
    destruct (pos <? ms); [|exact Hout].
    apply inlines_ok_snoc; [exact Hout|apply loc_ok_line; lia].
  - destruct (nonempty _); [|exact Hout].
    apply inlines_ok_snoc; [exact Hout|apply loc_ok_line; lia].
Qed.

Lemma parse_labels_into_ok n text out line_no base_col :
  line_no <= n -> inlines_ok n out ->
  inlines_ok n (parse_labels_into text out line_no base_col).
Proof. intros. apply parse_labels_loop_ok; auto. lia. Qed.

Lemma piwc_loop_ok n text line_no start_col :
  line_no <= n ->
  forall rest i result in_code code_start plain_start,
    code_start <= i -> inlines_ok n result ->
    inlines_ok n (piwc_loop text line_no start_col result in_code code_start
                            plain_start i rest).
Proof.
  intros Hn. induction rest as [|c rest IH];
    intros i result in_code code_start plain_start Hcs Hres; cbn [piwc_loop].
  - destruct (_ <? _); [|exact Hres]. now apply parse_labels_into_ok.
  - destruct (ch_eqb c "`"); [|apply IH; [lia|exact Hres]].
    destruct in_code.
    + apply IH; [lia|]. apply inlines_ok_snoc; [exact Hres|apply loc_ok_line; lia].
    + apply IH; [lia|]. destruct (_ <? _); [|exact Hres]. now apply parse_labels_into_ok.
Qed.

Lemma comment_pos_loop_bounds allow in_code i rest p :
  comment_pos_loop allow in_code i rest = Some p -> i <= p < i + length rest.
Proof.
  revert in_code i; induction rest as [|c rest IH]; intros in_code i; cbn [comment_pos_loop];
    [discriminate|].
  destruct (_ && _).
  - intros [= <-]. cbn. lia.
  - intros H. apply IH in H. cbn. lia.
Qed.

Lemma parse_inline_ok n text allow line_no start_col :
  line_no <= n -> inlines_ok n (parse_inline text allow line_no start_col).
Proof.
  intros Hn. unfold parse_inline.
  destruct (comment_pos_loop _ _ _ _) as [p|] eqn:Hp.
  - apply comment_pos_loop_bounds in Hp.
    apply inlines_ok_snoc; [|apply loc_ok_line; lia].
    apply piwc_loop_ok; [exact Hn|lia|constructor].
  - apply piwc_loop_ok; [exact Hn|lia|constructor].
Qed.

(** *** The blocks of one turn of the body loop *)

Lemma loc_ok_col1 n l1 l2 c2 :
  l1 <= l2 -> l2 <= n -> 1 <= c2 -> loc_ok n (make_loc l1 1 (Some l2) (Some c2)) = true.
Proof. intros. apply loc_ok_intro; lia. Qed.

Lemma takewhile_dropwhile {A} (p : A -> bool) (s : list A) :
  takewhile p s ++ dropwhile p s = s.
Proof.
  induction s as [|c s IH]; simpl; [reflexivity|].
  destruct (p c); simpl; [now rewrite IH|reflexivity].
Qed.

Lemma ismarker_not_space m : ismarker m = true -> isspace m = false.
Proof.
  unfold ismarker. rewrite !orb_true_iff, !ch_eqb_eq.
  intros [[->| ->]| ->]; reflexivity.
Qed.

(** The marker of a bullet line survives [rstrip]. *)
Lemma bullet_indent line g1 m text :
  BULLET_RE line = Some (g1, m, text) -> length g1 + 1 <= length (rstrip line).
Proof.
  unfold BULLET_RE. intros H.
  pose proof (takewhile_dropwhile isspace line) as Hline.
  destruct (dropwhile isspace line) as [|c [|d rest]]; try discriminate.
  assert (Hd : d = " "%char /\ ismarker c = true /\ g1 = takewhile isspace line).
  { destruct (ascii_dec d " ") as [->|Hd].
    - destruct (ismarker c); [|discriminate].
      destruct (dot_plus_eol rest); [|discriminate]. injection H as <- _ _. auto.
    - exfalso. destruct d as [[] [] [] [] [] [] [] []]; try discriminate H. now elim Hd. }
  destruct Hd as (-> & Hm & ->).
  rewrite <- Hline at 2.
  destruct (rstrip_app_keep (takewhile isspace line) (c :: " "%char :: rest)) as [-> Hne].
  { cbn [forallb]. now rewrite (ismarker_not_space c Hm). }
  rewrite length_app. destruct (rstrip _); [contradiction|]. cbn. lia.
Qed.

Lemma inlines_ok_forallb n l : inlines_ok n l -> forallb (inline_ok n) l = true.
Proof. intros H. apply forallb_forall. now apply Forall_forall. Qed.

Lemma bullet_item_good lines i g1 m text :
  i < length lines ->
  BULLET_RE (nth i lines []) = Some (g1, m, text) ->
  item_good (length lines) i (fst (bullet_item lines i g1 m text)).
Proof.
  intros Hlt Hb. unfold bullet_item.
  pose proof (continuation_loop_cursor (length g1 + 2) (skipn (i + 1) lines) [] (i + 1)) as H.
  rewrite length_skipn in H.
  destruct (continuation_loop _ _ _ _) as [cont la]. cbn [fst snd] in *.
  unfold item_good, item_ok. cbn [i_loc inline].
  split; [|cbn; lia].
  apply andb_true_iff. split.
  - apply loc_ok_intro; [|lia].
    destruct (Nat.eq_dec la (i + 1)) as [->|Hne]; [|left; lia].
    right. split; [lia|]. replace (i + 1 - 1) with i by lia.
    pose proof (bullet_indent _ _ _ _ Hb). lia.
  - apply inlines_ok_forallb. apply parse_inline_ok. lia.
Qed.

Lemma bullet_loop_good lines i0 i items :
  i0 <= i -> Forall (item_good (length lines) i0) items ->
  Forall (item_good (length lines) i0) (fst (bullet_loop lines i items)).
Proof.
  funelim (bullet_loop lines i items); intros Hi Hitems; cbn [fst]; auto.
  match goal with
  | IH : forall _, _ <= _ -> _ |- _ => apply IH
  end.
  - match goal with
    | Hl : ?i < length lines |- context [bullet_item lines ?i ?g ?m ?t] =>
        pose proof (bullet_item_cursor lines i g m t Hl)
    end. lia.
  - apply Forall_app. split; [exact Hitems|]. constructor; [|constructor].
    match goal with
    | Hl : ?i < length lines, Hb : BULLET_RE _ = Some _ |- _ =>
        pose proof (bullet_item_good lines i _ _ _ Hl Hb) as Hg
    end.
    destruct Hg as (H1 & H2 & H3). repeat split; auto; lia.
Qed.

Lemma top_In {A} (l : list A) x : top l = Some x -> In x l.
Proof.
  unfold top. intros H. apply in_rev. destruct (rev l); [discriminate|].
  injection H as ->. now left.
Qed.

Lemma bullet_block_effect lines st :
  idx st < length lines ->
  exists st1 b,
    bullet_block lines st = add_block st1 b
    /\ root st1 = root st /\ heap st1 = heap st
    /\ section_stack st1 = section_stack st /\ diags st1 = diags st
    /\ block_ok (length lines) b = true.
Proof.
  intros Hlt. unfold bullet_block.
  pose proof (bullet_loop_good lines (idx st) (idx st) [] (le_n _) (Forall_nil _)) as Hgood.
  pose proof (bullet_loop_cursor lines (idx st) []) as Hcur.
  destruct (bullet_loop lines (idx st) []) as [items i']. cbn [fst snd] in *.
  eexists _, _. split; [reflexivity|]. repeat split.
  cbn [block_ok]. apply andb_true_iff. split.
  - destruct (top items) as [it|] eqn:Htop.
    + apply top_In in Htop.
      destruct (proj1 (Forall_forall _ _) Hgood it Htop) as (Hok & Hline & Hcol).
      unfold item_ok in Hok. apply andb_true_iff in Hok. destruct Hok as [Hok _].
      unfold loc_ok in Hok. apply andb_true_iff in Hok. destruct Hok as [_ Hok].
      apply Nat.leb_le in Hok. apply loc_ok_col1; lia.
    + apply loc_ok_col1; lia.
  - apply forallb_forall. intros it Hin.
    now destruct (proj1 (Forall_forall _ _) Hgood it Hin).
Qed.

Lemma paragraph_loop_entries rest para i :
  exists new,
    fst (paragraph_loop rest para i) = para ++ new
    /\ Forall (fun e => i <= fst e < snd (paragraph_loop rest para i)) new
    /\ match new with e :: _ => fst e = i | [] => True end.
Proof.
  revert para i; induction rest as [|l rest IH]; intros para i; cbn [paragraph_loop].
  - exists []. now rewrite app_nil_r.
  - destruct (isblank l); [exists []; now rewrite app_nil_r|].
    destruct (ends_paragraph l); [exists []; now rewrite app_nil_r|].
    destruct (IH (para ++ [(i, l)]) (i + 1)) as (new & Hnew & Hall & _).
    pose proof (paragraph_loop_cursor rest (para ++ [(i, l)]) (i + 1)) as Hcur.
    exists ((i, l) :: new). split; [now rewrite Hnew, <- app_assoc|]. split; [|reflexivity].
    constructor; [cbn; lia|].
    eapply Forall_impl; [|exact Hall]. cbn. intros e He. lia.
Qed.

Lemma paragraph_block_effect lines st :
  idx st < length lines ->
  (exists i, paragraph_block lines st = set_idx st i)
  \/ exists st1 b,
       paragraph_block lines st = add_block st1 b
       /\ root st1 = root st /\ heap st1 = heap st
       /\ section_stack st1 = section_stack st /\ diags st1 = diags st
       /\ block_ok (length lines) b = true.
Proof.
  intros Hlt. unfold paragraph_block.
  destruct (paragraph_loop_entries (skipn (idx st) lines) [] (idx st)) as (new & Hnew & Hall & Hhd).
  pose proof (paragraph_loop_cursor (skipn (idx st) lines) [] (idx st)) as Hcur.
  rewrite length_skipn in Hcur.
  destruct (paragraph_loop _ _ _) as [para i']. cbn [fst snd app] in *. subst para.
  destruct new as [|first new]; [left; eauto|].
  destruct (top (first :: new)) as [last_pl|] eqn:Htop; [|left; eauto].
  right. eexists _, _. split; [reflexivity|]. repeat split.
  apply top_In in Htop.
  pose proof (proj1 (Forall_forall _ _) Hall last_pl Htop) as Hlast. cbn beta in Hlast.
  cbn [block_ok]. apply andb_true_iff. split.
  - apply loc_ok_col1; lia.
  - apply inlines_ok_forallb. apply parse_inline_ok. lia.
Qed.

Lemma table_rows_ok n start_line i rows :
  start_line + i + length rows <= n + 1 ->
  forallb (row_ok n) (table_rows start_line i rows) = true.
Proof.
  revert i; induction rows as [|r rows IH]; intros i H; cbn [table_rows forallb];
    [reflexivity|].
  cbn [length] in H. apply andb_true_iff. split.
  - unfold row_ok, table_row. cbn [r_loc]. apply loc_ok_line; lia.
  - apply IH. lia.
Qed.

Lemma table_block_effect lines st :
  idx st < length lines -> TABLE_RE (nth (idx st) lines []) = true ->
  exists st1 b,
    table_block lines st = add_block st1 b
    /\ root st1 = root st /\ heap st1 = heap st
    /\ section_stack st1 = section_stack st
    /\ (exists ds, diags st1 = diags st ++ ds)
    /\ block_ok (length lines) b = true.
Proof.
  intros Hlt Htable. unfold table_block.
  rewrite (skipn_nth lines (idx st) []) by assumption.
  pose proof (table_loop_first _ (skipn (S (idx st)) lines) (idx st) Htable) as H1.
  pose proof (table_loop_cursor (nth (idx st) lines [] :: skipn (S (idx st)) lines) []
                (idx st)) as H2.
  cbn [length] in H2. rewrite length_skipn in H2.
  destruct (table_loop _ _ _) as [rows i']. cbn [fst snd] in *.
  rewrite parse_table_eq.
  eexists _, _. split; [reflexivity|]. repeat split; [cbn; eauto|].
  assert (Hrows : forallb (row_ok (length lines)) (table_rows (idx st + 1) 0 rows) = true)
    by (apply table_rows_ok; lia).
  destruct rows as [|r rows]; [cbn in *; lia|].
  cbn [block_ok nonempty]. rewrite !andb_true_iff. repeat split.
  - cbn [length] in *. apply loc_ok_col1; lia.
  - cbn [table_rows forallb] in Hrows. now apply andb_true_iff in Hrows.
  - cbn [table_rows] in *. destruct rows as [|r2 rows]; [reflexivity|].
    cbn [table_rows forallb nth_error] in *. rewrite !andb_true_iff in Hrows. tauto.
  - cbn [table_rows] in *. destruct rows as [|r2 rows]; [reflexivity|].
    cbn [table_rows forallb skipn] in *. rewrite !andb_true_iff in Hrows. tauto.
Qed.

Lemma fence_block_effect lines st g1 g2 :
  idx st < length lines ->
  exists st1 b,
    fence_block lines st g1 g2 = add_block st1 b
    /\ root st1 = root st /\ heap st1 = heap st
    /\ section_stack st1 = section_stack st
    /\ (exists ds, diags st1 = diags st ++ ds)
    /\ block_ok (length lines) b = true.
Proof.
  intros Hlt. unfold fence_block.
  pose proof (fence_loop_cursor (length g1) (skipn (idx st + 1) lines) [] (idx st + 1)) as H.
  rewrite length_skipn in H.
  destruct (fence_loop _ _ _ _) as [[[content closed] ct] i']. cbn [length] in H.
  eexists _, _. split; [reflexivity|]. repeat split.
  - cbn. destruct closed; [exists []; now rewrite app_nil_r|eauto].
  - cbn [block_ok]. apply loc_ok_col1; [lia|destruct closed; lia|].
    destruct (nonempty ct); [lia|]. destruct (nonempty content); lia.
Qed.

(** *** What one turn of the body loop does to the store

    A turn leaves the store alone, appends a finished block to the
    document's body, adds a finished block through [add_block], or places
    a fresh section; its diagnostics are appended to those it found. *)

Lemma same_store_fields st st1 :
  root st1 = root st -> heap st1 = heap st -> section_stack st1 = section_stack st ->
  (exists ds, diags st1 = diags st ++ ds) -> same_store st st1.
Proof. now repeat split. Qed.

Lemma same_store_trans st st1 st2 :
  same_store st st1 -> same_store st1 st2 -> same_store st st2.
Proof.
  intros (R1 & H1 & S1 & ds1 & D1) (R2 & H2 & S2 & ds2 & D2).
  repeat split; try congruence. exists (ds1 ++ ds2). now rewrite D2, D1, app_assoc.
Qed.

Lemma strip_illegal_loop_diags line line_no d in_code i rest :
  exists ds, snd (strip_illegal_loop line line_no d in_code i rest) = d ++ ds.
Proof.
  revert in_code i; induction rest as [|c rest IH]; intros in_code i; cbn [strip_illegal_loop].
  - exists []. now rewrite app_nil_r.
  - destruct (ch_eqb c "`"); [apply IH|].
    destruct (_ && _); [cbn; eauto|apply IH].
Qed.

Lemma strip_illegal_diags line line_no d :
  exists ds, snd (strip_illegal_inline_comment line line_no d) = d ++ ds.
Proof. apply strip_illegal_loop_diags. Qed.

Lemma section_block_effect n st line :
  idx st < n ->
  match section_block st line with
  | inl st' =>
      exists st1 sec ln i,
        st' = set_idx (place_section st1 sec ln) i
        /\ same_store st st1 /\ good_section n sec
  | inr d1 => exists ds, d1 = diags st ++ ds
  end.
Proof.
  intros Hlt. unfold section_block.
  destruct (SECTION_RE (strip_inline_comment_for_detection line));
    [|exists []; now rewrite app_nil_r].
  destruct (strip_illegal_diags line (idx st + 1) (diags st)) as [ds Hds].
  destruct (strip_illegal_inline_comment _ _ _) as [cl d1]. cbn [snd] in Hds. subst d1.
  destruct (SECTION_RE cl) as [[[g1 t] d]|]; [|eauto].
  eexists _, _, _, _. split; [reflexivity|]. split.
  - apply same_store_fields; cbn; eauto.
  - split; [|reflexivity]. cbn [s_loc]. apply loc_ok_line; lia.
Qed.

Lemma body_step_effect lines st :
  idx st < length lines ->
  step_effect (good_block (length lines)) (good_section (length lines))
              st (body_step lines st).
Proof.
  intros Hlt. unfold body_step.
  destruct (isblank _).
  { apply (eff_root _ _ st
             {| idx := idx st + 1; diags := diags st; root := root st; heap := heap st;
                section_stack := section_stack st |}).
    - apply same_store_fields; cbn; auto. exists []. now rewrite app_nil_r.
    - unfold good_block. cbn [block_ok]. apply loc_ok_line; lia. }
  destruct (FENCE_RE _) as [[g1 g2]|].
  { destruct (fence_block_effect lines st g1 g2 Hlt) as (st1 & b & -> & R & H & S & D & Hb).
    apply eff_add; [now apply same_store_fields|exact Hb]. }
  destruct (TABLE_RE _) eqn:Htable.
  { destruct (table_block_effect lines st Hlt Htable) as (st1 & b & -> & R & H & S & D & Hb).
    apply eff_add; [now apply same_store_fields|exact Hb]. }
  pose proof (section_block_effect (length lines) st (nth (idx st) lines []) Hlt) as Hsec.
  destruct (section_block st _) as [st'|d1].
  { destruct Hsec as (st1 & sec & ln & i & -> & Hsame & Hsec). now apply eff_section. }
  destruct Hsec as [ds ->].
  assert (Hsame : same_store st (set_diags st (diags st ++ ds)))
    by (apply same_store_fields; cbn; eauto).
  destruct (COMMENT_RE _).
  { unfold comment_block. apply eff_add.
    - eapply same_store_trans; [exact Hsame|]. apply same_store_fields; cbn; auto.
      exists []. now rewrite app_nil_r.
    - unfold good_block. cbn [block_ok idx set_diags]. apply loc_ok_line; lia. }
  destruct (is_bullet _).
  { destruct (bullet_block_effect lines (set_diags st (diags st ++ ds)) Hlt)
      as (st1 & b & -> & R & H & S & D & Hb).
    apply eff_add; [|exact Hb].
    eapply same_store_trans; [exact Hsame|]. apply same_store_fields; auto.
    exists []. now rewrite app_nil_r. }
  destruct (paragraph_block_effect lines (set_diags st (diags st ++ ds)) Hlt)
    as [[i ->]|(st1 & b & -> & R & H & S & D & Hb)].
  - apply eff_none. eapply same_store_trans; [exact Hsame|].
    apply same_store_fields; cbn; auto. exists []. now rewrite app_nil_r.
  - apply eff_add; [|exact Hb].
    eapply same_store_trans; [exact Hsame|]. apply same_store_fields; auto.
    exists []. now rewrite app_nil_r.
Qed.

(** An invariant of the turns of the body loop holds when the loop ends. *)
Lemma body_loop_invariant lines (I : PState -> Prop) :
  (forall st, idx st < length lines -> I st -> I (body_step lines st)) ->
  forall st, I st -> I (body_loop lines st).
Proof.
  intros Hstep st. funelim (body_loop lines st); intros HI; [exact HI|].
  match goal with IH : forall _ : PState -> Prop, _ |- _ => apply IH end; auto.
Qed.

(** *** The invariant in the store and in the tree read back from it *)

Lemma heap_append_ok n h a e :
  Forall (section_ok n) h -> entry_ok n e -> Forall (section_ok n) (heap_append h a e).
Proof.
  intros Hh He. revert a; induction Hh as [|o h Ho Hh IH]; intros a; cbn [heap_append];
    [constructor|].
  destruct a as [|a]; constructor; auto.
  destruct Ho as [Hl Hb]. split; [exact Hl|]. cbn [s_body].
  apply Forall_app. split; [exact Hb|now constructor].
Qed.

Lemma append_to_ok n st target e :
  store_ok n st -> entry_ok n e -> store_ok n (append_to st target e).
Proof.
  intros [Hr Hh] He. destruct target as [a|]; split; cbn; auto.
  - now apply heap_append_ok.
  - apply Forall_app. split; [exact Hr|now constructor].
Qed.

Lemma place_section_ok n st sec ln :
  store_ok n st -> good_section n sec -> store_ok n (place_section st sec ln).
Proof.
  intros [Hr Hh] [Hl Hb]. unfold place_section.
  match goal with
  | |- store_ok n {| idx := _; diags := _; root := root ?s; heap := heap ?s;
                     section_stack := _ |} =>
      assert (H : store_ok n s); [|exact H]
  end.
  apply append_to_ok; [|exact I]. split; cbn; [exact Hr|].
  apply Forall_app. split; [exact Hh|]. constructor; [|constructor].
  split; [exact Hl|]. rewrite Hb. constructor.
Qed.

Lemma store_ok_same n st st1 : same_store st st1 -> store_ok n st -> store_ok n st1.
Proof. intros (R & H & _) [Hr Hh]. split; congruence. Qed.

Lemma step_effect_ok n st st' :
  step_effect (good_block n) (good_section n) st st' -> store_ok n st -> store_ok n st'.
Proof.
  intros Heff Hok. destruct Heff as [st1 Hs|st1 b Hs Hb|st1 b Hs Hb|st1 sec ln i Hs Hsec].
  - eapply store_ok_same; eauto.
  - apply append_to_ok; [eapply store_ok_same; eauto|exact Hb].
  - apply append_to_ok; [eapply store_ok_same; eauto|exact Hb].
  - assert (H : store_ok n (place_section st1 sec ln))
      by (apply place_section_ok; [eapply store_ok_same; eauto|exact Hsec]).
    exact H.
Qed.

Lemma resolve_entries_ok n base later es :
  Forall (good_block n) later -> Forall (entry_ok n) es ->
  Forall (good_block n) (flat_map (resolve_entry base later) es).
Proof.
  intros Hl Hes. induction Hes as [|e es He _ IH]; cbn [flat_map]; [constructor|].
  apply Forall_app. split; [|exact IH].
  destruct e as [b|a]; cbn [resolve_entry]; [now constructor|].
  destruct (base <=? a); [|constructor].
  destruct (nth_error later (a - base)) as [b|] eqn:E; [|constructor].
  constructor; [|constructor].
  exact (proj1 (Forall_forall _ _) Hl b (nth_error_In _ _ E)).
Qed.

Lemma good_blocks_forallb n l : Forall (good_block n) l -> forallb (block_ok n) l = true.
Proof. intros H. apply forallb_forall. now apply Forall_forall. Qed.

Lemma resolve_heap_ok n h base :
  Forall (section_ok n) h -> Forall (good_block n) (resolve_heap h base).
Proof.
  intros Hh. revert base; induction Hh as [|o h [Hl Hb] _ IH]; intros base;
    cbn [resolve_heap]; [constructor|].
  constructor; [|apply IH].
  unfold good_block. cbn [block_ok]. rewrite Hl. cbn [andb].
  apply good_blocks_forallb. apply resolve_entries_ok; [apply IH|exact Hb].
Qed.

Lemma resolve_body_ok n st :
  store_ok n st -> forallb (block_ok n) (resolve_body (heap st) (root st)) = true.
Proof.
  intros [Hr Hh]. apply good_blocks_forallb.
  apply resolve_entries_ok; [now apply resolve_heap_ok|exact Hr].
Qed.

(** *** The header and the metadata *)

Lemma first_non_blank_bounds rest i k :
  first_non_blank_from rest i = Some k -> i <= k < i + length rest.
Proof.
  revert i; induction rest as [|l rest IH]; intros i; cbn [first_non_blank_from];
    [discriminate|].
  destruct (isblank l).
  - intros H. apply IH in H. cbn. lia.
  - intros [= <-]. cbn. lia.
Qed.

Lemma metadata_loop_ok n rest i metadata d :
  i + length rest <= n ->
  Forall (fun m => loc_ok n (m_loc m) = true) metadata ->
  Forall (fun m => loc_ok n (m_loc m) = true) (fst (fst (metadata_loop rest i metadata d))).
Proof.
  revert i metadata d; induction rest as [|l rest IH]; intros i metadata d Hn Hm;
    cbn [metadata_loop]; [exact Hm|].
  cbn [length] in Hn.
  destruct (isblank l); [exact Hm|].
  destruct (METADATA_RE l); [|exact Hm].
  destruct (strip_illegal_inline_comment _ _ _) as [cl d1].
  destruct (METADATA_RE cl) as [[g1 g2]|]; [|exact Hm].
  apply IH; [lia|]. apply Forall_app. split; [exact Hm|].
  constructor; [|constructor]. cbn [m_loc]. apply loc_ok_line; lia.
Qed.

Lemma parse_prologue_ok lines h m st0 :
  parse_prologue lines = Some (h, m, st0) ->
  match h with Some hd => loc_ok (length lines) (h_loc hd) = true | None => True end
  /\ forallb (fun e => loc_ok (length lines) (m_loc e)) m = true
  /\ store_ok (length lines) st0.
Proof.
  unfold parse_prologue.
  destruct (first_non_blank_from lines 0) as [k|] eqn:Hk; [|discriminate].
  apply first_non_blank_bounds in Hk.
  destruct (strip_illegal_inline_comment _ _ _) as [hl d0].
  destruct (parse_header hl (k + 1) d0) as [hd d1] eqn:Hh.
  pose proof (metadata_loop_ok (length lines) (skipn (k + 1) lines) (k + 1) [] d1) as Hm.
  rewrite length_skipn in Hm.
  destruct (metadata_loop _ _ _ _) as [[md i1] d2]. cbn [fst] in Hm.
  intros [= <- <- <-]. split; [|split].
  - unfold parse_header in Hh. destruct (HEADER_RE hl) as [[g1 g2]|].
    + injection Hh as <- _. cbn [h_loc]. apply loc_ok_line; lia.
    + injection Hh as <- _. exact I.
  - apply forallb_forall. apply Forall_forall. apply Hm; [lia|constructor].
  - split; constructor.
Qed.

(** C8. In the document parsed from any input, the location of every
    node (header, metadata entries, blocks at any depth, table rows,
    bullet items and inline nodes) has its start before or at its end in
    the order on (line, column), and its end line is at most the number
    of input lines. *)
Theorem C8_location_invariant (lines : list str) :
  document_ok (length lines) (parse_document lines) = true.
Proof.
  unfold parse_document.
  destruct (parse_prologue lines) as [[[h m] st0]|] eqn:Hp; [|reflexivity].
  destruct (parse_prologue_ok lines h m st0 Hp) as (Hh & Hm & Hst).
  unfold document_ok. cbn [header metadata body].
  rewrite Hm. rewrite resolve_body_ok.
  - destruct h; [rewrite Hh|]; reflexivity.
  - apply body_loop_invariant; [|exact Hst].
    intros st Hlt Hok. eapply step_effect_ok; [|exact Hok].
    now apply body_step_effect.
Qed.

(* ===================================================================== *)
(** ** The states of the body loop and the finished document *)
(* ===================================================================== *)

Lemma body_loop_test lines st :
  body_loop lines st
  = if idx st <? length lines then body_loop lines (body_step lines st) else st.
Proof.
  funelim (body_loop lines st).
  - replace (idx st <? length lines) with false; [reflexivity|].
    symmetry. apply Nat.ltb_ge. assumption.
  - replace (idx st <? length lines) with true; [reflexivity|].
    symmetry. apply Nat.ltb_lt. assumption.
Qed.

Lemma body_loop_next lines st :
  idx st < length lines -> body_loop lines st = body_loop lines (body_step lines st).
Proof.
  intros H. rewrite body_loop_test at 1. apply Nat.ltb_lt in H. now rewrite H.
Qed.

Lemma body_loop_end lines st : length lines <= idx st -> body_loop lines st = st.
Proof.
  intros H. rewrite body_loop_test. apply Nat.ltb_ge in H. now rewrite H.
Qed.

(** Every state of the loop leads to the state in which it ends. *)
Lemma reach_final lines st :
  reach lines st ->
  exists h m st0,
    parse_prologue lines = Some (h, m, st0)
    /\ body_loop lines st0 = body_loop lines st.
Proof.
  induction 1 as [h m st0 Hp|st _ (h & m & st0 & Hp & IH) Hlt].
  - eauto.
  - exists h, m, st0. split; [exact Hp|]. rewrite IH. now apply body_loop_next.
Qed.

Lemma subblock_trans a b c : subblock a b -> subblock b c -> subblock a c.
Proof.
  intros Hab Hbc. induction Hbc as [|n ti d lv body loc t Hin _ IH]; [exact Hab|].
  eapply sub_section; eauto.
Qed.

(** *** The shape of the store *)

Lemma length_heap_append h a e : length (heap_append h a e) = length h.
Proof.
  revert a; induction h as [|o h IH]; intros [|a]; cbn; auto.
Qed.

Lemma nth_heap_append h a e a' :
  nth_error (heap_append h a e) a'
  = if a' =? a then option_map (fun o => with_entry o e) (nth_error h a')
    else nth_error h a'.
Proof.
  revert a a'; induction h as [|o h IH]; intros a a'.
  - cbn. destruct a'; destruct (_ =? _); reflexivity.
  - destruct a as [|a], a' as [|a']; cbn; try reflexivity. apply IH.
Qed.

(** After an append, the bodies hold what they held, and the new entry
    where the target exists. *)
Lemma nth_heap_append_body h a e a' o' :
  nth_error (heap_append h a e) a' = Some o' ->
  exists o, nth_error h a' = Some o
            /\ (s_body o' = s_body o \/ (a' = a /\ s_body o' = s_body o ++ [e])).
Proof.
  rewrite nth_heap_append. destruct (a' =? a) eqn:E.
  - apply Nat.eqb_eq in E. destruct (nth_error h a') as [o|]; [|discriminate].
    intros [= <-]. exists o. split; [reflexivity|]. right. now split.
  - intros H. exists o'. split; [exact H|]. now left.
Qed.

Lemma nth_heap_append_keeps h a e a' o :
  nth_error h a' = Some o ->
  exists o', nth_error (heap_append h a e) a' = Some o'
             /\ (forall x, In x (s_body o) -> In x (s_body o'))
             /\ (a' = a -> In e (s_body o')).
Proof.
  intros H. rewrite nth_heap_append, H. destruct (a' =? a) eqn:E.
  - eexists. split; [reflexivity|]. cbn. split.
    + intros x Hx. apply in_or_app. now left.
    + intros _. apply in_or_app. right. now left.
  - eexists. split; [reflexivity|]. split; [auto|].
    intros ->. rewrite Nat.eqb_refl in E. discriminate.
Qed.

Lemma pop_loop_incl h len rs a : In a (pop_loop h len rs) -> In a rs.
Proof.
  induction rs as [|x rs IH]; cbn; [auto|].
  destruct (_ <=? _); auto.
Qed.

Lemma find_parent_In h pn rs p : find_parent h pn rs = Some p -> In p rs.
Proof.
  induction rs as [|x rs IH]; cbn; [discriminate|].
  destruct (number_eqb _ _); [intros [= ->]; now left|auto].
Qed.

Lemma store_wf_same st st1 :
  root st1 = root st -> heap st1 = heap st -> section_stack st1 = section_stack st ->
  store_wf st -> store_wf st1.
Proof. unfold store_wf. intros -> -> ->. auto. Qed.

Lemma append_leaf_wf st target b :
  store_wf st -> store_wf (append_to st target (Leaf b)).
Proof.
  intros (H1 & H2 & H3). destruct target as [t|]; unfold store_wf; cbn.
  - rewrite length_heap_append. split; [|split; [|exact H3]].
    + intros a o r Ha Hr. apply nth_heap_append_body in Ha.
      destruct Ha as (o0 & Ho0 & [Hb|[_ Hb]]); rewrite Hb in Hr.
      * eapply H1; eauto.
      * apply in_app_or in Hr. destruct Hr as [Hr|[Hr|[]]]; [|discriminate].
        eapply H1; eauto.
    + intros a Ha. destruct (H2 a Ha) as [Hr|(a' & o' & Hlt & Ho' & Hin)]; [now left|].
      right. destruct (nth_heap_append_keeps _ t (Leaf b) _ _ Ho') as (o2 & Ho2 & Hk & _).
      exists a', o2. auto.
  - split; [exact H1|split; [|exact H3]].
    intros a Ha. destruct (H2 a Ha) as [Hr|Hr]; [|now right].
    left. apply in_or_app. now left.
Qed.

Lemma nth_error_snoc {A} (l : list A) x i y :
  nth_error (l ++ [x]) i = Some y ->
  (i < length l /\ nth_error l i = Some y) \/ (i = length l /\ y = x).
Proof.
  intros H. destruct (le_lt_dec (length l) i) as [Hge|Hlt].
  - right. rewrite nth_error_app2 in H by exact Hge.
    destruct (i - length l) as [|k] eqn:E; cbn in H.
    + injection H as <-. split; [lia|reflexivity].
    + destruct k; discriminate.
  - left. rewrite nth_error_app1 in H by exact Hlt. auto.
Qed.

Lemma place_section_wf st sec ln :
  store_wf st -> s_body sec = [] -> store_wf (place_section st sec ln).
Proof.
  intros (H1 & H2 & H3) Hbody. unfold place_section.
  set (stack := rev (pop_loop (heap st) (length (s_number sec)) (rev (section_stack st)))).
  set (parent := if nonempty (removelast (s_number sec))
                 then find_parent (heap st) (removelast (s_number sec)) (rev stack)
                 else None).
  assert (Hstack : forall a, In a stack -> a < length (heap st)).
  { intros a Ha. apply H3. unfold stack in Ha. apply in_rev in Ha.
    apply pop_loop_incl in Ha. now apply in_rev. }
  assert (Hparent : forall p, parent = Some p -> p < length (heap st)).
  { intros p Hp. apply Hstack. unfold parent in Hp.
    destruct (nonempty _); [|discriminate]. apply find_parent_In in Hp. now apply in_rev. }
  assert (Hsnoc : forall a o r,
             nth_error (heap st ++ [sec]) a = Some o -> In (Ref r) (s_body o) ->
             a < r < length (heap st)).
  { intros a o r Ha Hr. apply nth_error_snoc in Ha. destruct Ha as [[_ Ha]|[_ ->]].
    - eapply H1; eauto.
    - rewrite Hbody in Hr. destruct Hr. }
  destruct parent as [p|] eqn:Ep; unfold store_wf; cbn -[nth_error].
  - specialize (Hparent p eq_refl).
    rewrite length_heap_append, length_app. cbn [length]. split; [|split].
    + intros a o r Ha Hr. apply nth_heap_append_body in Ha.
      destruct Ha as (o0 & Ho0 & [Hb|[-> Hb]]); rewrite Hb in Hr.
      * specialize (Hsnoc _ _ _ Ho0 Hr). lia.
      * apply in_app_or in Hr. destruct Hr as [Hr|[Hr|[]]].
        -- specialize (Hsnoc _ _ _ Ho0 Hr). lia.
        -- injection Hr as <-. lia.
    + intros a Ha. destruct (Nat.eq_dec a (length (heap st))) as [->|Hne].
      * right. destruct (nth_error (heap st) p) as [op|] eqn:Eop;
          [|apply nth_error_None in Eop; lia].
        assert (Hop : nth_error (heap st ++ [sec]) p = Some op)
          by (rewrite nth_error_app1 by lia; exact Eop).
        destruct (nth_heap_append_keeps _ p (Ref (length (heap st))) _ _ Hop)
          as (o2 & Ho2 & _ & Hk).
        exists p, o2. auto.
      * destruct (H2 a ltac:(lia)) as [Hr|(a' & o' & Hlt & Ho' & Hin)]; [now left|].
        right.
        assert (Hop : nth_error (heap st ++ [sec]) a' = Some o')
          by (rewrite nth_error_app1 by (apply nth_error_Some; congruence); exact Ho').
        destruct (nth_heap_append_keeps _ p (Ref (length (heap st))) _ _ Hop)
          as (o2 & Ho2 & Hk & _).
        exists a', o2. auto.
    + intros a Ha. apply in_app_or in Ha. destruct Ha as [Ha|[<-|[]]]; [|lia].
      specialize (Hstack a Ha). lia.
  - rewrite length_app. cbn [length]. split; [|split].
    + intros a o r Ha Hr. specialize (Hsnoc _ _ _ Ha Hr). lia.
    + intros a Ha. destruct (Nat.eq_dec a (length (heap st))) as [->|Hne].
      * left. apply in_or_app. right. now left.
      * destruct (H2 a ltac:(lia)) as [Hr|(a' & o' & Hlt & Ho' & Hin)].
        -- left. apply in_or_app. now left.
        -- right. exists a', o'. repeat split; auto.
           rewrite nth_error_app1 by (apply nth_error_Some; congruence). exact Ho'.
    + intros a Ha. apply in_app_or in Ha. destruct Ha as [Ha|[<-|[]]]; [|lia].
      specialize (Hstack a Ha). lia.
Qed.

Lemma step_effect_wf P st st' :
  step_effect P (fun s => s_body s = []) st st' -> store_wf st -> store_wf st'.
Proof.
  intros Heff Hwf.
  destruct Heff as [st1 Hs|st1 b Hs _|st1 b Hs _|st1 sec ln i Hs Hsec];
    destruct Hs as (R & H & S & _);
    pose proof (store_wf_same st st1 R H S Hwf) as Hwf1.
  - exact Hwf1.
  - now apply append_leaf_wf.
  - now apply append_leaf_wf.
  - assert (Hp : store_wf (place_section st1 sec ln)) by now apply place_section_wf.
    exact Hp.
Qed.

Lemma append_to_keeps st target e x : in_store x st -> in_store x (append_to st target e).
Proof.
  intros [Hr|(a & o & Ho & Hin)]; destruct target as [t|]; unfold in_store; cbn.
  - now left.
  - left. apply in_or_app. now left.
  - right. destruct (nth_heap_append_keeps _ t e _ _ Ho) as (o2 & Ho2 & Hk & _).
    exists a, o2. auto.
  - right. eauto.
Qed.

Lemma place_section_keeps st sec ln x :
  in_store x st -> in_store x (place_section st sec ln).
Proof.
  intros Hx. unfold place_section.
  match goal with
  | |- in_store x {| idx := _; diags := _; root := root ?s; heap := heap ?s;
                     section_stack := _ |} =>
      assert (H : in_store x s); [|exact H]
  end.
  apply append_to_keeps. destruct Hx as [Hr|(a & o & Ho & Hin)]; [now left|].
  right. exists a, o. split; [|exact Hin]. cbn.
  rewrite nth_error_app1 by (apply nth_error_Some; congruence). exact Ho.
Qed.

Lemma in_store_same st st1 x :
  root st1 = root st -> heap st1 = heap st -> in_store x st -> in_store x st1.
Proof. unfold in_store. intros -> ->. auto. Qed.

Lemma step_effect_keeps P Q st st' x :
  step_effect P Q st st' -> in_store x st -> in_store x st'.
Proof.
  intros Heff Hx.
  destruct Heff as [st1 Hs|st1 b Hs _|st1 b Hs _|st1 sec ln i Hs _];
    destruct Hs as (R & H & _);
    pose proof (in_store_same st st1 x R H Hx) as Hx1.
  - exact Hx1.
  - now apply append_to_keeps.
  - now apply append_to_keeps.
  - assert (Hp : in_store x (place_section st1 sec ln)) by now apply place_section_keeps.
    exact Hp.
Qed.

Lemma diags_append_to st target e : diags (append_to st target e) = diags st.
Proof. destruct target; reflexivity. Qed.

Lemma diags_place_section st sec ln :
  exists ds, diags (place_section st sec ln) = diags st ++ ds.
Proof.
  unfold place_section. cbn [diags]. rewrite diags_append_to. cbn [diags].
  destruct (nonempty _); [|exists []; now rewrite app_nil_r].
  destruct (find_parent _ _ _); [exists []; now rewrite app_nil_r|eauto].
Qed.

Lemma step_effect_diags P Q st st' :
  step_effect P Q st st' -> exists ds, diags st' = diags st ++ ds.
Proof.
  intros Heff.
  destruct Heff as [st1 Hs|st1 b Hs _|st1 b Hs _|st1 sec ln i Hs _];
    destruct Hs as (_ & _ & _ & ds & Hd).
  - eauto.
  - rewrite diags_append_to. eauto.
  - unfold add_block. rewrite diags_append_to. eauto.
  - destruct (diags_place_section st1 sec ln) as [ds' Hd'].
    exists (ds ++ ds'). cbn [diags set_idx]. now rewrite Hd', Hd, app_assoc.
Qed.

Lemma step_effect_weaken (P P' : Block -> Prop) (Q Q' : SectionObj -> Prop) st st' :
  (forall b, P b -> P' b) -> (forall s, Q s -> Q' s) ->
  step_effect P Q st st' -> step_effect P' Q' st st'.
Proof.
  intros HP HQ Heff.
  destruct Heff; [apply eff_none|apply eff_root|apply eff_add|apply eff_section]; auto.
Qed.

Lemma body_step_shape lines st :
  idx st < length lines ->
  step_effect (fun _ => True) (fun s => s_body s = []) st (body_step lines st).
Proof.
  intros Hlt. eapply step_effect_weaken; [| |now apply body_step_effect].
  - auto.
  - now intros s [_ Hb].
Qed.

Lemma reach_wf lines st : reach lines st -> store_wf st.
Proof.
  induction 1 as [h m st0 Hp|st _ IH Hlt].
  - unfold parse_prologue in Hp.
    destruct (first_non_blank_from lines 0); [|discriminate].
    destruct (strip_illegal_inline_comment _ _ _) as [hl d0].
    destruct (parse_header _ _ _) as [hd d1].
    destruct (metadata_loop _ _ _ _) as [[md i1] d2].
    injection Hp as _ _ <-. unfold store_wf. cbn [heap root section_stack]. split; [|split].
    + intros [|a] ? ? Ha; discriminate.
    + cbn. intros a Ha. lia.
    + intros a [].
  - eapply step_effect_wf; [|exact IH]. now apply body_step_shape.
Qed.

(** The loop keeps the shape of the store, the entries and the
    diagnostics that it finds. *)
Lemma body_loop_keeps lines st x :
  store_wf st -> in_store x st ->
  store_wf (body_loop lines st) /\ in_store x (body_loop lines st)
  /\ exists ds, diags (body_loop lines st) = diags st ++ ds.
Proof.
  intros Hwf Hx.
  apply (body_loop_invariant lines
           (fun s => store_wf s /\ in_store x s /\ exists ds, diags s = diags st ++ ds)).
  - intros s Hlt (Hw & Hi & ds & Hd). pose proof (body_step_shape lines s Hlt) as Heff.
    split; [eapply step_effect_wf; eauto|]. split; [eapply step_effect_keeps; eauto|].
    destruct (step_effect_diags _ _ _ _ Heff) as [ds' Hd'].
    exists (ds ++ ds'). now rewrite Hd', Hd, app_assoc.
  - split; [exact Hwf|]. split; [exact Hx|]. exists []. now rewrite app_nil_r.
Qed.

(** *** Reading the store back *)

Lemma resolve_heap_nth h base i o :
  nth_error h i = Some o ->
  nth_error (resolve_heap h base) i
  = Some (Section (s_number o) (s_title o) (s_description o) (s_level o)
            (flat_map (resolve_entry (S (base + i))
                         (skipn (S i) (resolve_heap h base)))
                      (s_body o))
            (s_loc o)).
Proof.
  revert base i; induction h as [|x h IH]; intros base [|i]; cbn [nth_error resolve_heap skipn];
    try discriminate.
  - intros [= ->]. now rewrite Nat.add_0_r.
  - intros H. rewrite (IH (S base) i H).
    replace (base + S i) with (S base + i) by lia. reflexivity.
Qed.

Lemma resolve_ref_later base later r t :
  base <= r -> nth_error later (r - base) = Some t ->
  resolve_entry base later (Ref r) = [t].
Proof.
  intros Hle H. cbn [resolve_entry]. apply Nat.leb_le in Hle. now rewrite Hle, H.
Qed.

(** An entry of a section's body is resolved to a child of the resolved
    section. *)
Lemma resolved_child h a o e t :
  nth_error h a = Some o -> In e (s_body o) ->
  resolve_entry (S a) (skipn (S a) (resolve_heap h 0)) e = [t] ->
  exists sec, nth_error (resolve_heap h 0) a = Some sec /\ subblock t sec.
Proof.
  intros Ho Hin Hres. rewrite (resolve_heap_nth h 0 a o Ho). eexists. split; [reflexivity|].
  eapply sub_section; [|apply sub_here].
  apply in_flat_map. exists e. split; [exact Hin|]. cbn [Nat.add]. rewrite Hres. now left.
Qed.

Lemma resolved_section_occurs st :
  store_wf st ->
  forall a, a < length (heap st) ->
    exists sec, nth_error (resolve_heap (heap st) 0) a = Some sec
                /\ occurs sec (resolve_body (heap st) (root st)).
Proof.
  intros (H1 & H2 & _) a. induction a as [a IH] using lt_wf_ind. intros Ha.
  destruct (nth_error (heap st) a) as [o|] eqn:Ho; [|apply nth_error_None in Ho; lia].
  pose proof (resolve_heap_nth (heap st) 0 a o Ho) as Hsec.
  match type of Hsec with _ = Some ?s => set (sec := s) in * end.
  exists sec. split; [exact Hsec|].
  destruct (H2 a Ha) as [Hr|(a' & o' & Hlt & Ho' & Hin)].
  - exists sec. split; [|apply sub_here].
    unfold resolve_body. apply in_flat_map. exists (Ref a). split; [exact Hr|].
    rewrite (resolve_ref_later 0 _ a sec (Nat.le_0_l _)); [now left|].
    rewrite Nat.sub_0_r. exact Hsec.
  - destruct (IH a' Hlt ltac:(lia)) as (sec' & Hsec' & t0 & Ht0 & Hsub).
    exists t0. split; [exact Ht0|]. eapply subblock_trans; [|exact Hsub].
    destruct (resolved_child (heap st) a' o' (Ref a) sec Ho' Hin) as (s2 & Hs2 & Hsub2).
    + apply resolve_ref_later; [lia|]. rewrite nth_error_skipn.
      replace (S a' + (a - S a')) with a by lia. exact Hsec.
    + rewrite Hsec' in Hs2. injection Hs2 as <-. exact Hsub2.
Qed.

(** A finished block in the store is a node of the document. *)
Lemma leaf_occurs st b :
  store_wf st -> in_store (Leaf b) st -> occurs b (resolve_body (heap st) (root st)).
Proof.
  intros Hwf [Hr|(a & o & Ho & Hin)].
  - exists b. split; [|apply sub_here].
    unfold resolve_body. apply in_flat_map. exists (Leaf b). split; [exact Hr|now left].
  - assert (Ha : a < length (heap st)) by (apply nth_error_Some; congruence).
    destruct (resolved_section_occurs st Hwf a Ha) as (sec & Hsec & t0 & Ht0 & Hsub).
    exists t0. split; [exact Ht0|]. eapply subblock_trans; [|exact Hsub].
    destruct (resolved_child (heap st) a o (Leaf b) b Ho Hin eq_refl) as (s2 & Hs2 & Hsub2).
    rewrite Hsec in Hs2. injection Hs2 as <-. exact Hsub2.
Qed.

Lemma add_block_in_store st b : store_wf st -> in_store (Leaf b) (add_block st b).
Proof.
  intros (_ & _ & H3). unfold add_block.
  destruct (top (section_stack st)) as [a|] eqn:Htop; unfold in_store; cbn.
  - right. apply top_In in Htop. apply H3 in Htop.
    destruct (nth_error (heap st) a) as [o|] eqn:Ho; [|apply nth_error_None in Ho; lia].
    destruct (nth_heap_append_keeps _ a (Leaf b) _ _ Ho) as (o2 & Ho2 & _ & Hk).
    exists a, o2. auto.
  - left. apply in_or_app. right. now left.
Qed.

(** A block that a turn of the loop adds is a node of the document, and
    the diagnostics present after that turn open the document's list. *)
Lemma added_block_in_document lines st st1 b :
  reach lines st -> idx st < length lines ->
  body_step lines st = add_block st1 b ->
  root st1 = root st -> heap st1 = heap st -> section_stack st1 = section_stack st ->
  occurs b (body (parse_document lines))
  /\ exists ds,
       diagnostics (parse_document lines)
       = if nonempty (diags st1 ++ ds) then Some (diags st1 ++ ds) else None.
Proof.
  intros Hreach Hlt Hstep R H S.
  pose proof (reach_wf lines st Hreach) as Hwf.
  pose proof (store_wf_same st st1 R H S Hwf) as Hwf1.
  destruct (reach_final lines _ (reach_step lines st Hreach Hlt)) as (h & m & st0 & Hp & Hfin).
  unfold parse_document. rewrite Hp, Hfin, Hstep. cbn [body diagnostics].
  destruct (body_loop_keeps lines (add_block st1 b) (Leaf b)) as (Hw & Hin & ds & Hd).
  - rewrite <- Hstep. apply (reach_wf lines). now apply reach_step.
  - now apply add_block_in_store.
  - split; [now apply leaf_occurs|].
    exists ds. rewrite Hd. unfold add_block. now rewrite diags_append_to.
Qed.

(* ===================================================================== *)
(** ** Fences and tables in the document *)
(* ===================================================================== *)

Lemma dropwhile_head {A} (p : A -> bool) (l : list A) c r :
  dropwhile p l = c :: r -> p c = false.
Proof.
  induction l as [|x l IH]; cbn; [discriminate|].
  destruct (p x) eqn:E; [exact IH|]. now intros [= <- _].
Qed.

Lemma not_blank_of_lstrip l c r : dropwhile isspace l = c :: r -> isblank l = false.
Proof.
  intros H. unfold isblank, strip, lstrip. rewrite H.
  destruct (rstrip_app_keep [] (c :: r)) as [Hr Hne].
  - cbn [forallb]. now rewrite (dropwhile_head _ _ _ _ H).
  - cbn [app] in Hr. destruct (rstrip (c :: r)); [contradiction|reflexivity].
Qed.

Lemma FENCE_RE_not_blank l g : FENCE_RE l = Some g -> isblank l = false.
Proof.
  unfold FENCE_RE. destruct (dropwhile isspace l) as [|c r] eqn:E; [discriminate|].
  intros _. eapply not_blank_of_lstrip; eauto.
Qed.

Lemma TABLE_RE_not_blank l : TABLE_RE l = true -> isblank l = false.
Proof.
  unfold TABLE_RE. destruct (dropwhile isspace l) as [|c r] eqn:E; [discriminate|].
  intros _. eapply not_blank_of_lstrip; eauto.
Qed.

Lemma TABLE_RE_not_fence l : TABLE_RE l = true -> FENCE_RE l = None.
Proof.
  unfold TABLE_RE, FENCE_RE. destruct (dropwhile isspace l) as [|c r]; [discriminate|].
  destruct (ascii_dec c "|") as [->|Hc]; [reflexivity|].
  intros H. exfalso. destruct c as [[] [] [] [] [] [] [] []]; try discriminate H. now elim Hc.
Qed.

Lemma table_loop_eq rest rows i :
  table_loop rest rows i
  = (rows ++ takewhile TABLE_RE rest, i + length (takewhile TABLE_RE rest)).
Proof.
  revert rows i; induction rest as [|l rest IH]; intros rows i; cbn [table_loop takewhile].
  - now rewrite app_nil_r, Nat.add_0_r.
  - destruct (TABLE_RE l).
    + rewrite IH, <- app_assoc. cbn [app length]. f_equal. lia.
    + now rewrite app_nil_r, Nat.add_0_r.
Qed.

(** *** Where FENCE_UNTERMINATED comes from *)

Lemma quiet_snoc ds d : Forall quiet ds -> quiet d -> Forall quiet (ds ++ [d]).
Proof. intros H Hd. apply Forall_app. split; [exact H|now constructor]. Qed.

Lemma strip_illegal_loop_quiet line line_no d in_code i rest :
  Forall quiet d -> Forall quiet (snd (strip_illegal_loop line line_no d in_code i rest)).
Proof.
  intros Hd. revert in_code i; induction rest as [|c rest IH]; intros in_code i;
    cbn [strip_illegal_loop]; [exact Hd|].
  destruct (ch_eqb c "`"); [apply IH|].
  destruct (_ && _); [|apply IH]. cbn [snd]. apply quiet_snoc; [exact Hd|discriminate].
Qed.

Lemma strip_illegal_quiet line line_no d :
  Forall quiet d -> Forall quiet (snd (strip_illegal_inline_comment line line_no d)).
Proof. apply strip_illegal_loop_quiet. Qed.

Lemma metadata_loop_quiet rest i md d :
  Forall quiet d -> Forall quiet (snd (metadata_loop rest i md d)).
Proof.
  revert i md d; induction rest as [|l rest IH]; intros i md d Hd; cbn [metadata_loop];
    [exact Hd|].
  destruct (isblank l); [exact Hd|].
  destruct (METADATA_RE l); [|exact Hd].
  pose proof (strip_illegal_quiet l (i + 1) d Hd) as Hq.
  destruct (strip_illegal_inline_comment _ _ _) as [cl d1]. cbn [snd] in Hq.
  destruct (METADATA_RE cl) as [[g1 g2]|]; [|exact Hq].
  now apply IH.
Qed.

Lemma table_diags_quiet start_line i rows : Forall quiet (table_diags start_line i rows).
Proof.
  revert i; induction rows as [|r rows IH]; intros i; cbn [table_diags]; [constructor|].
  apply Forall_app. split; [|apply IH].
  destruct (find fence_marker r); [|constructor]. constructor; [discriminate|constructor].
Qed.

Lemma place_section_quiet st sec ln :
  Forall quiet (diags st) -> Forall quiet (diags (place_section st sec ln)).
Proof.
  intros Hd. unfold place_section. cbn [diags]. rewrite diags_append_to. cbn [diags].
  destruct (nonempty _); [|exact Hd].
  destruct (find_parent _ _ _); [exact Hd|]. apply quiet_snoc; [exact Hd|discriminate].
Qed.

(** A turn of the loop that reports an unterminated fence is the last
    one. *)
Lemma body_step_quiet lines st :
  idx st < length lines -> Forall quiet (diags st) ->
  Forall quiet (diags (body_step lines st)) \/ length lines <= idx (body_step lines st).
Proof.
  intros Hlt Hq. unfold body_step.
  destruct (isblank _); [now left|].
  destruct (FENCE_RE _) as [[g1 g2]|].
  { unfold fence_block. rewrite fence_loop_eq.
    destruct (dropwhile _ _).
    - right. rewrite idx_add_block. cbn [idx set_idx set_diags].
      rewrite length_skipn. lia.
    - left. unfold add_block. rewrite diags_append_to. exact Hq. }
  destruct (TABLE_RE _).
  { left. unfold table_block. destruct (table_loop _ _ _) as [rows i'].
    rewrite parse_table_eq. unfold add_block. rewrite diags_append_to. cbn [diags set_diags].
    apply Forall_app. split; [exact Hq|apply table_diags_quiet]. }
  assert (Hsec : match section_block st (nth (idx st) lines []) with
                 | inl st' => Forall quiet (diags st')
                 | inr d1 => Forall quiet d1
                 end).
  { unfold section_block.
    destruct (SECTION_RE (strip_inline_comment_for_detection _)); [|exact Hq].
    pose proof (strip_illegal_quiet (nth (idx st) lines []) (idx st + 1) (diags st) Hq) as Hs.
    destruct (strip_illegal_inline_comment _ _ _) as [cl d1]. cbn [snd] in Hs.
    destruct (SECTION_RE cl) as [[[n1 t] d]|]; [|exact Hs].
    cbn [diags set_idx]. apply place_section_quiet. exact Hs. }
  destruct (section_block st _) as [st'|d1]; [now left|]. left.
  destruct (COMMENT_RE _).
  { unfold comment_block, add_block. rewrite diags_append_to. exact Hsec. }
  destruct (is_bullet _).
  { destruct (bullet_block_effect lines (set_diags st d1) Hlt)
      as (st1 & b & -> & _ & _ & _ & D & _).
    unfold add_block. rewrite diags_append_to, D. exact Hsec. }
  destruct (paragraph_block_effect lines (set_diags st d1) Hlt)
    as [[i ->]|(st1 & b & -> & _ & _ & _ & D & _)].
  - exact Hsec.
  - unfold add_block. rewrite diags_append_to, D. exact Hsec.
Qed.

Lemma reach_quiet lines st :
  reach lines st -> Forall quiet (diags st) \/ length lines <= idx st.
Proof.
  induction 1 as [h m st0 Hp|st _ IH Hlt].
  - left. unfold parse_prologue in Hp.
    destruct (first_non_blank_from lines 0) as [k|]; [|discriminate].
    pose proof (strip_illegal_quiet (nth k lines []) (k + 1) [] (Forall_nil _)) as H0.
    destruct (strip_illegal_inline_comment _ _ _) as [hl d0]. cbn [snd] in H0.
    assert (H1 : Forall quiet (snd (parse_header hl (k + 1) d0))).
    { unfold parse_header. destruct (HEADER_RE hl) as [[g1 g2]|]; [exact H0|].
      cbn [snd]. apply quiet_snoc; [exact H0|discriminate]. }
    destruct (parse_header _ _ _) as [hd d1]. cbn [snd] in H1.
    pose proof (metadata_loop_quiet (skipn (k + 1) lines) (k + 1) [] d1 H1) as H2.
    destruct (metadata_loop _ _ _ _) as [[md i1] d2]. cbn [snd] in H2.
    injection Hp as _ _ <-. exact H2.
  - destruct IH as [IH|IH]; [|lia]. now apply body_step_quiet.
Qed.

(** The claim of C3 as written fails on a document whose fence is left
    open: the last captured content line is line 3 and the diagnostic is
    at line 3, not at the line that follows it. *)
Lemma C3_not_at_the_following_line :
  diagnostics (parse_document open_fence_doc) = Some [unterminated_fence 3]
  /\ ~ exists d ds,
         diagnostics (parse_document open_fence_doc) = Some ds
         /\ In d ds /\ code d = FENCE_UNTERMINATED /\ line (d_loc d) = 3 + 1.
Proof.
  split; [vm_compute; reflexivity|].
  intros (d & ds & Hds & Hin & _ & Hline).
  vm_compute in Hds. injection Hds as <-.
  destruct Hin as [<-|[]]. discriminate Hline.
Qed.

(** C3 (amended). When the body loop comes to a line that opens a fence
    and no later line closes it, the turn captures all the remaining
    lines, so the last captured line (the opening line, if there is none)
    is the last line of the input; the turn appends one
    FENCE_UNTERMINATED error, at that line and column 1, to diagnostics
    that hold no such error yet, and adds a
    [FencedCodeBlock] whose content is exactly the remaining lines.  The
    loop ends there: the document's diagnostics end with that error and
    the block is a node of the document. *)
Theorem C3_unterminated_fence (lines : list str) (st : PState) (g1 g2 : str) :
  reach lines st ->
  idx st < length lines ->
  FENCE_RE (nth (idx st) lines []) = Some (g1, g2) ->
  Forall (fun l => closes_fence (length g1) l = false) (skipn (idx st + 1) lines) ->
  idx st + 1 + length (skipn (idx st + 1) lines) = length lines
  /\ Forall (fun d => code d <> FENCE_UNTERMINATED) (diags st)
  /\ exists info loc,
       body_step lines st
       = add_block
           (set_diags (set_idx st (length lines))
              (diags st
               ++ [unterminated_fence (idx st + 1 + length (skipn (idx st + 1) lines))]))
           (FencedCodeBlock info (length g1) (skipn (idx st + 1) lines) loc)
       /\ diagnostics (parse_document lines)
          = Some (diags st ++ [unterminated_fence (length lines)])
       /\ occurs (FencedCodeBlock info (length g1) (skipn (idx st + 1) lines) loc)
                 (body (parse_document lines)).
Proof.
  intros Hreach Hlt Hfence Hopen.
  assert (Hlen : idx st + 1 + length (skipn (idx st + 1) lines) = length lines)
    by (rewrite length_skipn; lia).
  split; [exact Hlen|].
  split; [destruct (reach_quiet lines st Hreach) as [Hq|Hq]; [exact Hq|lia]|].
  assert (Hdrop : dropwhile (not_closing (length g1)) (skipn (idx st + 1) lines) = []).
  { apply dropwhile_all. eapply Forall_impl; [|exact Hopen].
    intros l Hl. unfold not_closing. now rewrite Hl. }
  assert (Hstep : exists info loc,
             body_step lines st
             = add_block
                 (set_diags (set_idx st (length lines))
                    (diags st
                     ++ [unterminated_fence
                           (idx st + 1 + length (skipn (idx st + 1) lines))]))
                 (FencedCodeBlock info (length g1) (skipn (idx st + 1) lines) loc)).
  { unfold body_step. rewrite (FENCE_RE_not_blank _ _ Hfence), Hfence.
    unfold fence_block. rewrite fence_loop_eq, Hdrop. cbn [app nonempty].
    rewrite Hlen. eexists _, _. reflexivity. }
  destruct Hstep as (info & loc & Hstep). exists info, loc.
  split; [exact Hstep|].
  pose proof (reach_step lines st Hreach Hlt) as Hreach'.
  destruct (reach_final lines _ Hreach') as (h & m & st0 & Hp & Hfin).
  rewrite (body_loop_end lines (body_step lines st)) in Hfin
    by (rewrite Hstep; unfold add_block; rewrite idx_append_to; cbn; lia).
  unfold parse_document. rewrite Hp, Hfin. cbn [diagnostics body]. split.
  - rewrite Hstep. unfold add_block. rewrite diags_append_to. cbn [diags set_diags].
    rewrite Hlen. destruct (diags st); reflexivity.
  - apply leaf_occurs; [now apply (reach_wf lines)|].
    rewrite Hstep. apply add_block_in_store.
    eapply store_wf_same; [| | |exact (reach_wf lines st Hreach)]; reflexivity.
Qed.

Lemma C3_unterminated_fence_example :
  let st := {| idx := 1; diags := []; root := []; heap := []; section_stack := [] |} in
  idx st + 1 + length (skipn (idx st + 1) open_fence_doc) = length open_fence_doc
  /\ Forall (fun d => code d <> FENCE_UNTERMINATED) (diags st)
  /\ exists info loc,
       body_step open_fence_doc st
       = add_block
           (set_diags (set_idx st (length open_fence_doc))
              (diags st
               ++ [unterminated_fence
                     (idx st + 1 + length (skipn (idx st + 1) open_fence_doc))]))
           (FencedCodeBlock info (length (@nil ascii)) (skipn (idx st + 1) open_fence_doc) loc)
       /\ diagnostics (parse_document open_fence_doc)
          = Some (diags st ++ [unterminated_fence (length open_fence_doc)])
       /\ occurs (FencedCodeBlock info (length (@nil ascii))
                    (skipn (idx st + 1) open_fence_doc) loc)
                 (body (parse_document open_fence_doc)).
Proof.
  intros st. apply (C3_unterminated_fence open_fence_doc st [] (lit "python")).
  - eapply reach_start. vm_compute. reflexivity.
  - cbn. lia.
  - reflexivity.
  - repeat constructor.
Defined.

Lemma head_align_rest {A} (l : list A) (d : A) :
  l <> [] ->
  match l with x :: _ => x | [] => d end
  :: match nth_error l 1 with Some r => [r] | None => [] end ++ skipn 2 l
  = l.
Proof. destruct l as [|x [|y l]]; intros H; [contradiction|reflexivity|reflexivity]. Qed.

(** C6. The row "| a | b |" has the cells "a" and "b".  On an input
    that holds no heading on whose number [int] raises (a component of
    more than 4300 digits), so that the code returns a document: when the
    body loop comes to a table line and a row of the run of table lines
    that starts there holds the fence marker, the table is still built
    from all the rows of the run (header, alignment row, data rows, in
    this order) and is a node of the document, and the document's
    diagnostics hold the error FENCE_IN_TABLE at the line of that row and
    the column of the first marker in it. *)
Theorem C6_table_rows_and_fence_marker :
  row_cells (lit "| a | b |") = [lit "a"; lit "b"]
  /\ forall (lines : list str) (st : PState),
       no_heading_raises lines = true ->
       reach lines st ->
       idx st < length lines ->
       TABLE_RE (nth (idx st) lines []) = true ->
       forall (j : nat) (row : str) (k : nat),
         nth_error (takewhile TABLE_RE (skipn (idx st) lines)) j = Some row ->
         find fence_marker row = Some k ->
         exists hdr align data loc ds,
           hdr :: match align with Some r => [r] | None => [] end ++ data
           = table_rows (idx st + 1) 0 (takewhile TABLE_RE (skipn (idx st) lines))
           /\ occurs (Table hdr align data loc) (body (parse_document lines))
           /\ diagnostics (parse_document lines) = Some ds
           /\ In (fence_in_table (idx st + 1) j k) ds.
Proof.
  split; [vm_compute; reflexivity|].
  intros lines st _ Hreach Hlt Htable j row k Hrow Hk.
  set (rows := takewhile TABLE_RE (skipn (idx st) lines)) in *.
  assert (Hstep : exists st1 loc,
             body_step lines st
             = add_block st1
                 (Table match table_rows (idx st + 1) 0 rows with
                        | r :: _ => r
                        | [] => {| cells := []; r_loc := None |}
                        end
                        (nth_error (table_rows (idx st + 1) 0 rows) 1)
                        (skipn 2 (table_rows (idx st + 1) 0 rows)) loc)
             /\ root st1 = root st /\ heap st1 = heap st
             /\ section_stack st1 = section_stack st
             /\ diags st1 = diags st ++ table_diags (idx st + 1) 0 rows).
  { unfold body_step. rewrite (TABLE_RE_not_blank _ Htable), (TABLE_RE_not_fence _ Htable), Htable.
    unfold table_block. rewrite table_loop_eq. cbn [app]. fold rows.
    rewrite parse_table_eq. eexists _, _. split; [reflexivity|]. now repeat split. }
  destruct Hstep as (st1 & loc & Hstep & R & H & S & D).
  destruct (added_block_in_document lines st st1 _ Hreach Hlt Hstep R H S) as (Hocc & ds & Hds).
  assert (Hin : In (fence_in_table (idx st + 1) j k) (diags st1 ++ ds)).
  { rewrite D. apply in_or_app. left. apply in_or_app. right.
    apply (table_diags_nth (idx st + 1) 0 rows j row k Hrow Hk). }
  eexists _, _, _, loc, (diags st1 ++ ds). split; [|split; [exact Hocc|split; [|exact Hin]]].
  - apply head_align_rest. intros E.
    pose proof (table_rows_nth (idx st + 1) 0 rows j row Hrow) as Hn.
    rewrite E in Hn. destruct j; discriminate.
  - rewrite Hds. destruct (diags st1 ++ ds); [destruct Hin|reflexivity].
Qed.

Lemma C6_fence_marker_example :
  let st := {| idx := 1; diags := []; root := []; heap := []; section_stack := [] |} in
  no_heading_raises fence_in_table_doc = true
  /\ exists hdr align data loc ds,
    hdr :: match align with Some r => [r] | None => [] end ++ data
    = table_rows (idx st + 1) 0 (takewhile TABLE_RE (skipn (idx st) fence_in_table_doc))
    /\ occurs (Table hdr align data loc) (body (parse_document fence_in_table_doc))
    /\ diagnostics (parse_document fence_in_table_doc) = Some ds
    /\ In (fence_in_table (idx st + 1) 0 6) ds.
Proof.
  intros st. split; [reflexivity|].
  apply (proj2 C6_table_rows_and_fence_marker fence_in_table_doc st) with (row := lit "| a | ``` |").
  - reflexivity.
  - eapply reach_start. vm_compute. reflexivity.
  - cbn. lia.
  - reflexivity.
  - reflexivity.
  - reflexivity.
Defined.

(** ** Reading back loses nothing *)

Lemma append_to_roots st target e :
  (forall r, e = Ref r -> r < length (heap st)) ->
  roots_wf st -> roots_wf (append_to st target e).
Proof.
  intros He Hr. destruct target as [t|]; unfold roots_wf; cbn.
  - rewrite length_heap_append. exact Hr.
  - intros r Hin. apply in_app_or in Hin. destruct Hin as [Hin|[Hin|[]]]; auto.
Qed.

Lemma place_section_roots st sec ln : roots_wf st -> roots_wf (place_section st sec ln).
Proof.
  intros Hr. unfold place_section.
  match goal with
  | |- roots_wf {| idx := _; diags := _; root := root ?s; heap := heap ?s;
                   section_stack := _ |} =>
      assert (H : roots_wf s); [|exact H]
  end.
  apply append_to_roots.
  - intros r [= <-]. cbn. rewrite length_app. cbn. lia.
  - intros r Hin. cbn in *. rewrite length_app. specialize (Hr r Hin). lia.
Qed.

Lemma step_effect_roots P Q st st' :
  step_effect P Q st st' -> roots_wf st -> roots_wf st'.
Proof.
  intros Heff Hr.
  assert (Hsame : forall st1, same_store st st1 -> roots_wf st1).
  { intros st1 (R & H & _). unfold roots_wf. rewrite R, H. exact Hr. }
  destruct Heff as [st1 Hs|st1 b Hs _|st1 b Hs _|st1 sec ln i Hs _].
  - auto.
  - apply append_to_roots; [discriminate|auto].
  - apply append_to_roots; [discriminate|auto].
  - assert (Hp : roots_wf (place_section st1 sec ln)) by (apply place_section_roots; auto).
    exact Hp.
Qed.

Lemma reach_roots lines st : reach lines st -> roots_wf st.
Proof.
  induction 1 as [h m st0 Hp|st _ IH Hlt].
  - unfold parse_prologue in Hp.
    destruct (first_non_blank_from lines 0); [|discriminate].
    destruct (strip_illegal_inline_comment _ _ _) as [hl d0].
    destruct (parse_header _ _ _) as [hd d1].
    destruct (metadata_loop _ _ _ _) as [[md i1] d2].
    injection Hp as _ _ <-. intros r [].
  - eapply step_effect_roots; [|exact IH]. now apply body_step_shape.
Qed.

(** In every state of the body loop each entry of the document's body and
    of a section's body is read back as one block: no reference dangles. *)
Lemma no_entry_dropped lines st :
  reach lines st ->
  (forall e, In e (root st) ->
             exists t, resolve_entry 0 (resolve_heap (heap st) 0) e = [t])
  /\ (forall a o e, nth_error (heap st) a = Some o -> In e (s_body o) ->
                    exists t, resolve_entry (S a) (skipn (S a) (resolve_heap (heap st) 0)) e
                              = [t]).
Proof.
  intros Hreach. pose proof (reach_wf lines st Hreach) as (H1 & _ & _).
  pose proof (reach_roots lines st Hreach) as Hr.
  assert (Hsec : forall r, r < length (heap st) ->
                    exists t, nth_error (resolve_heap (heap st) 0) r = Some t).
  { intros r Hlt. destruct (nth_error (heap st) r) as [o|] eqn:Ho;
      [|apply nth_error_None in Ho; lia].
    rewrite (resolve_heap_nth _ 0 r o Ho). eauto. }
  split.
  - intros [b|r] Hin; [cbn; eauto|].
    destruct (Hsec r (Hr r Hin)) as [t Ht]. exists t.
    apply resolve_ref_later; [lia|]. now rewrite Nat.sub_0_r.
  - intros a o [b|r] Ho Hin; [cbn; eauto|].
    specialize (H1 a o r Ho Hin). destruct (Hsec r ltac:(lia)) as [t Ht]. exists t.
    apply resolve_ref_later; [lia|]. rewrite nth_error_skipn.
    replace (S a + (r - S a)) with r by lia. exact Ht.
Qed.

(* ===================================================================== *)
(** * Further properties of the parser *)
(* ===================================================================== *)

(** ** The inline lexer keeps the text *)

Lemma forallb_takewhile {A} (p : A -> bool) (s : list A) : forallb p (takewhile p s) = true.
Proof.
  induction s as [|c s IH]; cbn; [reflexivity|].
  destruct (p c) eqn:E; cbn; [now rewrite E|reflexivity].
Qed.

(** What a match of the label pattern is: a run of label characters and
    a colon. *)
Lemma LABEL_search_from_match s p ms me :
  LABEL_search_from s p = Some (ms, me) ->
  exists run rest,
    skipn (ms - p) s = run ++ ":"%char :: rest
    /\ run <> [] /\ forallb iskey run = true /\ me = ms + length run + 1.
Proof.
  revert p; induction s as [|c r IH]; intros p; [discriminate|].
  cbn [LABEL_search_from].
  pose proof (takewhile_dropwhile iskey (c :: r)) as Hsplit.
  pose proof (forallb_takewhile iskey (c :: r)) as Hkey.
  assert (Hrec : LABEL_search_from r (S p) = Some (ms, me) ->
                 exists run rest,
                   skipn (ms - p) (c :: r) = run ++ ":"%char :: rest
                   /\ run <> [] /\ forallb iskey run = true /\ me = ms + length run + 1).
  { intros H. pose proof (LABEL_search_from_bounds _ _ _ _ H) as Hb.
    destruct (IH _ H) as (run & rest & Hs & Hne & Hk & Hme).
    exists run, rest. repeat split; auto.
    replace (ms - p) with (S (ms - S p)) by lia. exact Hs. }
  destruct (takewhile iskey (c :: r)) as [|x run]; [exact Hrec|].
  destruct (dropwhile iskey (c :: r)) as [|d t]; [exact Hrec|].
  destruct (Ascii.ascii_dec d ":") as [->|Hd].
  - intros [= <- <-]. exists (x :: run), t. rewrite Nat.sub_diag. cbn [skipn].
    repeat split; auto. discriminate.
  - intros H. apply Hrec. clear -H Hd.
    destruct d as [[] [] [] [] [] [] [] []]; try exact H. now elim Hd.
Qed.

Lemma LABEL_search_match text pos ms me :
  LABEL_search text pos = Some (ms, me) ->
  slice ms (me - 1) text <> []
  /\ forallb iskey (slice ms (me - 1) text) = true
  /\ skipn ms text = slice ms (me - 1) text ++ ":"%char :: skipn me text.
Proof.
  intros H. pose proof (LABEL_search_bounds _ _ _ _ H) as Hb.
  unfold LABEL_search in H.
  destruct (LABEL_search_from_match _ _ _ _ H) as (run & rest & Hs & Hne & Hk & Hme).
  rewrite skipn_skipn in Hs. replace (ms - pos + pos) with ms in Hs by lia.
  assert (Hrun : slice ms (me - 1) text = run).
  { unfold slice. rewrite Hs. replace (me - 1 - ms) with (length run + 0) by lia.
    rewrite firstn_app_2. cbn. apply app_nil_r. }
  rewrite Hrun. repeat split; auto.
  rewrite Hs. do 2 f_equal.
  replace me with ((length run + 1) + ms) by lia.
  rewrite <- skipn_skipn, Hs, skipn_app.
  replace (length run + 1 - length run) with 1 by lia.
  rewrite skipn_all2 by lia. reflexivity.
Qed.

Lemma slice_skipn {A} (a b : nat) (t : list A) :
  a <= b -> slice a b t ++ skipn b t = skipn a t.
Proof.
  intros H. unfold slice. rewrite <- (firstn_skipn (b - a) (skipn a t)) at 2.
  f_equal. rewrite skipn_skipn. f_equal. lia.
Qed.

Lemma render_app a b : render (a ++ b) = render a ++ render b.
Proof. unfold render. now rewrite map_app, concat_app. Qed.

Lemma nonempty_nil {A} (l : list A) : nonempty l = false -> l = [].
Proof. destruct l; [reflexivity|discriminate]. Qed.

(** The label loop emits the text from its cursor on. *)
Lemma parse_labels_loop_render text line_no base_col pos out :
  pos <= length text ->
  render (parse_labels_loop text out line_no base_col pos) = render out ++ skipn pos text.
Proof.
  revert out. pattern pos. apply (label_cursor_ind text). clear pos.
  intros pos IH out Hpos. rewrite parse_labels_loop_step.
  destruct (LABEL_search text pos) as [[ms me]|] eqn:Hm.
  - pose proof (LABEL_search_bounds _ _ _ _ Hm) as Hb.
    pose proof (label_end_bounds text me) as He.
    destruct (LABEL_search_match _ _ _ _ Hm) as (_ & _ & Hcolon).
    rewrite (IH ms me eq_refl) by lia. rewrite render_app.
    unfold render at 2. cbn [map concat node_source]. rewrite app_nil_r.
    assert (Htrail : opt_text (if nonempty (slice me (label_end text me) text)
                               then Some (slice me (label_end text me) text) else None)
                     = slice me (label_end text me) text).
    { destruct (nonempty _) eqn:E; [reflexivity|]. now rewrite (nonempty_nil _ E). }
    rewrite Htrail.
    assert (Hpre : render (if pos <? ms
                           then out ++ [Text (slice pos ms text)
                                          (make_loc line_no (base_col + pos) (Some line_no)
                                                    (Some (base_col + ms)))]
                           else out)
                   = render out ++ slice pos ms text).
    { destruct (pos <? ms) eqn:E.
      - rewrite render_app. unfold render at 2. cbn. now rewrite app_nil_r.
      - apply Nat.ltb_ge in E. replace ms with pos by lia.
        unfold slice. rewrite Nat.sub_diag. cbn. now rewrite app_nil_r. }
    rewrite Hpre.
    rewrite <- (slice_skipn pos ms text) by lia. rewrite Hcolon.
    rewrite <- (slice_skipn me (label_end text me) text) by lia.
    rewrite <- !app_assoc. cbn [app]. reflexivity.
  - destruct (nonempty (skipn pos text)) eqn:E.
    + rewrite render_app. unfold render at 2. cbn. now rewrite app_nil_r.
    + now rewrite (nonempty_nil _ E), app_nil_r.
Qed.

Lemma parse_labels_into_render text line_no base_col out :
  render (parse_labels_into text out line_no base_col) = render out ++ text.
Proof. unfold parse_labels_into. rewrite parse_labels_loop_render; [reflexivity|lia]. Qed.

Lemma skipn_cons_nth {A} (t : list A) i c rest :
  skipn i t = c :: rest -> skipn (i + 1) t = rest /\ i < length t.
Proof.
  intros H. split.
  - replace (i + 1) with (1 + i) by lia. now rewrite <- skipn_skipn, H.
  - apply (f_equal (@length A)) in H. rewrite length_skipn in H. cbn in H. lia.
Qed.

(** The scanning loop emits the text from the start of what it has not
    emitted yet: the opening backtick of the open span, or the pending
    plain text. *)
Lemma piwc_loop_render text line_no start_col :
  forall rest i result (in_code : bool) code_start plain_start,
    skipn i text = rest ->
    (if in_code
     then 1 <= code_start /\ code_start <= i
          /\ exists r, skipn (code_start - 1) text = "`"%char :: r
     else plain_start <= i) ->
    render (piwc_loop text line_no start_col result in_code code_start plain_start i rest)
    = render result ++ skipn (if in_code then code_start - 1 else plain_start) text.
Proof.
  induction rest as [|c rest IH]; intros i result in_code code_start plain_start Hrest Hinv;
    cbn [piwc_loop].
  - assert (Hi : length text <= i).
    { apply (f_equal (@length ascii)) in Hrest. rewrite length_skipn in Hrest. cbn in Hrest. lia. }
    set (ps := if in_code then code_start - 1 else plain_start).
    destruct (ps <? length text) eqn:E.
    + rewrite parse_labels_into_render. reflexivity.
    + apply Nat.ltb_ge in E. rewrite skipn_all2 by exact E. now rewrite app_nil_r.
  - destruct (skipn_cons_nth _ _ _ _ Hrest) as [Hnext Hlt].
    destruct (ch_eqb c "`") eqn:Ec.
    + apply ch_eqb_eq in Ec. subst c. destruct in_code.
      * destruct Hinv as (H1 & H2 & r & Hr).
        rewrite (IH (i + 1) _ false code_start (i + 1) Hnext) by lia.
        rewrite render_app. unfold render at 2. cbn [map concat node_source].
        rewrite app_nil_r, <- !app_assoc. f_equal.
        rewrite Hr. cbn [app]. f_equal.
        assert (Hr' : skipn code_start text = r).
        { replace code_start with (1 + (code_start - 1)) by lia.
          now rewrite <- skipn_skipn, Hr. }
        rewrite <- Hr', <- (slice_skipn code_start i text) by lia.
        rewrite <- app_assoc. f_equal. rewrite Hrest. cbn [app]. now rewrite Hnext.
      * rewrite (IH (i + 1) _ true (i + 1) plain_start Hnext).
        -- replace (i + 1 - 1) with i by lia.
           rewrite <- (slice_skipn plain_start i text) by exact Hinv.
           rewrite app_assoc. f_equal.
           destruct (plain_start <? i) eqn:E.
           ++ now rewrite parse_labels_into_render.
           ++ apply Nat.ltb_ge in E. replace i with plain_start by lia.
              unfold slice. rewrite Nat.sub_diag. cbn. now rewrite app_nil_r.
        -- split; [lia|]. split; [lia|]. replace (i + 1 - 1) with i by lia. eauto.
    + rewrite (IH (i + 1) result in_code code_start plain_start Hnext); [reflexivity|].
      destruct in_code; [|lia]. destruct Hinv as (H1 & H2 & Hr). repeat split; auto. lia.
Qed.

Lemma piwc_render text line_no start_col :
  render (parse_inline_without_comment text line_no start_col) = text.
Proof.
  unfold parse_inline_without_comment.
  rewrite (piwc_loop_render text line_no start_col text 0 [] false 0 0); [reflexivity| |lia].
  reflexivity.
Qed.

(** X1. Rendering the nodes of [parse_inline_without_comment] gives the
    text back, character for character: a code span with its backticks,
    a label with its colon and its text, a plain run as it is. *)
Theorem X1_inline_round_trip (text : str) (line_no start_col : nat) :
  render (parse_inline_without_comment text line_no start_col) = text.
Proof. apply piwc_render. Qed.

Lemma comment_pos_loop_found allow in_code i rest p :
  comment_pos_loop allow in_code i rest = Some p ->
  allow = true /\ exists r, skipn (p - i) rest = comment_marker ++ r.
Proof.
  revert in_code i; induction rest as [|c rest IH]; intros in_code i; cbn [comment_pos_loop];
    [discriminate|].
  destruct (allow && _ && startswith comment_marker (c :: rest)) eqn:E.
  - intros [= <-]. rewrite !andb_true_iff in E. destruct E as [[Ha _] Hs].
    apply startswith_spec in Hs. rewrite Nat.sub_diag. cbn [skipn]. auto.
  - intros H. pose proof (comment_pos_loop_bounds _ _ _ _ _ H) as Hb.
    destruct (IH _ _ H) as (Ha & r & Hr). split; [exact Ha|]. exists r.
    replace (p - i) with (S (p - (i + 1))) by lia. exact Hr.
Qed.

Lemma parse_labels_loop_no_comment text out line_no base_col pos :
  Forall (fun nd => is_comment nd = false) out ->
  Forall (fun nd => is_comment nd = false) (parse_labels_loop text out line_no base_col pos).
Proof.
  revert out. pattern pos. apply (label_cursor_ind text). clear pos.
  intros pos IH out Hout. rewrite parse_labels_loop_step.
  destruct (LABEL_search text pos) as [[ms me]|] eqn:Hm.
  - apply (IH ms me eq_refl). apply Forall_app. split; [|repeat constructor].
    destruct (pos <? ms); [|exact Hout].
    apply Forall_app. split; [exact Hout|repeat constructor].
  - destruct (nonempty _); [|exact Hout].
    apply Forall_app. split; [exact Hout|repeat constructor].
Qed.

Lemma piwc_loop_no_comment text line_no start_col :
  forall rest i result in_code code_start plain_start,
    Forall (fun nd => is_comment nd = false) result ->
    Forall (fun nd => is_comment nd = false)
      (piwc_loop text line_no start_col result in_code code_start plain_start i rest).
Proof.
  induction rest as [|c rest IH]; intros i result in_code code_start plain_start Hres;
    cbn [piwc_loop].
  - destruct (_ <? _); [|exact Hres]. now apply parse_labels_loop_no_comment.
  - destruct (ch_eqb c "`"); [|now apply IH]. destruct in_code.
    + apply IH. apply Forall_app. split; [exact Hres|repeat constructor].
    + apply IH. destruct (_ <? _); [|exact Hres]. now apply parse_labels_loop_no_comment.
Qed.

Lemma parse_inline_split (text : str) (allow : bool) (line_no start_col : nat) :
  (Forall (fun nd => is_comment nd = false) (parse_inline text allow line_no start_col)
   /\ render (parse_inline text allow line_no start_col) = text)
  \/ (allow = true
      /\ exists pre t loc ws,
           parse_inline text allow line_no start_col = pre ++ [InlineComment t loc]
           /\ Forall (fun nd => is_comment nd = false) pre
           /\ forallb isspace ws = true
           /\ text = render pre ++ comment_marker ++ ws ++ t).
Proof.
  unfold parse_inline.
  destruct (comment_pos_loop allow false 0 text) as [p|] eqn:Hp.
  - right. pose proof (comment_pos_loop_bounds _ _ _ _ _ Hp) as Hb.
    destruct (comment_pos_loop_found _ _ _ _ _ Hp) as (Ha & r & Hr).
    rewrite Nat.sub_0_r in Hr. split; [exact Ha|].
    eexists _, _, _, (takewhile isspace (skipn (p + 2) text)).
    split; [reflexivity|]. split; [|split; [apply forallb_takewhile|]].
    + apply piwc_loop_no_comment. constructor.
    + rewrite piwc_render. unfold lstrip. rewrite takewhile_dropwhile.
      rewrite <- (firstn_skipn p text) at 1. f_equal. rewrite Hr. f_equal.
      replace (p + 2) with (2 + p) by lia. now rewrite <- skipn_skipn, Hr.
  - left. split; [apply piwc_loop_no_comment; constructor|apply piwc_render].
Qed.

(** X2. With or without a comment, [parse_inline] keeps the text: either
    no node is a comment and the nodes render to the text, or comments
    are allowed, the last node is the only comment, and the text is what
    the nodes before it render to, the comment marker, some white space
    and the comment's text.  Nothing but the white space after the marker
    is lost. *)
Theorem X2_inline_comment_split (text : str) (allow : bool) (line_no start_col : nat) :
  (Forall (fun nd => is_comment nd = false) (parse_inline text allow line_no start_col)
   /\ render (parse_inline text allow line_no start_col) = text)
  \/ (allow = true
      /\ exists pre t loc ws,
           parse_inline text allow line_no start_col = pre ++ [InlineComment t loc]
           /\ Forall (fun nd => is_comment nd = false) pre
           /\ forallb isspace ws = true
           /\ text = render pre ++ comment_marker ++ ws ++ t).
Proof. apply parse_inline_split. Qed.

(** ** The inline lexer emits no empty node *)

Lemma length_slice {A} (a b : nat) (t : list A) :
  b <= length t -> length (slice a b t) = b - a.
Proof. intros H. unfold slice. rewrite length_firstn, length_skipn. lia. Qed.

Lemma nonempty_length {A} (l : list A) : 0 < length l -> nonempty l = true.
Proof. destruct l; cbn; [lia|reflexivity]. Qed.

Lemma parse_labels_loop_filled text line_no base_col pos out :
  Forall (fun nd => node_filled nd = true) out ->
  Forall (fun nd => node_filled nd = true) (parse_labels_loop text out line_no base_col pos).
Proof.
  revert out. pattern pos. apply (label_cursor_ind text). clear pos.
  intros pos IH out Hout. rewrite parse_labels_loop_step.
  destruct (LABEL_search text pos) as [[ms me]|] eqn:Hm.
  - pose proof (LABEL_search_bounds _ _ _ _ Hm) as Hb.
    destruct (LABEL_search_match _ _ _ _ Hm) as (Hne & Hkey & _).
    apply (IH ms me eq_refl). apply Forall_app. split.
    + destruct (pos <? ms) eqn:E; [|exact Hout]. apply Nat.ltb_lt in E.
      apply Forall_app. split; [exact Hout|]. constructor; [|constructor].
      cbn [node_filled]. apply nonempty_length. rewrite length_slice; lia.
    + constructor; [|constructor]. cbn [node_filled]. rewrite Hkey.
      destruct (slice ms (me - 1) text); [contradiction|].
      destruct (nonempty (slice me _ text)) eqn:E; cbn; [exact E|reflexivity].
  - destruct (nonempty (skipn pos text)) eqn:E; [|exact Hout].
    apply Forall_app. split; [exact Hout|]. constructor; [exact E|constructor].
Qed.

Lemma piwc_loop_filled text line_no start_col :
  forall rest i result in_code code_start plain_start,
    Forall (fun nd => node_filled nd = true) result ->
    Forall (fun nd => node_filled nd = true)
      (piwc_loop text line_no start_col result in_code code_start plain_start i rest).
Proof.
  induction rest as [|c rest IH]; intros i result in_code code_start plain_start Hres;
    cbn [piwc_loop].
  - destruct (_ <? _); [|exact Hres]. now apply parse_labels_loop_filled.
  - destruct (ch_eqb c "`"); [|now apply IH]. destruct in_code.
    + apply IH. apply Forall_app. split; [exact Hres|repeat constructor].
    + apply IH. destruct (_ <? _); [|exact Hres]. now apply parse_labels_loop_filled.
Qed.

(** X3. [parse_inline] never emits an empty [Text] node, a label with an
    empty identifier or with a character outside the label class in it,
    or a label whose text is present and empty. *)
Theorem X3_no_empty_inline_node (text : str) (allow : bool) (line_no start_col : nat) :
  forallb node_filled (parse_inline text allow line_no start_col) = true.
Proof.
  apply forallb_forall. apply Forall_forall. unfold parse_inline.
  destruct (comment_pos_loop _ _ _ _).
  - apply Forall_app. split; [|repeat constructor].
    apply piwc_loop_filled. constructor.
  - apply piwc_loop_filled. constructor.
Qed.

(** ** The columns of the inline nodes *)

Lemma slice_slice {A} (a b x y : nat) (t : list A) :
  y <= b - a -> slice x y (slice a b t) = slice (a + x) (a + y) t.
Proof.
  intros H. unfold slice. rewrite skipn_firstn_comm, firstn_firstn, skipn_skipn.
  replace (Nat.min (y - x) (b - a - x)) with (y - x) by lia.
  replace (a + y - (a + x)) with (y - x) by lia.
  replace (x + a) with (a + x) by lia. reflexivity.
Qed.

Lemma placed_sub text start_col line_no a b nd :
  a <= b -> b <= length text ->
  placed (slice a b text) (start_col + a) line_no nd -> placed text start_col line_no nd.
Proof.
  intros Hab Hb (H1 & H2 & x & y & Hx & Hy & Hxy & Hlen & Hs).
  rewrite length_slice in Hlen by exact Hb.
  split; [exact H1|]. split; [exact H2|]. exists (a + x), (a + y).
  repeat split; try lia. rewrite <- Hs. symmetry. apply slice_slice. exact Hlen.
Qed.

Lemma slice_label text ms me e :
  skipn ms text = slice ms (me - 1) text ++ ":"%char :: skipn me text ->
  ms < me -> me <= e -> e <= length text ->
  slice ms e text = slice ms (me - 1) text ++ ":"%char :: slice me e text.
Proof.
  intros Hcolon H1 H2 H3.
  assert (Hlen : length (slice ms (me - 1) text) = me - 1 - ms) by (apply length_slice; lia).
  unfold slice at 1. rewrite Hcolon.
  replace (e - ms) with (length (slice ms (me - 1) text) + S (e - me)) by lia.
  rewrite firstn_app_2. cbn [firstn]. reflexivity.
Qed.

Lemma parse_labels_loop_placed text line_no base_col pos out :
  pos <= length text ->
  Forall (placed text base_col line_no) out ->
  Forall (placed text base_col line_no) (parse_labels_loop text out line_no base_col pos).
Proof.
  revert out. pattern pos. apply (label_cursor_ind text). clear pos.
  intros pos IH out Hpos Hout. rewrite parse_labels_loop_step.
  destruct (LABEL_search text pos) as [[ms me]|] eqn:Hm.
  - pose proof (LABEL_search_bounds _ _ _ _ Hm) as Hb.
    pose proof (label_end_bounds text me) as He.
    destruct (LABEL_search_match _ _ _ _ Hm) as (_ & _ & Hcolon).
    apply (IH ms me eq_refl); [lia|]. apply Forall_app. split.
    + destruct (pos <? ms) eqn:E; [|exact Hout]. apply Nat.ltb_lt in E.
      apply Forall_app. split; [exact Hout|]. constructor; [|constructor].
      split; [reflexivity|]. split; [reflexivity|]. exists pos, ms.
      repeat split; try lia.
    + constructor; [|constructor].
      split; [reflexivity|]. split; [reflexivity|]. exists ms, (label_end text me).
      repeat split; try lia. cbn [node_text].
      rewrite (slice_label text ms me (label_end text me) Hcolon) by lia.
      do 2 f_equal. destruct (nonempty _) eqn:E; [reflexivity|].
      now rewrite (nonempty_nil _ E).
  - destruct (nonempty (skipn pos text)) eqn:E; [|exact Hout].
    apply Forall_app. split; [exact Hout|]. constructor; [|constructor].
    split; [reflexivity|]. split; [reflexivity|]. exists pos, (length text).
    repeat split; try lia. apply slice_to_end.
Qed.

Lemma parse_labels_into_placed text start_col line_no a b out :
  a <= b -> b <= length text ->
  Forall (placed text start_col line_no) out ->
  Forall (placed text start_col line_no)
    (parse_labels_into (slice a b text) out line_no (start_col + a)).
Proof.
  intros Hab Hb Hout. rewrite parse_labels_into_app. apply Forall_app. split; [exact Hout|].
  eapply Forall_impl; [intros nd; apply (placed_sub text start_col line_no a b nd Hab Hb)|].
  apply parse_labels_loop_placed; [lia|constructor].
Qed.

Lemma piwc_loop_placed text line_no start_col :
  forall rest i result in_code code_start plain_start,
    skipn i text = rest -> i <= length text -> code_start <= i ->
    Forall (placed text start_col line_no) result ->
    Forall (placed text start_col line_no)
      (piwc_loop text line_no start_col result in_code code_start plain_start i rest).
Proof.
  induction rest as [|c rest IH]; intros i result in_code code_start plain_start Hrest Hi Hcs Hres;
    cbn [piwc_loop].
  - set (ps := if in_code then code_start - 1 else plain_start).
    destruct (ps <? length text) eqn:E; [|exact Hres]. apply Nat.ltb_lt in E.
    rewrite <- slice_to_end. apply parse_labels_into_placed; [lia|lia|exact Hres].
  - destruct (skipn_cons_nth _ _ _ _ Hrest) as [Hnext Hlt].
    destruct (ch_eqb c "`"); [|apply IH; auto; lia]. destruct in_code.
    + apply IH; auto; try lia. apply Forall_app. split; [exact Hres|].
      constructor; [|constructor]. split; [reflexivity|]. split; [reflexivity|].
      exists code_start, i. repeat split; try lia.
    + apply IH; auto; try lia.
      destruct (plain_start <? i) eqn:E; [|exact Hres]. apply Nat.ltb_lt in E.
      apply parse_labels_into_placed; [lia|lia|exact Hres].
Qed.

(** X4. The locations of the inline nodes are exact.  Every node of
    [parse_inline_without_comment] lies on the given line, and the
    characters of the text between its start and end columns (counted from
    the start column) are its own: the value of a [Text], the code of a
    code span without the backticks, the identifier, the colon and the
    text of a label. *)
Theorem X4_inline_columns_exact (text : str) (line_no start_col : nat) :
  Forall (placed text start_col line_no)
         (parse_inline_without_comment text line_no start_col).
Proof.
  unfold parse_inline_without_comment.
  apply piwc_loop_placed; [reflexivity|lia|lia|constructor].
Qed.

(** ** Stripping an inline comment where none is allowed *)

Lemma strip_loops_agree line line_no d in_code i rest :
  fst (strip_illegal_loop line line_no d in_code i rest)
  = strip_detect_loop line in_code i rest.
Proof.
  revert in_code i; induction rest as [|c rest IH]; intros in_code i;
    cbn [strip_illegal_loop strip_detect_loop]; [reflexivity|].
  destruct (ch_eqb c "`"); [apply IH|].
  destruct (_ && _); [reflexivity|apply IH].
Qed.

Lemma length_rstrip s : length (rstrip s) <= length s.
Proof.
  unfold rstrip. rewrite length_rev.
  pose proof (length_takewhile isspace (rev s)) as H. rewrite length_rev in H. lia.
Qed.

Lemma strip_illegal_loop_cases line line_no d in_code i rest :
  strip_illegal_loop line line_no d in_code i rest = (line, d)
  \/ exists k r,
       i <= k /\ skipn (k - i) rest = comment_marker ++ r
       /\ strip_illegal_loop line line_no d in_code i rest
          = (rstrip (firstn k line),
             d ++ [ {| severity := warning;
                       message := lit "Inline comment not allowed in this context; stripped before parsing.";
                       d_loc := {| line := line_no; column := k + 1 |};
                       code := INLINE_COMMENT_ILLEGAL |} ]).
Proof.
  revert in_code i; induction rest as [|c rest IH]; intros in_code i;
    cbn [strip_illegal_loop]; [now left|].
  assert (Hrec : forall b,
             strip_illegal_loop line line_no d b (i + 1) rest = (line, d)
             \/ exists k r,
                  i <= k /\ skipn (k - i) (c :: rest) = comment_marker ++ r
                  /\ strip_illegal_loop line line_no d b (i + 1) rest
                     = (rstrip (firstn k line),
                        d ++ [ {| severity := warning;
                                  message := lit "Inline comment not allowed in this context; stripped before parsing.";
                                  d_loc := {| line := line_no; column := k + 1 |};
                                  code := INLINE_COMMENT_ILLEGAL |} ])).
  { intros b. destruct (IH b (i + 1)) as [H|(k & r & Hk & Hr & H)]; [now left|].
    right. exists k, r. split; [lia|]. split; [|exact H].
    replace (k - i) with (S (k - (i + 1))) by lia. exact Hr. }
  destruct (ch_eqb c "`"); [apply Hrec|].
  destruct (negb in_code && startswith comment_marker (c :: rest)) eqn:E; [|apply Hrec].
  right. apply andb_true_iff in E. destruct E as [_ E]. apply startswith_spec in E.
  destruct E as [r Hr]. exists i, r. rewrite Nat.sub_diag. cbn [skipn]. auto.
Qed.

Lemma strip_illegal_spec (line : str) (line_no : nat) (d : list Diagnostic) :
  fst (strip_illegal_inline_comment line line_no d) = strip_inline_comment_for_detection line
  /\ (strip_illegal_inline_comment line line_no d = (line, d)
      \/ exists k r,
           skipn k line = comment_marker ++ r
           /\ fst (strip_illegal_inline_comment line line_no d) = rstrip (firstn k line)
           /\ fst (strip_illegal_inline_comment line line_no d) <> line
           /\ snd (strip_illegal_inline_comment line line_no d)
              = d ++ [ {| severity := warning;
                          message := lit "Inline comment not allowed in this context; stripped before parsing.";
                          d_loc := {| line := line_no; column := k + 1 |};
                          code := INLINE_COMMENT_ILLEGAL |} ]).
Proof.
  split; [apply strip_loops_agree|].
  unfold strip_illegal_inline_comment.
  destruct (strip_illegal_loop_cases line line_no d false 0 line) as [H|(k & r & _ & Hr & H)];
    [now left|].
  right. rewrite Nat.sub_0_r in Hr. exists k, r. rewrite H. cbn [fst snd].
  repeat split; auto.
  intros E. apply (f_equal (@length ascii)) in E.
  pose proof (length_rstrip (firstn k line)) as H1. rewrite length_firstn in H1.
  apply (f_equal (@length ascii)) in Hr. rewrite length_skipn, length_app in Hr.
  cbn in Hr. lia.
Qed.

(** X5. The function that strips an illegal inline comment returns the
    string that the silent probe returns.  Either it returns the line and
    the diagnostics as they are, or the line holds the comment marker at
    some offset [k]: then the result is the line up to [k] without its
    trailing white space, it differs from the line, and the one
    diagnostic appended is the warning INLINE_COMMENT_ILLEGAL at column
    [k + 1] of the given line. *)
Theorem X5_strip_illegal_inline_comment (line : str) (line_no : nat) (d : list Diagnostic) :
  fst (strip_illegal_inline_comment line line_no d) = strip_inline_comment_for_detection line
  /\ (strip_illegal_inline_comment line line_no d = (line, d)
      \/ exists k r,
           skipn k line = comment_marker ++ r
           /\ fst (strip_illegal_inline_comment line line_no d) = rstrip (firstn k line)
           /\ fst (strip_illegal_inline_comment line line_no d) <> line
           /\ snd (strip_illegal_inline_comment line line_no d)
              = d ++ [ {| severity := warning;
                          message := lit "Inline comment not allowed in this context; stripped before parsing.";
                          d_loc := {| line := line_no; column := k + 1 |};
                          code := INLINE_COMMENT_ILLEGAL |} ]).
Proof. apply strip_illegal_spec. Qed.

(** The heading branch places a section exactly when the probe matches:
    the second match, on the stripped line, cannot fail. *)
Lemma section_block_cases st line :
  match SECTION_RE (strip_inline_comment_for_detection line) with
  | Some (g1, title, desc) =>
      exists d1,
        (exists ds, d1 = diags st ++ ds
                    /\ Forall (fun d => code d = INLINE_COMMENT_ILLEGAL
                                         /\ severity d = warning
                                         /\ dline d = idx st + 1) ds)
        /\ section_block st line
           = inl (set_idx
                    (place_section (set_diags st d1)
                       {| s_number := map int_of_str (split "." g1);
                          s_title := title;
                          s_description := match desc with
                                           | Some (c :: d) => Some (c :: d)
                                           | _ => None
                                           end;
                          s_level := length (map int_of_str (split "." g1));
                          s_body := [];
                          s_loc := make_loc (idx st + 1) 1 (Some (idx st + 1))
                                            (Some (length (rstrip line) + 1)) |}
                       (idx st + 1))
                    (idx st + 1))
  | None => section_block st line = inr (diags st)
  end.
Proof.
  unfold section_block.
  destruct (SECTION_RE (strip_inline_comment_for_detection line)) as [[[g1 t] ds]|] eqn:E;
    [|reflexivity].
  destruct (strip_illegal_spec line (idx st + 1) (diags st)) as [Hfst Hcases].
  destruct (strip_illegal_inline_comment line (idx st + 1) (diags st)) as [cl d1].
  cbn [fst snd] in *. subst cl. rewrite E. exists d1. split; [|reflexivity].
  destruct Hcases as [H|(k & r & _ & _ & _ & H)].
  - injection H as _ ->. exists []. split; [now rewrite app_nil_r|constructor].
  - subst d1. eexists. split; [reflexivity|]. repeat constructor.
Qed.

(* ===================================================================== *)
(** ** The turns of the body loop *)
(* ===================================================================== *)

Lemma dot_star_eol_spec s g :
  dot_star_eol s = Some g ->
  exists tl, s = g ++ tl /\ (tl = [] \/ tl = ["010"%char])
             /\ forallb (fun c => negb (isnewline c)) g = true.
Proof.
  unfold dot_star_eol.
  pose proof (takewhile_dropwhile (fun c => negb (isnewline c)) s) as Hs.
  pose proof (forallb_takewhile (fun c => negb (isnewline c)) s) as Hg.
  destruct (dropwhile _ s) as [|c [|c2 tl]] eqn:E; try discriminate; intros [= <-].
  - exists []. auto.
  - exists [c]. split; [auto|]. split; [|exact Hg]. right.
    apply dropwhile_head in E. apply negb_false_iff in E. apply ch_eqb_eq in E. now subst.
Qed.

Lemma dot_plus_eol_spec s g :
  dot_plus_eol s = Some g ->
  g <> [] /\ exists tl, s = g ++ tl /\ (tl = [] \/ tl = ["010"%char])
                        /\ forallb (fun c => negb (isnewline c)) g = true.
Proof.
  unfold dot_plus_eol. destruct (dot_star_eol s) as [[|c g']|] eqn:E; try discriminate.
  intros [= <-]. split; [discriminate|]. now apply dot_star_eol_spec.
Qed.

(** A bullet line is its leading white space, a marker, a space and a
    text that is not empty, with at most a newline after it. *)
Lemma BULLET_RE_spec line g1 m text :
  BULLET_RE line = Some (g1, m, text) ->
  ismarker m = true /\ text <> [] /\ forallb isspace g1 = true
  /\ exists tl, line = g1 ++ m :: " "%char :: text ++ tl /\ (tl = [] \/ tl = ["010"%char]).
Proof.
  unfold BULLET_RE. intros H.
  pose proof (takewhile_dropwhile isspace line) as Hline.
  pose proof (forallb_takewhile isspace line) as Hws.
  destruct (dropwhile isspace line) as [|c [|d rest]]; try discriminate.
  assert (Hd : d = " "%char).
  { destruct (ascii_dec d " ") as [->|Hd]; [reflexivity|].
    exfalso. destruct d as [[] [] [] [] [] [] [] []]; try discriminate H. now elim Hd. }
  subst d. destruct (ismarker c) eqn:Hm; [|discriminate].
  destruct (dot_plus_eol rest) as [t|] eqn:Ht; [|discriminate].
  injection H as <- <- <-.
  destruct (dot_plus_eol_spec _ _ Ht) as (Hne & tl & Hrest & Htl & _).
  repeat split; auto. exists tl. split; [|exact Htl]. rewrite <- Hrest. symmetry. exact Hline.
Qed.

Lemma join_nonempty sep x l : x <> [] -> join sep (x :: l) <> [].
Proof.
  intros Hx. cbn [join]. destruct l; [exact Hx|].
  destruct x; [contradiction|discriminate].
Qed.

Lemma parse_inline_nonempty text allow line_no start_col :
  text <> [] -> parse_inline text allow line_no start_col <> [].
Proof.
  intros Ht. destruct (parse_inline_split text allow line_no start_col)
    as [[_ Hr]|(_ & pre & t & loc & ws & -> & _)].
  - intros E. rewrite E in Hr. cbn in Hr. congruence.
  - intros E. destruct pre; discriminate.
Qed.

Lemma nonempty_true {A} (l : list A) : l <> [] -> nonempty l = true.
Proof. destruct l; [contradiction|reflexivity]. Qed.

Lemma bullet_item_filled lines i g1 m text :
  BULLET_RE (nth i lines []) = Some (g1, m, text) ->
  item_filled (fst (bullet_item lines i g1 m text)) = true.
Proof.
  intros Hb. destruct (BULLET_RE_spec _ _ _ _ Hb) as (Hm & Hne & _).
  unfold bullet_item. destruct (continuation_loop _ _ _ _) as [cont la].
  unfold item_filled. cbn [fst marker inline continuation]. rewrite Hm. cbn [andb].
  rewrite nonempty_true by (apply parse_inline_nonempty; now apply join_nonempty).
  destruct (nonempty cont) eqn:E; [exact E|reflexivity].
Qed.

Lemma bullet_loop_step lines i items :
  bullet_loop lines i items
  = if i <? length lines then
      match BULLET_RE (nth i lines []) with
      | Some (g1, m, text) =>
          bullet_loop lines (snd (bullet_item lines i g1 m text))
                      (items ++ [fst (bullet_item lines i g1 m text)])
      | None => (items, i)
      end
    else (items, i).
Proof.
  funelim (bullet_loop lines i items).
  - replace (_ <? _) with false; [reflexivity|]. symmetry. now apply Nat.ltb_ge.
  - replace (_ <? _) with true by (symmetry; now apply Nat.ltb_lt).
    match goal with H : BULLET_RE _ = Some _ |- _ => rewrite H end. reflexivity.
  - replace (_ <? _) with true by (symmetry; now apply Nat.ltb_lt).
    match goal with H : BULLET_RE _ = None |- _ => rewrite H end. reflexivity.
Qed.

Lemma bullet_loop_filled lines i items :
  Forall (fun it => item_filled it = true) items ->
  Forall (fun it => item_filled it = true) (fst (bullet_loop lines i items))
  /\ length items <= length (fst (bullet_loop lines i items)).
Proof.
  funelim (bullet_loop lines i items); intros Hitems; cbn [fst]; auto.
  match goal with
  | IH : Forall _ (_ ++ _) -> _ |- _ => destruct IH as [IH1 IH2]
  end.
  - apply Forall_app. split; [exact Hitems|]. constructor; [|constructor].
    now apply bullet_item_filled.
  - split; [exact IH1|]. rewrite length_app in IH2. cbn in IH2. lia.
Qed.

Lemma bullet_block_turn lines st :
  idx st < length lines -> is_bullet (nth (idx st) lines []) = true ->
  exists st1 b,
    bullet_block lines st = add_block st1 b
    /\ root st1 = root st /\ heap st1 = heap st
    /\ section_stack st1 = section_stack st /\ diags st1 = diags st
    /\ content_ok b = true /\ start_line b = idx st + 1.
Proof.
  intros Hlt Hb. unfold bullet_block.
  assert (H : let r := fst (bullet_loop lines (idx st) []) in
              nonempty r = true /\ forallb item_filled r = true).
  { rewrite bullet_loop_step. apply Nat.ltb_lt in Hlt. rewrite Hlt.
    unfold is_bullet in Hb.
    destruct (BULLET_RE (nth (idx st) lines [])) as [[[g1 m] t]|] eqn:E; [|discriminate].
    destruct (bullet_loop_filled lines (snd (bullet_item lines (idx st) g1 m t))
                ([] ++ [fst (bullet_item lines (idx st) g1 m t)])) as [H1 H2].
    { constructor; [|constructor]. now apply bullet_item_filled. }
    cbn zeta. split.
    - apply nonempty_length. cbn [app] in *. cbn [length] in H2. lia.
    - apply forallb_forall. now apply Forall_forall. }
  destruct (bullet_loop lines (idx st) []) as [items i']. cbn [fst] in H.
  destruct H as [H1 H2].
  eexists _, _. split; [reflexivity|]. do 4 (split; [reflexivity|]). split; [|reflexivity].
  cbn [content_ok]. now rewrite H1, H2.
Qed.

Lemma paragraph_block_turn lines st :
  idx st < length lines ->
  isblank (nth (idx st) lines []) = false ->
  ends_paragraph (nth (idx st) lines []) = false ->
  exists st1 b,
    paragraph_block lines st = add_block st1 b
    /\ root st1 = root st /\ heap st1 = heap st
    /\ section_stack st1 = section_stack st /\ diags st1 = diags st
    /\ content_ok b = true /\ start_line b = idx st + 1.
Proof.
  intros Hlt Hblank Hends. unfold paragraph_block.
  rewrite (skipn_nth lines (idx st) []) by exact Hlt.
  cbn [paragraph_loop]. rewrite Hblank, Hends.
  destruct (paragraph_loop_entries (skipn (S (idx st)) lines)
              ([] ++ [(idx st, nth (idx st) lines [])]) (idx st + 1)) as (new & Hnew & _).
  destruct (paragraph_loop _ _ _) as [para i']. cbn [fst app] in Hnew. subst para.
  destruct (top_nonempty ((idx st, nth (idx st) lines []) :: new)) as [last_pl ->];
    [discriminate|].
  eexists _, _. split; [reflexivity|]. do 4 (split; [reflexivity|]). split; [|reflexivity].
  cbn [content_ok]. apply nonempty_true. apply parse_inline_nonempty.
  cbn [map snd]. apply join_nonempty.
  unfold isblank in Hblank. apply negb_false_iff in Hblank.
  destruct (strip _); [discriminate|discriminate].
Qed.

Lemma table_diags_codes start_line i rows :
  Forall (fun d => code d = FENCE_IN_TABLE /\ severity d = error)
         (table_diags start_line i rows).
Proof.
  revert i; induction rows as [|r rows IH]; intros i; cbn [table_diags]; [constructor|].
  apply Forall_app. split; [|apply IH].
  destruct (find fence_marker r); repeat constructor.
Qed.

Lemma nondecreasing_weaken lo lo' l :
  lo' <= lo -> nondecreasing lo l = true -> nondecreasing lo' l = true.
Proof.
  destruct l as [|x l]; cbn [nondecreasing]; [reflexivity|].
  intros Hle H. apply andb_true_iff in H. destruct H as [H1 H2]. rewrite H2.
  apply Nat.leb_le in H1. replace (lo' <=? x) with true; [reflexivity|].
  symmetry. apply Nat.leb_le. lia.
Qed.

Lemma nondecreasing_app lo mid l1 l2 :
  nondecreasing lo l1 = true -> Forall (fun x => x <= mid) l1 -> lo <= mid ->
  nondecreasing mid l2 = true -> nondecreasing lo (l1 ++ l2) = true.
Proof.
  revert lo; induction l1 as [|x l1 IH]; intros lo H1 Hall Hlo H2; cbn [app].
  - now apply (nondecreasing_weaken mid).
  - cbn [nondecreasing] in *. apply andb_true_iff in H1. destruct H1 as [Hx H1].
    inversion Hall; subst. rewrite Hx. cbn [andb]. apply IH; auto.
Qed.

Lemma diag_run_nil lo hi : diag_run lo [] hi.
Proof. split; [reflexivity|constructor]. Qed.

Lemma diag_lines_same st st1 hi :
  diags st1 = diags st -> diag_lines st st1 hi.
Proof. intros H. exists []. rewrite app_nil_r. split; [exact H|apply diag_run_nil]. Qed.

(** The diagnostics of a table are on the lines of its rows, in order. *)
Lemma table_diags_run start_line i rows :
  diag_run (start_line + i) (table_diags start_line i rows)
           (start_line + i + length rows - 1).
Proof.
  revert i; induction rows as [|r rows IH]; intros i; cbn [table_diags];
    [apply diag_run_nil|].
  destruct (IH (i + 1)) as [I1 I2].
  assert (Hrest : Forall (fun d => dline d <= start_line + i + length (r :: rows) - 1)
                         (table_diags start_line (i + 1) rows)).
  { eapply Forall_impl; [|exact I2]. cbn beta. cbn [length]. intros; lia. }
  destruct (find fence_marker r); cbn [app]; split.
  - cbn [map nondecreasing dline fence_in_table d_loc line].
    rewrite Nat.leb_refl. cbn [andb].
    apply (nondecreasing_weaken (start_line + (i + 1))); [lia|exact I1].
  - constructor; [|exact Hrest]. cbn [dline fence_in_table d_loc line length]. lia.
  - apply (nondecreasing_weaken (start_line + (i + 1))); [lia|exact I1].
  - exact Hrest.
Qed.

Lemma table_block_turn lines st :
  idx st < length lines -> TABLE_RE (nth (idx st) lines []) = true ->
  exists st1 b,
    table_block lines st = add_block st1 b
    /\ same_store_coded st st1 /\ content_ok b = true /\ start_line b = idx st + 1
    /\ diag_lines st st1 (idx st1).
Proof.
  intros Hlt Htable. unfold table_block.
  rewrite (skipn_nth lines (idx st) []) by assumption.
  cbn [table_loop]. rewrite Htable.
  rewrite table_loop_eq, parse_table_eq. cbn [app table_rows].
  eexists _, _. split; [reflexivity|]. split; [|split; [reflexivity|split; [reflexivity|]]].
  - repeat split. eexists. split; [reflexivity|].
    eapply Forall_impl; [|apply (table_diags_codes (idx st + 1) 0)].
    intros d Hd. right. right. exact Hd.
  - eexists. split; [reflexivity|]. cbn [idx set_idx set_diags].
    match goal with
    | |- diag_run _ (table_diags _ _ ?rows) _ =>
        destruct (table_diags_run (idx st + 1) 0 rows) as [R1 R2]
    end.
    split.
    + rewrite Nat.add_0_r in R1. exact R1.
    + eapply Forall_impl; [|exact R2]. cbn beta. cbn [length]. intros; lia.
Qed.

Lemma fence_block_turn lines st g1 g2 :
  exists st1 b,
    fence_block lines st g1 g2 = add_block st1 b
    /\ same_store_coded st st1 /\ content_ok b = true /\ start_line b = idx st + 1
    /\ diag_lines st st1 (idx st1).
Proof.
  unfold fence_block.
  pose proof (fence_loop_cursor (length g1) (skipn (idx st + 1) lines) [] (idx st + 1)) as Hcur.
  destruct (fence_loop _ _ _ _) as [[[content closed] ct] i'].
  eexists _, _. split; [reflexivity|]. split; [|split; [|split; [reflexivity|]]].
  - repeat split. cbn [diags set_diags]. destruct closed.
    + exists []. split; [now rewrite app_nil_r|constructor].
    + eexists. split; [reflexivity|]. constructor; [|constructor]. right. left. now split.
  - cbn [content_ok]. destruct (nonempty (strip g2)) eqn:E; [exact E|reflexivity].
  - cbn [diags idx set_diags set_idx]. destruct closed.
    + exists []. rewrite app_nil_r. split; [reflexivity|apply diag_run_nil].
    + eexists. split; [reflexivity|]. cbn [length] in Hcur. split.
      * cbn [map nondecreasing dline d_loc line]. apply andb_true_iff.
        split; [apply Nat.leb_le; lia|reflexivity].
      * constructor; [|constructor]. cbn [dline d_loc line]. lia.
Qed.

(** Every turn of the body loop adds one entry to the store: a blank
    line at the document's body, a content block through [add_block], or
    a section.  No line is passed over. *)
Lemma body_step_turn lines st :
  idx st < length lines -> turn st (body_step lines st).
Proof.
  intros Hlt. unfold body_step.
  assert (Hsame0 : same_store_coded st st).
  { repeat split. exists []. split; [now rewrite app_nil_r|constructor]. }
  destruct (isblank _) eqn:Hblank.
  { apply (turn_blank st
             {| idx := idx st + 1; diags := diags st; root := root st; heap := heap st;
                section_stack := section_stack st |});
      [exact Hsame0|reflexivity|now apply diag_lines_same]. }
  destruct (FENCE_RE _) as [[g1 g2]|] eqn:Hfence.
  { destruct (fence_block_turn lines st g1 g2) as (st1 & b & -> & Hs & Hb & Hl & Hd).
    now apply turn_content. }
  destruct (TABLE_RE _) eqn:Htable.
  { destruct (table_block_turn lines st Hlt Htable) as (st1 & b & -> & Hs & Hb & Hl & Hd).
    now apply turn_content. }
  pose proof (section_block_cases st (nth (idx st) lines [])) as Hsec.
  destruct (SECTION_RE (strip_inline_comment_for_detection _)) as [[[n1 t] ds]|] eqn:Hprobe.
  { destruct Hsec as (d1 & (ds1 & -> & Hds) & ->).
    match goal with
    | |- turn _ (set_idx (place_section ?s1 ?sec _) ?i) => apply (turn_section st s1 sec i)
    end.
    - repeat split. cbn [diags set_diags]. exists ds1. split; [reflexivity|].
      eapply Forall_impl; [|exact Hds]. intros d (Hc & Hs & _). left. now split.
    - repeat split. cbn [s_number]. intros E. apply map_eq_nil in E.
      now apply (split_nonempty "." n1).
    - reflexivity.
    - exists ds1. split; [reflexivity|]. clear - Hds. split.
      + induction Hds as [|d ds (_ & _ & Hd) _ IH]; cbn [map nondecreasing]; [reflexivity|].
        rewrite Hd, Nat.leb_refl. cbn [andb]. exact IH.
      + eapply Forall_impl; [|exact Hds]. intros d (_ & _ & Hd). lia. }
  rewrite Hsec.
  assert (Hst : set_diags st (diags st) = st) by (destruct st; reflexivity).
  rewrite Hst.
  destruct (COMMENT_RE _) eqn:Hcomment.
  { unfold comment_block. apply turn_content;
      [|reflexivity|reflexivity|now apply diag_lines_same].
    repeat split. exists []. split; [now rewrite app_nil_r|constructor]. }
  destruct (is_bullet _) eqn:Hbullet.
  { destruct (bullet_block_turn lines st Hlt Hbullet)
      as (st1 & b & -> & R & H & S & D & Hb & Hl).
    apply turn_content; [|exact Hb|exact Hl|now apply diag_lines_same].
    repeat split; auto. exists []. split; [now rewrite app_nil_r|constructor]. }
  destruct (paragraph_block_turn lines st Hlt Hblank)
    as (st1 & b & -> & R & H & S & D & Hb & Hl).
  { unfold ends_paragraph, starts_fence_table_or_section.
    now rewrite Hfence, Htable, Hprobe, Hcomment, Hbullet. }
  apply turn_content; [|exact Hb|exact Hl|now apply diag_lines_same].
  repeat split; auto. exists []. split; [now rewrite app_nil_r|constructor].
Qed.

(* ===================================================================== *)
(** ** The section tree *)
(* ===================================================================== *)

Lemma number_eqb_eq a b : number_eqb a b = true -> a = b.
Proof.
  revert b; induction a as [|x a IH]; intros [|y b]; cbn; try discriminate; [reflexivity|].
  intros H. apply andb_true_iff in H. destruct H as [H1 H2].
  apply N.eqb_eq in H1. subst. f_equal. now apply IH.
Qed.

Lemma number_eqb_refl a : number_eqb a a = true.
Proof. induction a as [|x a IH]; cbn; [reflexivity|]. now rewrite N.eqb_refl. Qed.

Lemma find_parent_number h pn rs p : find_parent h pn rs = Some p -> number_at h p = pn.
Proof.
  induction rs as [|a rs IH]; cbn; [discriminate|].
  destruct (number_eqb (number_at h a) pn) eqn:E; [|exact IH].
  intros [= <-]. now apply number_eqb_eq.
Qed.

Lemma heap_grows_trans h1 h2 h3 : heap_grows h1 h2 -> heap_grows h2 h3 -> heap_grows h1 h3.
Proof.
  intros H12 H23 r o Ho. destruct (H12 r o Ho) as (o2 & Ho2 & Hn2 & Hl2).
  destruct (H23 r o2 Ho2) as (o3 & Ho3 & Hn3 & Hl3).
  exists o3. split; [exact Ho3|]. split; congruence.
Qed.

Lemma heap_grows_append h a e : heap_grows h (heap_append h a e).
Proof.
  intros r o Ho. rewrite nth_heap_append, Ho.
  destruct (r =? a); eexists; (split; [reflexivity|]); split; reflexivity.
Qed.

Lemma heap_grows_snoc h x : heap_grows h (h ++ [x]).
Proof.
  intros r o Ho. exists o.
  rewrite nth_error_app1 by (apply nth_error_Some; congruence). auto.
Qed.

Lemma entry_fits_grows h h' num e :
  heap_grows h h' -> entry_fits h num e -> entry_fits h' num e.
Proof.
  intros Hg. destruct e as [b|r]; cbn; [auto|].
  intros (o & Ho & Hn). destruct (Hg r o Ho) as (o' & Ho' & Hnum & _).
  exists o'. split; [exact Ho'|]. now rewrite Hnum.
Qed.

Lemma section_fits_grows h h' o :
  heap_grows h h' -> section_fits h o -> section_fits h' o.
Proof.
  intros Hg (H1 & H2 & H3). split; [exact H1|]. split; [exact H2|].
  eapply Forall_impl; [|exact H3]. intros e. now apply entry_fits_grows.
Qed.

Lemma heap_append_fits h a e :
  heap_fits h ->
  (forall o, nth_error h a = Some o -> entry_fits (heap_append h a e) (s_number o) e) ->
  heap_fits (heap_append h a e).
Proof.
  intros Hh He a' o'. rewrite nth_heap_append. destruct (a' =? a) eqn:E.
  - apply Nat.eqb_eq in E. subst a'. destruct (nth_error h a) as [o|] eqn:Ho; [|discriminate].
    cbn [option_map]. intros [= <-]. destruct (Hh a o Ho) as (H1 & H2 & H3).
    split; [exact H1|]. split; [exact H2|]. cbn [with_entry s_body s_number].
    apply Forall_app. split.
    + eapply Forall_impl; [|exact H3]. intros x. apply entry_fits_grows, heap_grows_append.
    + constructor; [|constructor]. now apply He.
  - intros Ho. eapply section_fits_grows; [apply heap_grows_append|]. now apply (Hh a').
Qed.

Lemma heap_snoc_fits h x : heap_fits h -> section_fits (h ++ [x]) x -> heap_fits (h ++ [x]).
Proof.
  intros Hh Hx a o Ho. apply nth_error_snoc in Ho. destruct Ho as [[_ Ho]|[_ ->]]; [|exact Hx].
  eapply section_fits_grows; [apply heap_grows_snoc|]. now apply (Hh a).
Qed.

Lemma add_block_fits st b :
  store_fits st -> content_ok b = true -> store_fits (add_block st b).
Proof.
  intros [Hr Hh] Hb. unfold add_block.
  destruct (top (section_stack st)) as [a|]; split; cbn [append_to root heap].
  - exact Hr.
  - apply heap_append_fits; [exact Hh|]. intros o _. exact Hb.
  - apply Forall_app. split; [exact Hr|]. constructor; [|constructor]. now right.
  - exact Hh.
Qed.

Lemma place_section_fits st sec ln :
  store_fits st -> fresh_section sec -> store_fits (place_section st sec ln).
Proof.
  intros [Hr Hh] (Hl & Hn & Hb). unfold place_section. cbn zeta.
  assert (Hsnoc : heap_fits (heap st ++ [sec])).
  { apply heap_snoc_fits; [exact Hh|]. split; [exact Hl|]. split; [exact Hn|].
    rewrite Hb. constructor. }
  assert (Hroot : Forall root_fits (root st ++ [Ref (length (heap st))])).
  { apply Forall_app. split; [exact Hr|]. constructor; [exact I|constructor]. }
  destruct (nonempty (removelast (s_number sec))) eqn:Epn;
    [destruct (find_parent _ _ _) as [p|] eqn:Ep|];
    split; cbn [append_to root heap diags idx section_stack]; auto.
  apply heap_append_fits; [exact Hsnoc|]. intros o Ho. cbn [entry_fits].
  destruct (heap_grows_append (heap st ++ [sec]) p (Ref (length (heap st)))
              (length (heap st)) sec) as (o' & Ho' & Hnum & _).
  { rewrite nth_error_app2 by lia. now rewrite Nat.sub_diag. }
  exists o'. split; [exact Ho'|]. rewrite Hnum.
  apply find_parent_number in Ep. unfold number_at in Ep.
  apply nth_error_snoc in Ho. destruct Ho as [[_ Ho]|[Hp ->]].
  - now rewrite Ho in Ep.
  - rewrite (proj2 (nth_error_None (heap st) p)) in Ep by lia.
    rewrite <- Ep in Epn. discriminate.
Qed.

Lemma turn_fits st st' : turn st st' -> store_fits st -> store_fits st'.
Proof.
  intros Ht Hfit. destruct Ht as [st1 loc Hs Hl Hdl|st1 b Hs Hb Hl Hdl|st1 sec i Hs Hsec Hl Hdl];
    destruct Hs as (R & H & S & _);
    assert (Hfit1 : store_fits st1) by (unfold store_fits; rewrite R, H; exact Hfit).
  - destruct Hfit1 as [Hr Hh]. split; cbn; [|exact Hh].
    apply Forall_app. split; [exact Hr|]. constructor; [|constructor]. now left.
  - now apply add_block_fits.
  - assert (Hp := place_section_fits st1 sec (line (loc_start (s_loc sec))) Hfit1 Hsec).
    exact Hp.
Qed.

Lemma content_numbered p b : content_ok b = true -> numbered p b = true.
Proof. destruct b; cbn; try discriminate; auto. Qed.

Lemma content_filled i b : content_ok b = true -> filled i b = true.
Proof. destruct b; cbn; try discriminate; auto. Qed.

Lemma resolve_heap_tree H :
  heap_fits H ->
  forall h pre, H = pre ++ h ->
    Forall (fun t => numbered None t = true /\ filled false t = true)
           (resolve_heap h (length pre)).
Proof.
  intros HH. induction h as [|o h IH]; intros pre E; cbn [resolve_heap]; [constructor|].
  assert (E' : H = (pre ++ [o]) ++ h) by (rewrite <- app_assoc; exact E).
  specialize (IH (pre ++ [o]) E'). rewrite length_app in IH. cbn [length] in IH.
  replace (length pre + 1) with (S (length pre)) in IH by lia.
  constructor; [|exact IH].
  assert (Ho : nth_error H (length pre) = Some o).
  { rewrite E, nth_error_app2 by lia. now rewrite Nat.sub_diag. }
  destruct (HH _ _ Ho) as (Hl & Hn & Hb).
  assert (Hch : forall t,
             In t (flat_map (resolve_entry (S (length pre))
                               (resolve_heap h (S (length pre)))) (s_body o)) ->
             numbered (Some (s_number o)) t = true /\ filled true t = true).
  { intros t Ht. apply in_flat_map in Ht. destruct Ht as (e & He & Ht).
    rewrite Forall_forall in Hb. specialize (Hb e He).
    destruct e as [b|r]; cbn [resolve_entry entry_fits] in *.
    - destruct Ht as [<-|[]]. split; [now apply content_numbered|now apply content_filled].
    - destruct (S (length pre) <=? r) eqn:Hle; [|destruct Ht].
      destruct (nth_error (resolve_heap h (S (length pre))) (r - S (length pre)))
        as [t'|] eqn:Hnth; [|destruct Ht].
      destruct Ht as [<-|[]]. apply Nat.leb_le in Hle.
      destruct Hb as (o' & Ho' & Hnum).
      assert (Hh : nth_error h (r - S (length pre)) = Some o').
      { rewrite E' in Ho'.
        rewrite nth_error_app2 in Ho' by (rewrite length_app; cbn [length]; lia).
        rewrite length_app in Ho'. cbn [length] in Ho'.
        replace (r - (length pre + 1)) with (r - S (length pre)) in Ho' by lia. exact Ho'. }
      pose proof (resolve_heap_nth h (S (length pre)) _ _ Hh) as Hsec.
      rewrite Hsec in Hnth. injection Hnth as <-.
      rewrite Forall_forall in IH.
      destruct (IH _ (nth_error_In _ _ Hsec)) as [Hnum' Hfil'].
      cbn [numbered filled] in *. split; [|exact Hfil'].
      rewrite !andb_true_iff in *. rewrite Hnum, number_eqb_refl. tauto. }
  cbn [numbered filled]. rewrite Hl, Nat.eqb_refl, (nonempty_true _ Hn). cbn [andb].
  split; apply forallb_forall; intros t Ht; now apply Hch.
Qed.

Lemma resolve_body_tree st :
  store_fits st ->
  Forall (fun t => numbered None t = true /\ filled false t = true)
         (resolve_body (heap st) (root st)).
Proof.
  intros [Hr Hh].
  pose proof (resolve_heap_tree (heap st) Hh (heap st) [] eq_refl) as Hheap.
  cbn [length] in Hheap. unfold resolve_body. apply Forall_forall. intros t Ht.
  apply in_flat_map in Ht. destruct Ht as (e & He & Ht).
  rewrite Forall_forall in Hr. specialize (Hr e He).
  destruct e as [b|r]; cbn [resolve_entry root_fits] in *.
  - destruct Ht as [<-|[]]. destruct Hr as [Hb|Hb].
    + destruct b; try discriminate. split; reflexivity.
    + split; [now apply content_numbered|now apply content_filled].
  - cbn [Nat.leb] in Ht. rewrite Nat.sub_0_r in Ht.
    destruct (nth_error _ r) eqn:E; [|destruct Ht]. destruct Ht as [<-|[]].
    rewrite Forall_forall in Hheap. apply Hheap. eapply nth_error_In; eauto.
Qed.

Lemma prologue_store lines h m st0 :
  parse_prologue lines = Some (h, m, st0) ->
  root st0 = [] /\ heap st0 = [] /\ section_stack st0 = [].
Proof.
  unfold parse_prologue.
  destruct (first_non_blank_from lines 0); [|discriminate].
  destruct (strip_illegal_inline_comment _ _ _) as [hl d0].
  destruct (parse_header _ _ _) as [hd d1].
  destruct (metadata_loop _ _ _ _) as [[md i1] d2].
  intros [= _ _ <-]. auto.
Qed.

Lemma document_tree lines :
  Forall (fun t => numbered None t = true /\ filled false t = true)
         (body (parse_document lines)).
Proof.
  unfold parse_document.
  destruct (parse_prologue lines) as [[[h m] st0]|] eqn:Hp; [|constructor].
  cbn [body]. apply resolve_body_tree. apply body_loop_invariant.
  - intros st Hlt Hfit. eapply turn_fits; [|exact Hfit]. now apply body_step_turn.
  - destruct (prologue_store lines h m st0 Hp) as (R & H & _).
    split; [rewrite R; constructor|rewrite H; intros [|a] o Ho; discriminate].
Qed.

(** X6. In the document parsed from any input, every section, at any
    depth, has a number of at least one component and a level equal to
    the number of components; a section that is in the body of another
    has that section's number followed by one more component. *)
Theorem X6_sections_numbered (lines : list str) :
  forallb (numbered None) (body (parse_document lines)) = true.
Proof.
  apply forallb_forall. intros t Ht.
  pose proof (document_tree lines) as H. rewrite Forall_forall in H. now apply H.
Qed.

(** X7. In the document parsed from any input, no blank line is in the
    body of a section (blank lines are appended to the document's body,
    whatever sections are open), and at any depth every other block has
    content: the info string of a fenced block is absent rather than
    empty, the header row of a table has a location, a list has at least
    one item, each with one of the markers "-", "*", "+", at least one
    inline node and a continuation that is absent rather than empty, and
    a paragraph has at least one inline node. *)
Theorem X7_blocks_filled (lines : list str) :
  forallb (filled false) (body (parse_document lines)) = true.
Proof.
  apply forallb_forall. intros t Ht.
  pose proof (document_tree lines) as H. rewrite Forall_forall in H. now apply H.
Qed.

(* ===================================================================== *)
(** ** The document's body and the missing parents *)
(* ===================================================================== *)

Lemma dropwhile_snoc_all {A} (p q : A -> bool) l x :
  forallb q (dropwhile p l) = true -> q x = true ->
  forallb q (dropwhile p (l ++ [x])) = true.
Proof.
  induction l as [|y l IH]; cbn; intros H Hx.
  - destruct (p x); cbn; [reflexivity|now rewrite Hx].
  - destruct (p y); [now apply IH|]. cbn in *.
    apply andb_true_iff in H. destruct H as [H1 H2]. rewrite H1. cbn.
    rewrite forallb_app, H2. cbn. now rewrite Hx.
Qed.

Lemma nonempty_removelast {A} (l : list A) : nonempty (removelast l) = (2 <=? length l).
Proof. destruct l as [|a [|b l]]; reflexivity. Qed.

Lemma spm_entries_grows h h' l :
  heap_grows h h' -> (forall r, In (Ref r) l -> r < length h) ->
  flat_map (spm_entry h') l = flat_map (spm_entry h) l.
Proof.
  intros Hg. induction l as [|e l IH]; intros Hl; cbn [flat_map]; [reflexivity|].
  rewrite IH by (intros r Hr; apply Hl; now right). f_equal.
  destruct e as [b|r]; cbn [spm_entry]; [reflexivity|].
  assert (Hr : r < length h) by (apply Hl; now left).
  destruct (nth_error h r) as [o|] eqn:Ho; [|apply nth_error_None in Ho; lia].
  destruct (Hg r o Ho) as (o' & -> & -> & ->). reflexivity.
Qed.

Lemma turn_diags_no_spm ds : Forall turn_diag ds -> filter is_spm ds = [].
Proof.
  induction 1 as [|d ds Hd _ IH]; cbn [filter]; [reflexivity|].
  unfold is_spm at 1. destruct Hd as [[-> _]|[[-> _]|[-> _]]]; exact IH.
Qed.

Lemma root_inv_same st st1 :
  same_store_coded st st1 -> root_inv st -> root_inv st1.
Proof.
  intros (R & H & S & ds & Hd & Hds) (H1 & H2 & H3 & H4).
  unfold root_inv, roots_wf. rewrite R, H, S, Hd, filter_app, (turn_diags_no_spm ds Hds).
  rewrite app_nil_r. auto.
Qed.

Lemma root_inv_blank st loc :
  root_inv st -> root_inv (append_to st None (Leaf (BlankLine loc))).
Proof.
  intros (H1 & H2 & H3 & H4). unfold root_inv. cbn [append_to root heap diags section_stack].
  split; [|split; [|split]].
  - apply (append_to_roots st None); [discriminate|exact H1].
  - intros E. apply Forall_app. split; [now apply H2|]. now constructor.
  - now apply dropwhile_snoc_all.
  - rewrite flat_map_app. cbn. now rewrite app_nil_r.
Qed.

Lemma top_nil {A} (l : list A) : top l = None -> l = [].
Proof.
  unfold top. destruct (rev l) eqn:E; [|discriminate]. intros _.
  apply (f_equal (@rev A)) in E. now rewrite rev_involutive in E.
Qed.

Lemma root_inv_add st b :
  root_inv st -> root_inv (add_block st b).
Proof.
  intros (H1 & H2 & H3 & H4). unfold add_block.
  destruct (top (section_stack st)) as [a|] eqn:Htop; unfold root_inv;
    cbn [append_to root heap diags section_stack].
  - split; [|split; [|split]]; auto.
    + apply (append_to_roots st (Some a) (Leaf b)); [discriminate|exact H1].
    + rewrite H4. symmetry. apply spm_entries_grows; [apply heap_grows_append|exact H1].
  - apply top_nil in Htop. specialize (H2 Htop).
    assert (Hall : Forall (fun e => is_ref e = false) (root st ++ [Leaf b])).
    { apply Forall_app. split; [exact H2|now constructor]. }
    split; [|split; [|split]].
    + apply (append_to_roots st None (Leaf b)); [discriminate|exact H1].
    + intros _. exact Hall.
    + rewrite dropwhile_all; [reflexivity|].
      eapply Forall_impl; [|exact Hall]. intros e He. cbn beta. now rewrite He.
    + rewrite flat_map_app. cbn. now rewrite app_nil_r.
Qed.

Lemma root_inv_section st sec :
  root_inv st -> root_inv (place_section st sec (line (loc_start (s_loc sec)))).
Proof.
  intros (H1 & H2 & H3 & H4).
  pose proof (place_section_roots st sec (line (loc_start (s_loc sec))) H1) as Hroots.
  split; [exact Hroots|]. clear Hroots.
  unfold place_section. cbn zeta.
  assert (Hold : flat_map (spm_entry (heap st ++ [sec])) (root st)
                 = flat_map (spm_entry (heap st)) (root st)).
  { apply spm_entries_grows; [apply heap_grows_snoc|exact H1]. }
  assert (Hnew : spm_entry (heap st ++ [sec]) (Ref (length (heap st)))
                 = if nonempty (removelast (s_number sec))
                   then [spm_of (s_number sec) (s_loc sec)] else []).
  { cbn [spm_entry]. rewrite nth_error_app2 by lia. rewrite Nat.sub_diag. cbn [nth_error].
    now rewrite nonempty_removelast. }
  destruct (nonempty (removelast (s_number sec))) eqn:Epn;
    [destruct (find_parent _ _ _) as [p|] eqn:Ep|];
    cbn [append_to root heap diags idx section_stack].
  - split; [intros E; destruct (rev (pop_loop _ _ _)); discriminate|].
    split; [exact H3|]. rewrite H4.
    symmetry. apply spm_entries_grows; [|exact H1].
    eapply heap_grows_trans; [apply heap_grows_snoc|apply heap_grows_append].
  - split; [intros E; destruct (rev (pop_loop _ _ _)); discriminate|].
    split; [now apply dropwhile_snoc_all|].
    rewrite filter_app, flat_map_app, Hold, H4. cbn [flat_map]. rewrite Hnew, app_nil_r.
    reflexivity.
  - split; [intros E; destruct (rev (pop_loop _ _ _)); discriminate|].
    split; [now apply dropwhile_snoc_all|].
    rewrite flat_map_app, Hold, H4. cbn [flat_map]. rewrite Hnew. cbn [app].
    now rewrite app_nil_r.
Qed.

Lemma turn_root_inv st st' : turn st st' -> root_inv st -> root_inv st'.
Proof.
  intros Ht Hinv. destruct Ht as [st1 loc Hs Hl Hdl|st1 b Hs Hb Hl Hdl|st1 sec i Hs Hsec Hl Hdl];
    pose proof (root_inv_same st st1 Hs Hinv) as Hinv1.
  - now apply root_inv_blank.
  - now apply root_inv_add.
  - assert (Hp := root_inv_section st1 sec Hinv1). exact Hp.
Qed.

Lemma metadata_loop_diags rest i md d :
  exists ds,
    snd (metadata_loop rest i md d) = d ++ ds
    /\ Forall (fun x => code x = INLINE_COMMENT_ILLEGAL /\ severity x = warning) ds.
Proof.
  revert i md d; induction rest as [|l rest IH]; intros i md d; cbn [metadata_loop].
  - exists []. split; [now rewrite app_nil_r|constructor].
  - destruct (isblank l); [exists []; split; [now rewrite app_nil_r|constructor]|].
    destruct (METADATA_RE l) as [?|]; [|exists []; split; [now rewrite app_nil_r|constructor]].
    destruct (strip_illegal_spec l (i + 1) d) as [_ Hcases].
    destruct (strip_illegal_inline_comment l (i + 1) d) as [cl d1]. cbn [fst snd] in Hcases.
    assert (Hd1 : exists ds1, d1 = d ++ ds1
                  /\ Forall (fun x => code x = INLINE_COMMENT_ILLEGAL /\ severity x = warning)
                            ds1).
    { destruct Hcases as [H|(k & r & _ & _ & _ & H)].
      - injection H as _ ->. exists []. split; [now rewrite app_nil_r|constructor].
      - subst d1. eexists. split; [reflexivity|]. repeat constructor. }
    destruct Hd1 as (ds1 & -> & Hds1).
    destruct (METADATA_RE cl) as [[g1 g2]|]; [|exists ds1; split; [reflexivity|exact Hds1]].
    match goal with
    | |- context [metadata_loop rest ?i' ?md' ?d'] =>
        destruct (IH i' md' d') as (ds2 & Hd2 & Hds2)
    end.
    exists (ds1 ++ ds2). rewrite Hd2, app_assoc. split; [reflexivity|].
    apply Forall_app. now split.
Qed.

(** The diagnostics of the header and of the metadata: none for a
    missing parent; HEADER_INVALID there exactly when the header is
    absent. *)
Lemma prologue_diags lines h m st0 :
  parse_prologue lines = Some (h, m, st0) ->
  Forall (fun d => severity d = severity_of (code d)
                   /\ (header_code d = true -> h = None)
                   /\ is_spm d = false) (diags st0)
  /\ (h = None -> existsb header_code (diags st0) = true).
Proof.
  unfold parse_prologue.
  destruct (first_non_blank_from lines 0) as [k|]; [|discriminate].
  destruct (strip_illegal_spec (nth k lines []) (k + 1) []) as [_ Hcases].
  destruct (strip_illegal_inline_comment _ _ _) as [hl d0]. cbn [fst snd] in Hcases.
  assert (Hd0 : Forall (fun x => code x = INLINE_COMMENT_ILLEGAL /\ severity x = warning) d0).
  { destruct Hcases as [H|(k' & r & _ & _ & _ & H)].
    - injection H as _ ->. constructor.
    - subst d0. repeat constructor. }
  clear Hcases. unfold parse_header.
  destruct (HEADER_RE hl) as [[g1 g2]|].
  - pose proof (metadata_loop_diags (skipn (k + 1) lines) (k + 1) [] d0) as (ds & Hd & Hds).
    destruct (metadata_loop _ _ _ _) as [[md i1] d2]. cbn [snd] in Hd. subst d2.
    intros [= <- <- <-]. cbn [diags]. split; [|discriminate].
    apply Forall_app. split; (eapply Forall_impl; [|eassumption]);
      intros d [Hc Hs]; unfold header_code, is_spm; rewrite Hc, Hs; repeat split; discriminate.
  - match goal with
    | |- context [metadata_loop ?r ?i ?md ?d] =>
        pose proof (metadata_loop_diags r i md d) as (ds & Hd & Hds)
    end.
    destruct (metadata_loop _ _ _ _) as [[md i1] d2]. cbn [snd] in Hd. subst d2.
    intros [= <- <- <-]. cbn [diags]. split.
    + rewrite !Forall_app. split; [split|].
      * eapply Forall_impl; [|exact Hd0].
        intros d [Hc Hs]; unfold header_code, is_spm; rewrite Hc, Hs; repeat split.
      * constructor; [|constructor]. repeat split.
      * eapply Forall_impl; [|exact Hds].
        intros d [Hc Hs]; unfold header_code, is_spm; rewrite Hc, Hs; repeat split.
    + intros _. rewrite !existsb_app. cbn. now rewrite orb_true_r.
Qed.

Lemma document_root_inv lines h m st0 :
  parse_prologue lines = Some (h, m, st0) ->
  root_inv (body_loop lines st0) /\ store_fits (body_loop lines st0).
Proof.
  intros Hp. apply (body_loop_invariant lines (fun s => root_inv s /\ store_fits s)).
  - intros st Hlt [Hinv Hfit]. pose proof (body_step_turn lines st Hlt) as Ht.
    split; [eapply turn_root_inv|eapply turn_fits]; eauto.
  - destruct (prologue_store lines h m st0 Hp) as (R & H & S).
    destruct (prologue_diags lines h m st0 Hp) as [Hd _].
    split; [|split; [rewrite R; constructor|rewrite H; intros [|a] o Ho; discriminate]].
    unfold root_inv, roots_wf. rewrite R, H. cbn. split; [intros r []|].
    split; [constructor|]. split; [reflexivity|].
    induction Hd as [|d ds (_ & _ & Hd) _ IH]; cbn [filter]; [reflexivity|].
    now rewrite Hd.
Qed.

(** The blocks of the document's body, read back from the store one by
    one. *)
Lemma resolve_root st :
  roots_wf st -> Forall root_fits (root st) ->
  Forall (fun e => exists t,
            resolve_entry 0 (resolve_heap (heap st) 0) e = [t]
            /\ is_section t = is_ref e
            /\ (is_section t || is_blank_line t) = blank_or_ref e
            /\ spm_block t = spm_entry (heap st) e) (root st).
Proof.
  intros Hw Hr. apply Forall_forall. intros e He.
  rewrite Forall_forall in Hr. specialize (Hr e He).
  destruct e as [b|r]; cbn [resolve_entry root_fits] in *.
  - exists b. split; [reflexivity|].
    destruct Hr as [Hb|Hb]; destruct b; try discriminate; repeat split.
  - specialize (Hw r He).
    destruct (nth_error (heap st) r) as [o|] eqn:Ho; [|apply nth_error_None in Ho; lia].
    pose proof (resolve_heap_nth (heap st) 0 r o Ho) as Hsec.
    cbn [Nat.leb]. rewrite Nat.sub_0_r, Hsec. eexists. split; [reflexivity|].
    cbn [is_section is_ref blank_or_ref spm_block spm_entry orb]. rewrite Ho. repeat split.
Qed.

Lemma resolved_all h es :
  Forall (fun e => exists t,
            resolve_entry 0 (resolve_heap h 0) e = [t]
            /\ is_section t = is_ref e
            /\ (is_section t || is_blank_line t) = blank_or_ref e
            /\ spm_block t = spm_entry h e) es ->
  forallb blank_or_ref es = true ->
  forallb (fun b => is_section b || is_blank_line b)
          (flat_map (resolve_entry 0 (resolve_heap h 0)) es) = true.
Proof.
  induction 1 as [|e es (t & Hres & Hs & Hb & Hspm) _ IH]; cbn [flat_map forallb];
    [reflexivity|].
  intros H. apply andb_true_iff in H. destruct H as [He Hes].
  rewrite Hres. cbn [app forallb]. now rewrite Hb, He, IH.
Qed.

Lemma resolved_shape h es :
  Forall (fun e => exists t,
            resolve_entry 0 (resolve_heap h 0) e = [t]
            /\ is_section t = is_ref e
            /\ (is_section t || is_blank_line t) = blank_or_ref e
            /\ spm_block t = spm_entry h e) es ->
  forallb blank_or_ref (dropwhile (fun e => negb (is_ref e)) es) = true ->
  forallb (fun b => is_section b || is_blank_line b)
          (dropwhile (fun b => negb (is_section b))
                     (flat_map (resolve_entry 0 (resolve_heap h 0)) es)) = true.
Proof.
  induction 1 as [|e es (t & Hres & Hs & Hb & Hspm) Hes IH]; cbn [flat_map dropwhile];
    [reflexivity|].
  rewrite Hres. cbn [app dropwhile]. rewrite Hs. destruct (is_ref e); cbn [negb].
  - cbn [forallb]. intros H. apply andb_true_iff in H. destruct H as [He Hrest].
    now rewrite Hb, He, (resolved_all h es Hes Hrest).
  - exact IH.
Qed.

Lemma resolved_spm h es :
  Forall (fun e => exists t,
            resolve_entry 0 (resolve_heap h 0) e = [t]
            /\ is_section t = is_ref e
            /\ (is_section t || is_blank_line t) = blank_or_ref e
            /\ spm_block t = spm_entry h e) es ->
  flat_map spm_block (flat_map (resolve_entry 0 (resolve_heap h 0)) es)
  = flat_map (spm_entry h) es.
Proof.
  induction 1 as [|e es (t & Hres & Hs & Hb & Hspm) _ IH]; cbn [flat_map]; [reflexivity|].
  rewrite Hres, flat_map_app, IH. cbn [flat_map]. now rewrite Hspm, app_nil_r.
Qed.

Lemma diags_of_parse lines h m st0 :
  parse_prologue lines = Some (h, m, st0) ->
  diags_of (parse_document lines) = diags (body_loop lines st0).
Proof.
  intros Hp. unfold parse_document, diags_of. rewrite Hp. cbn [diagnostics].
  destruct (diags (body_loop lines st0)); reflexivity.
Qed.

(** X8. In the body of the document parsed from any input, the blocks
    from the first section on are sections and blank lines only: once a
    section is open, every other block goes into a section. *)
Theorem X8_sections_close_the_body (lines : list str) :
  forallb (fun b => is_section b || is_blank_line b)
          (dropwhile (fun b => negb (is_section b)) (body (parse_document lines))) = true.
Proof.
  unfold parse_document.
  destruct (parse_prologue lines) as [[[h m] st0]|] eqn:Hp; [|reflexivity].
  cbn [body]. destruct (document_root_inv lines h m st0 Hp) as [(Hw & _ & Hshape & _) [Hr _]].
  unfold resolve_body. apply resolved_shape; [|exact Hshape]. now apply resolve_root.
Qed.

(** X9. The SECTION_PARENT_MISSING diagnostics of a document are, in
    order, those of the sections of the document's body whose number has
    two components or more: each a warning at column 1 of the line of the
    section's heading, with the message that names the number without
    its last component.  A section with a one-component number and a
    section inside another section have none. *)
Theorem X9_missing_parent_diagnostics (lines : list str) :
  filter is_spm (diags_of (parse_document lines))
  = flat_map spm_block (body (parse_document lines)).
Proof.
  destruct (parse_prologue lines) as [[[h m] st0]|] eqn:Hp.
  - rewrite (diags_of_parse lines h m st0 Hp). unfold parse_document. rewrite Hp. cbn [body].
    destruct (document_root_inv lines h m st0 Hp) as [(Hw & _ & _ & Hspm) [Hr _]].
    rewrite Hspm. unfold resolve_body. symmetry. apply resolved_spm. now apply resolve_root.
  - unfold parse_document. rewrite Hp. reflexivity.
Qed.

(* ===================================================================== *)
(** ** The diagnostics by code *)
(* ===================================================================== *)

Lemma turn_diag_body d : turn_diag d -> body_diag d.
Proof.
  unfold body_diag, header_code.
  intros [[-> ->]|[[-> ->]|[-> ->]]]; split; reflexivity.
Qed.

Lemma place_section_diags st sec ln :
  exists ds, diags (place_section st sec ln) = diags st ++ ds /\ Forall body_diag ds.
Proof.
  unfold place_section. cbn [diags]. rewrite diags_append_to. cbn [diags].
  destruct (nonempty _); [|exists []; split; [now rewrite app_nil_r|constructor]].
  destruct (find_parent _ _ _); [exists []; split; [now rewrite app_nil_r|constructor]|].
  eexists. split; [reflexivity|]. constructor; [|constructor]. split; reflexivity.
Qed.

Lemma turn_diags st st' :
  turn st st' -> exists ds, diags st' = diags st ++ ds /\ Forall body_diag ds.
Proof.
  intros Ht. destruct Ht as [st1 loc Hs Hl Hdl|st1 b Hs Hb Hl Hdl|st1 sec i Hs Hsec Hl Hdl];
    destruct Hs as (_ & _ & _ & ds & Hd & Hds);
    assert (Hds' : Forall body_diag ds)
      by (eapply Forall_impl; [|exact Hds]; intros d; apply turn_diag_body).
  - rewrite diags_append_to. eauto.
  - unfold add_block. rewrite diags_append_to. eauto.
  - destruct (place_section_diags st1 sec (line (loc_start (s_loc sec)))) as (ds2 & Hd2 & Hds2).
    exists (ds ++ ds2). cbn [diags set_idx]. rewrite Hd2, Hd, app_assoc.
    split; [reflexivity|]. apply Forall_app. now split.
Qed.

Lemma document_diags lines h m st0 :
  parse_prologue lines = Some (h, m, st0) -> header_inv h (body_loop lines st0).
Proof.
  intros Hp. apply body_loop_invariant.
  - intros st Hlt [Hall Hex].
    destruct (turn_diags st _ (body_step_turn lines st Hlt)) as (ds & Hd & Hds).
    unfold header_inv. rewrite Hd. split.
    + apply Forall_app. split; [exact Hall|].
      eapply Forall_impl; [|exact Hds]. intros d [Hs Hc]. split; [exact Hs|].
      rewrite Hc. discriminate.
    + intros E. rewrite existsb_app, (Hex E). reflexivity.
  - destruct (prologue_diags lines h m st0 Hp) as [Hall Hex]. split; [|exact Hex].
    eapply Forall_impl; [|exact Hall]. intros d (Hs & Hc & _). now split.
Qed.

(** X10. The document parsed from any input has no header exactly when
    its diagnostics hold one with the code EMPTY or HEADER_INVALID: no
    later stage reports either code, and a header that is there is never
    reported as invalid. *)
Theorem X10_header_absent_iff (lines : list str) :
  header (parse_document lines) = None
  <-> existsb header_code (diags_of (parse_document lines)) = true.
Proof.
  destruct (parse_prologue lines) as [[[h m] st0]|] eqn:Hp.
  - rewrite (diags_of_parse lines h m st0 Hp). unfold parse_document. rewrite Hp.
    cbn [header]. destruct (document_diags lines h m st0 Hp) as [Hall Hex].
    split; [exact Hex|]. intros H. apply existsb_exists in H. destruct H as (d & Hd & Hc).
    rewrite Forall_forall in Hall. now apply (Hall d Hd).
  - unfold parse_document. rewrite Hp. split; reflexivity.
Qed.

(** X11. In the diagnostics of any document the severity goes with the
    code: INLINE_COMMENT_ILLEGAL and SECTION_PARENT_MISSING are warnings,
    every other code is an error. *)
Theorem X11_severity_by_code (lines : list str) :
  Forall (fun d => severity d = severity_of (code d)) (diags_of (parse_document lines)).
Proof.
  destruct (parse_prologue lines) as [[[h m] st0]|] eqn:Hp.
  - rewrite (diags_of_parse lines h m st0 Hp).
    destruct (document_diags lines h m st0 Hp) as [Hall _].
    eapply Forall_impl; [|exact Hall]. now intros d [Hs _].
  - unfold parse_document, diags_of. rewrite Hp. repeat constructor.
Qed.

(* ===================================================================== *)
(** ** The lines of the blocks *)
(* ===================================================================== *)

Lemma increasing_snoc lo l i x :
  increasing lo l = true -> Forall (fun y => y <= i) l -> lo <= i -> i < x ->
  increasing lo (l ++ [x]) = true.
Proof.
  revert lo; induction l as [|y l IH]; intros lo H Hall Hlo Hx; cbn [app increasing] in *.
  - apply andb_true_iff. split; [apply Nat.ltb_lt; lia|reflexivity].
  - apply andb_true_iff in H. destruct H as [H1 H2]. inversion Hall; subst.
    rewrite H1. cbn [andb]. apply IH; auto.
Qed.

Lemma entry_line_grows h h' e :
  heap_grows h h' -> (forall r, e = Ref r -> r < length h) ->
  entry_line h' e = entry_line h e.
Proof.
  intros Hg Hv. destruct e as [b|r]; cbn [entry_line]; [reflexivity|].
  specialize (Hv r eq_refl).
  destruct (nth_error h r) as [o|] eqn:Ho; [|apply nth_error_None in Ho; lia].
  destruct (Hg r o Ho) as (o' & -> & _ & Hl). unfold heading_line. now rewrite Hl.
Qed.

Lemma map_entry_line_grows h h' l :
  heap_grows h h' -> refs_valid h l -> map (entry_line h') l = map (entry_line h) l.
Proof.
  intros Hg Hv. apply map_ext_in. intros e He. apply entry_line_grows; [exact Hg|].
  intros r ->. now apply Hv.
Qed.

Lemma Forall_entry_line_grows h h' l i i' :
  heap_grows h h' -> refs_valid h l -> i <= i' ->
  Forall (fun e => entry_line h e <= i) l -> Forall (fun e => entry_line h' e <= i') l.
Proof.
  intros Hg Hv Hi H. rewrite Forall_forall in *. intros e He.
  rewrite (entry_line_grows h h' e Hg) by (intros r ->; now apply Hv).
  specialize (H e He). lia.
Qed.

Lemma root_lines_grows lo i i' h h' rt :
  heap_grows h h' -> refs_valid h rt -> i <= i' ->
  root_lines lo i h rt -> root_lines lo i' h' rt.
Proof.
  intros Hg Hv Hi (H0 & H1 & H2). split; [lia|]. split.
  - now rewrite (map_entry_line_grows h h' rt Hg Hv).
  - now apply (Forall_entry_line_grows h h' rt i i').
Qed.

Lemma body_lines_grows i i' h h' o :
  heap_grows h h' -> refs_valid h (s_body o) -> i <= i' ->
  body_lines i h o -> body_lines i' h' o.
Proof.
  intros Hg Hv Hi (H1 & H2 & H3). split; [lia|]. split.
  - now rewrite (map_entry_line_grows h h' _ Hg Hv).
  - now apply (Forall_entry_line_grows h h' _ i i').
Qed.

Lemma Forall_map_le {A} (f : A -> nat) l i :
  Forall (fun e => f e <= i) l -> Forall (fun y => y <= i) (map f l).
Proof. intros H. apply Forall_map. exact H. Qed.

(** An entry that starts on the next line goes to the end of the
    document's body. *)
Lemma root_lines_snoc lo i h rt e :
  root_lines lo i h rt -> entry_line h e = i + 1 -> root_lines lo (i + 1) h (rt ++ [e]).
Proof.
  intros (H0 & H1 & H2) He. split; [lia|]. split.
  - rewrite map_app. cbn [map]. apply (increasing_snoc lo _ i); auto; try lia.
    now apply Forall_map_le.
  - apply Forall_app. split.
    + eapply Forall_impl; [|exact H2]. cbn beta. intros; lia.
    + constructor; [lia|constructor].
Qed.

Lemma nth_heap_append_inv h a e a' o' :
  nth_error (heap_append h a e) a' = Some o' ->
  exists o, nth_error h a' = Some o /\ heading_line o' = heading_line o
            /\ (o' = o \/ (a' = a /\ s_body o' = s_body o ++ [e])).
Proof.
  rewrite nth_heap_append. destruct (a' =? a) eqn:E.
  - apply Nat.eqb_eq in E. destruct (nth_error h a') as [o|]; [|discriminate].
    intros [= <-]. exists o. split; [reflexivity|]. split; [reflexivity|]. right. now split.
  - intros H. exists o'. auto.
Qed.

(** An entry that starts on the next line goes to the end of a section's
    body; a block goes to the section made last. *)
Lemma heap_lines_append i h a e :
  heap_lines (i + 1) h ->
  (forall o, nth_error h a = Some o -> body_lines i h o) ->
  heap_valid h ->
  entry_line h e = i + 1 ->
  (forall r, e = Ref r -> r < length h) ->
  (forall b, e = Leaf b -> length h <= a + 1) ->
  heap_lines (i + 1) (heap_append h a e).
Proof.
  intros (H1 & H2 & H3) Ha Hv He Hr Hb.
  pose proof (heap_grows_append h a e) as Hg.
  split; [|split].
  - intros a0 o0 Ho0. apply nth_heap_append_inv in Ho0.
    destruct Ho0 as (o & Ho & Hh & [->|[-> Hbody]]).
    + apply (body_lines_grows (i + 1) (i + 1) h); auto; [now apply (Hv a0)|now apply (H1 a0)].
    + destruct (Ha o Ho) as (B1 & B2 & B3). unfold body_lines. rewrite Hh, Hbody.
      split; [lia|]. split.
      * rewrite map_app. cbn [map].
        rewrite (map_entry_line_grows h _ _ Hg (Hv a o Ho)).
        rewrite (entry_line_grows h _ e Hg Hr).
        apply (increasing_snoc _ _ i); auto; try lia. now apply Forall_map_le.
      * apply Forall_app. split.
        -- apply (Forall_entry_line_grows h _ _ i (i + 1)); auto; [now apply (Hv a)|lia].
        -- constructor; [|constructor]. rewrite (entry_line_grows h _ e Hg Hr). lia.
  - intros a0 o0 a' o' Hlt Ho0 Ho'.
    apply nth_heap_append_inv in Ho0. destruct Ho0 as (x & Hx & -> & _).
    apply nth_heap_append_inv in Ho'. destruct Ho' as (x' & Hx' & -> & _).
    now apply (H2 a0 x a' x').
  - intros a0 o0 b a' o' Ho0 Hin Hlt Ho'.
    apply nth_heap_append_inv in Ho'. destruct Ho' as (x' & Hx' & -> & _).
    apply nth_heap_append_inv in Ho0. destruct Ho0 as (x & Hx & _ & [->|[-> Hbody]]).
    + now apply (H3 a0 x b a' x').
    + rewrite Hbody in Hin. apply in_app_or in Hin. destruct Hin as [Hin|[Hin|[]]].
      * now apply (H3 a x b a' x').
      * specialize (Hb b Hin).
        assert (a' < length h) by (apply nth_error_Some; congruence). lia.
Qed.

(** A section whose heading is on the next line goes to the end of the
    store. *)
Lemma heap_lines_snoc i h sec :
  heap_lines i h -> heap_valid h ->
  heading_line sec = i + 1 -> s_body sec = [] ->
  heap_lines (i + 1) (h ++ [sec]) /\ heap_valid (h ++ [sec]).
Proof.
  intros (H1 & H2 & H3) Hv Hh Hbody.
  pose proof (heap_grows_snoc h sec) as Hg.
  split; [split; [|split]|].
  - intros a o Ho. apply nth_error_snoc in Ho. destruct Ho as [[_ Ho]|[_ ->]].
    + apply (body_lines_grows i (i + 1) h); auto; [now apply (Hv a)|lia|now apply (H1 a)].
    + unfold body_lines. rewrite Hbody, Hh. cbn. split; [lia|]. split; [reflexivity|constructor].
  - intros a o a' o' Hlt Ho Ho'.
    apply nth_error_snoc in Ho. apply nth_error_snoc in Ho'.
    destruct Ho as [[Ha Ho]|[Ha ->]], Ho' as [[Ha' Ho']|[Ha' ->]]; try lia.
    + now apply (H2 a o a' o').
    + destruct (H1 a o Ho) as (B1 & _). lia.
  - intros a o b a' o' Ho Hin Hlt Ho'.
    apply nth_error_snoc in Ho. apply nth_error_snoc in Ho'.
    destruct Ho as [[Ha Ho]|[Ha ->]], Ho' as [[Ha' Ho']|[Ha' ->]]; try lia.
    + now apply (H3 a o b a' o').
    + destruct (H1 a o Ho) as (_ & _ & B3). rewrite Forall_forall in B3.
      specialize (B3 (Leaf b) Hin). cbn [entry_line] in B3. lia.
  - intros a o Ho r Hr. rewrite length_app. cbn [length].
    apply nth_error_snoc in Ho. destruct Ho as [[_ Ho]|[_ ->]].
    + specialize (Hv a o Ho r Hr). lia.
    + rewrite Hbody in Hr. destruct Hr.
Qed.

Lemma heap_lines_mono i i' h : i <= i' -> heap_lines i h -> heap_lines i' h.
Proof.
  intros Hi (H1 & H2 & H3). split; [|split]; auto.
  intros a o Ho. destruct (H1 a o Ho) as (B1 & B2 & B3). split; [lia|]. split; [exact B2|].
  eapply Forall_impl; [|exact B3]. cbn beta. intros; lia.
Qed.

Lemma root_lines_mono lo i i' h rt :
  i <= i' -> root_lines lo i h rt -> root_lines lo i' h rt.
Proof.
  intros Hi (H0 & H1 & H2). split; [lia|]. split; [exact H1|].
  eapply Forall_impl; [|exact H2]. cbn beta. intros; lia.
Qed.

Lemma top_snoc {A} (l : list A) x : top (l ++ [x]) = Some x.
Proof. unfold top. now rewrite rev_app_distr. Qed.

Lemma store_wf_valid st : store_wf st -> heap_valid (heap st).
Proof. intros (H1 & _) a o Ho r Hr. now destruct (H1 a o r Ho Hr). Qed.

Lemma line_inv_blank lo st loc i1 d1 :
  roots_wf st -> line_inv lo st -> line (loc_start loc) = idx st + 1 -> idx st + 1 <= i1 ->
  line_inv lo (append_to (set_diags (set_idx st i1) d1) None (Leaf (BlankLine loc))).
Proof.
  intros Hr (L1 & L2 & L3) Hl Hi.
  split; [|split]; cbn [set_idx set_diags append_to idx root heap section_stack].
  - apply (root_lines_mono lo (idx st + 1)); [exact Hi|]. now apply root_lines_snoc.
  - apply (heap_lines_mono (idx st)); [lia|exact L2].
  - exact L3.
Qed.

Lemma line_inv_add lo st b i1 d1 :
  store_wf st -> roots_wf st -> line_inv lo st -> start_line b = idx st + 1 ->
  idx st + 1 <= i1 ->
  line_inv lo (add_block (set_diags (set_idx st i1) d1) b).
Proof.
  intros Hwf Hr (L1 & L2 & L3) Hl Hi. unfold add_block.
  cbn [set_idx set_diags section_stack].
  destruct (top (section_stack st)) as [a|] eqn:Htop;
    (split; [|split]); cbn [set_idx set_diags append_to idx root heap section_stack].
  - apply (root_lines_grows lo (idx st) i1 (heap st)); auto; [apply heap_grows_append|lia].
  - apply (heap_lines_mono (idx st + 1)); [exact Hi|].
    apply heap_lines_append; auto.
    + apply (heap_lines_mono (idx st)); [lia|exact L2].
    + destruct L2 as (B & _ & _). intros o Ho. now apply (B a).
    + now apply store_wf_valid.
    + discriminate.
    + intros _ _. destruct L3 as [E|E]; [rewrite E in Htop; discriminate|].
      injection E as ->. lia.
  - rewrite length_heap_append, Htop. exact L3.
  - apply (root_lines_mono lo (idx st + 1)); [exact Hi|]. now apply root_lines_snoc.
  - apply (heap_lines_mono (idx st)); [lia|exact L2].
  - rewrite Htop. exact L3.
Qed.

Lemma line_inv_section lo st sec ln i1 d1 i' :
  store_wf st -> roots_wf st -> line_inv lo st ->
  heading_line sec = idx st + 1 -> s_body sec = [] -> idx st + 1 <= i' ->
  line_inv lo (set_idx (place_section (set_diags (set_idx st i1) d1) sec ln) i').
Proof.
  intros Hwf Hr (L1 & L2 & L3) Hl Hbody Hi.
  pose proof (store_wf_valid st Hwf) as Hv.
  destruct (heap_lines_snoc (idx st) (heap st) sec L2 Hv Hl Hbody) as [Hsnoc Hvsnoc].
  assert (Hnew : entry_line (heap st ++ [sec]) (Ref (length (heap st))) = idx st + 1).
  { cbn [entry_line]. rewrite nth_error_app2 by lia. now rewrite Nat.sub_diag. }
  assert (Hroot : root_lines lo (idx st) (heap st ++ [sec]) (root st)).
  { apply (root_lines_grows lo (idx st) (idx st) (heap st)); auto. apply heap_grows_snoc. }
  assert (Hroot1 : refs_valid (heap st ++ [sec]) (root st)).
  { intros r Hin. rewrite length_app. specialize (Hr r Hin). lia. }
  unfold place_section. cbn zeta. cbn [set_idx set_diags idx root heap section_stack diags].
  assert (Hparent : forall p,
             find_parent (heap st) (removelast (s_number sec))
               (rev (rev (pop_loop (heap st) (length (s_number sec))
                            (rev (section_stack st))))) = Some p ->
             p < length (heap st)).
  { intros p Hp. destruct Hwf as (_ & _ & H3). apply H3.
    apply find_parent_In in Hp. rewrite rev_involutive in Hp.
    apply pop_loop_incl in Hp. now apply in_rev. }
  destruct (nonempty (removelast (s_number sec))) eqn:Epn;
    [destruct (find_parent _ _ _) as [p|] eqn:Ep|];
    (split; [|split]); cbn [set_idx append_to idx root heap section_stack diags].
  - apply (root_lines_grows lo (idx st) i' (heap st ++ [sec])); auto;
      [apply heap_grows_append|lia].
  - apply (heap_lines_mono (idx st + 1)); [exact Hi|].
    apply heap_lines_append.
    + exact Hsnoc.
    + intros o Ho. apply nth_error_snoc in Ho. destruct Ho as [[_ Ho]|[Ha ->]].
      * destruct L2 as (B & _ & _).
        apply (body_lines_grows (idx st) (idx st) (heap st)); auto;
          [apply heap_grows_snoc|now apply (Hv p)|now apply (B p)].
      * exfalso. specialize (Hparent p eq_refl). clear - Ha Hparent. lia.
    + exact Hvsnoc.
    + exact Hnew.
    + intros r [= <-]. rewrite length_app. cbn [length]. lia.
    + discriminate.
  - right. rewrite top_snoc, length_heap_append, length_app. cbn [length]. f_equal. lia.
  - apply (root_lines_mono lo (idx st + 1)); [exact Hi|]. now apply root_lines_snoc.
  - apply (heap_lines_mono (idx st + 1)); [exact Hi|exact Hsnoc].
  - right. rewrite top_snoc, length_app. cbn [length]. f_equal. lia.
  - apply (root_lines_mono lo (idx st + 1)); [exact Hi|]. now apply root_lines_snoc.
  - apply (heap_lines_mono (idx st + 1)); [exact Hi|exact Hsnoc].
  - right. rewrite top_snoc, length_app. cbn [length]. f_equal. lia.
Qed.

Lemma same_store_record st st1 :
  root st1 = root st -> heap st1 = heap st -> section_stack st1 = section_stack st ->
  st1 = set_diags (set_idx st (idx st1)) (diags st1).
Proof. destruct st1; cbn; intros -> -> ->; reflexivity. Qed.

Lemma turn_line_inv lo st st' :
  turn st st' -> idx st + 1 <= idx st' ->
  store_wf st -> roots_wf st -> line_inv lo st -> line_inv lo st'.
Proof.
  intros Ht Hi Hwf Hr Hinv.
  destruct Ht as [st1 loc Hs Hl Hdl|st1 b Hs Hb Hl Hdl|st1 sec i Hs Hsec Hl Hdl];
    destruct Hs as (R & H & S & _);
    revert Hi; rewrite (same_store_record st st1 R H S); intros Hi.
  - apply line_inv_blank; auto.
  - rewrite idx_add_block in Hi. apply line_inv_add; auto.
  - destruct Hsec as (_ & _ & Hbody). apply line_inv_section; auto.
Qed.

(** The states of the body loop: the store is well formed and in the
    order of the lines. *)
Lemma document_store lines h m st0 :
  parse_prologue lines = Some (h, m, st0) ->
  store_wf (body_loop lines st0) /\ roots_wf (body_loop lines st0)
  /\ store_fits (body_loop lines st0) /\ line_inv (idx st0) (body_loop lines st0).
Proof.
  intros Hp.
  apply (body_loop_invariant lines
           (fun s => store_wf s /\ roots_wf s /\ store_fits s /\ line_inv (idx st0) s)).
  - intros st Hlt (Hwf & Hr & Hfit & Hinv).
    pose proof (body_step_turn lines st Hlt) as Ht.
    pose proof (body_step_shape lines st Hlt) as Hshape.
    pose proof (body_step_cursor lines st Hlt) as Hcur.
    split; [eapply step_effect_wf; eauto|]. split; [eapply step_effect_roots; eauto|].
    split; [eapply turn_fits; eauto|]. eapply turn_line_inv; eauto. lia.
  - destruct (prologue_store lines h m st0 Hp) as (R & H & S).
    unfold store_wf, roots_wf, store_fits, line_inv, root_lines, heap_lines, heap_fits.
    rewrite R, H, S. cbn [length map increasing].
    repeat split; try (now constructor); try (intros; lia);
      try (intros [|?] *; discriminate); try (now left).
    all: intros; try match goal with H : In _ [] |- _ => destruct H end.
    all: try match goal with H : nth_error [] ?a = Some _ |- _ => destruct a; discriminate end.
Qed.

(** *** Reading the lines back *)

Lemma length_resolve_heap h base : length (resolve_heap h base) = length h.
Proof. revert base; induction h as [|o h IH]; intros base; cbn; auto. Qed.

Lemma Some_inj {A} (x y : A) : Some x = Some y -> x = y.
Proof. now intros [= ->]. Qed.

Lemma resolve_heap_at H a o :
  nth_error H a = Some o ->
  nth_error (resolve_heap H 0) a
  = Some (Section (s_number o) (s_title o) (s_description o) (s_level o)
            (flat_map (resolve_entry (S a) (skipn (S a) (resolve_heap H 0))) (s_body o))
            (s_loc o)).
Proof. intros Ho. rewrite (resolve_heap_nth H 0 a o Ho). reflexivity. Qed.

(** Induction over the sections of a store whose references point
    forward, from the last section to the first. *)
Lemma resolved_sections_ind (H : list SectionObj) (P : nat -> Block -> Prop) :
  (forall a o r, nth_error H a = Some o -> In (Ref r) (s_body o) -> a < r < length H) ->
  (forall a o,
     nth_error H a = Some o ->
     (forall r t, In (Ref r) (s_body o) -> nth_error (resolve_heap H 0) r = Some t -> P r t) ->
     forall t, nth_error (resolve_heap H 0) a = Some t -> P a t) ->
  forall a t, nth_error (resolve_heap H 0) a = Some t -> P a t.
Proof.
  intros Hfwd Hstep.
  assert (Hk : forall k a t, length H - a <= k ->
                             nth_error (resolve_heap H 0) a = Some t -> P a t).
  { induction k as [|k IH]; intros a t Hk Ht;
      assert (Ha : a < length H)
        by (rewrite <- (length_resolve_heap H 0); apply nth_error_Some; congruence);
      [lia|].
    destruct (nth_error H a) as [o|] eqn:Ho; [|apply nth_error_None in Ho; lia].
    apply (Hstep a o Ho); [|exact Ht].
    intros r t' Hin Hr. apply IH; [|exact Hr]. destruct (Hfwd a o r Ho Hin). lia. }
  intros a t. apply (Hk (length H)). lia.
Qed.

Lemma child_reads H a o e :
  (forall a o r, nth_error H a = Some o -> In (Ref r) (s_body o) -> a < r < length H) ->
  nth_error H a = Some o -> In e (s_body o) ->
  exists t, resolve_entry (S a) (skipn (S a) (resolve_heap H 0)) e = [t]
            /\ start_line t = entry_line H e
            /\ match e with
               | Leaf b => t = b
               | Ref r => nth_error (resolve_heap H 0) r = Some t /\ is_section t = true
               end.
Proof.
  intros Hfwd Ho Hin. destruct e as [b|r].
  - exists b. repeat split.
  - destruct (Hfwd a o r Ho Hin) as [Har Hr].
    destruct (nth_error H r) as [o'|] eqn:Ho'; [|apply nth_error_None in Ho'; lia].
    pose proof (resolve_heap_nth H 0 r o' Ho') as Hsec.
    eexists. split.
    + apply resolve_ref_later; [lia|]. rewrite nth_error_skipn.
      replace (S a + (r - S a)) with r by lia. exact Hsec.
    + cbn [entry_line start_line block_loc]. rewrite Ho'. repeat split. exact Hsec.
Qed.

Lemma root_reads st e :
  roots_wf st -> In e (root st) ->
  exists t, resolve_entry 0 (resolve_heap (heap st) 0) e = [t]
            /\ start_line t = entry_line (heap st) e
            /\ match e with
               | Leaf b => t = b
               | Ref r => nth_error (resolve_heap (heap st) 0) r = Some t
                          /\ is_section t = true
               end.
Proof.
  intros Hw Hin. destruct e as [b|r].
  - exists b. repeat split.
  - specialize (Hw r Hin).
    destruct (nth_error (heap st) r) as [o'|] eqn:Ho'; [|apply nth_error_None in Ho'; lia].
    pose proof (resolve_heap_nth (heap st) 0 r o' Ho') as Hsec.
    eexists. split.
    + apply resolve_ref_later; [lia|]. rewrite Nat.sub_0_r. exact Hsec.
    + cbn [entry_line start_line block_loc]. rewrite Ho'. repeat split. exact Hsec.
Qed.

Lemma resolved_lines {A} (f : A -> list Block) (g : A -> nat) es :
  (forall e, In e es -> exists t, f e = [t] /\ start_line t = g e) ->
  map start_line (flat_map f es) = map g es.
Proof.
  induction es as [|e es IH]; intros H; cbn [flat_map map]; [reflexivity|].
  destruct (H e (or_introl eq_refl)) as (t & -> & <-). cbn [app map]. f_equal.
  apply IH. intros x Hx. apply H. now right.
Qed.

Lemma content_not_section b : content_ok b = true -> is_section b = false.
Proof. destruct b; cbn; try discriminate; auto. Qed.

Lemma root_fits_not_section b : root_fits (Leaf b) -> is_section b = false.
Proof. intros [H|H]; destruct b; cbn in *; try discriminate; auto. Qed.

Lemma not_section_in_order b : is_section b = false -> in_source_order b = true.
Proof. destruct b; cbn; try discriminate; auto. Qed.

Lemma not_section_headings b : is_section b = false -> headings b = [].
Proof. destruct b; cbn; try discriminate; auto. Qed.

Lemma not_section_nearest hs b : is_section b = false -> under_nearest_heading hs b = true.
Proof. destruct b; cbn; try discriminate; auto. Qed.

Lemma heap_leaf_not_section h a o b :
  heap_fits h -> nth_error h a = Some o -> In (Leaf b) (s_body o) -> is_section b = false.
Proof.
  intros Hh Ho Hin. destruct (Hh a o Ho) as (_ & _ & Hall).
  rewrite Forall_forall in Hall. apply content_not_section. exact (Hall _ Hin).
Qed.

Lemma resolved_in_order lo st :
  store_wf st -> store_fits st -> line_inv lo st ->
  forall a t, nth_error (resolve_heap (heap st) 0) a = Some t -> in_source_order t = true.
Proof.
  intros (Hfwd & _) [_ Hfit] (_ & (Hbody & _) & _).
  apply (resolved_sections_ind (heap st) (fun _ t => in_source_order t = true) Hfwd).
  intros a o Ho IH t Ht. rewrite (resolve_heap_at (heap st) a o Ho) in Ht.
  apply Some_inj in Ht. subst t.
  set (kids := flat_map _ (s_body o)). cbn [in_source_order]. subst kids.
  apply andb_true_iff. split.
  - rewrite (resolved_lines _ (entry_line (heap st))).
    + now destruct (Hbody a o Ho) as (_ & B & _).
    + intros e He. destruct (child_reads (heap st) a o e Hfwd Ho He) as (t & Ht & Hl & _).
      eauto.
  - apply forallb_forall. intros c Hc. apply in_flat_map in Hc. destruct Hc as (e & He & Hc).
    destruct (child_reads (heap st) a o e Hfwd Ho He) as (t & Ht & _ & Hkind).
    rewrite Ht in Hc. destruct Hc as [<-|[]]. destruct e as [b|r].
    + subst t. apply not_section_in_order. now apply (heap_leaf_not_section (heap st) a o).
    + destruct Hkind as [Hr _]. now apply (IH r).
Qed.

Lemma increasing_weaken lo lo' l :
  lo' <= lo -> increasing lo l = true -> increasing lo' l = true.
Proof.
  destruct l as [|x l]; cbn [increasing]; [reflexivity|].
  intros Hle H. apply andb_true_iff in H. destruct H as [H1 H2]. rewrite H2.
  apply Nat.ltb_lt in H1. replace (lo' <? x) with true; [reflexivity|].
  symmetry. apply Nat.ltb_lt. lia.
Qed.

(** The blocks of the document's body start after the line at which the
    body loop started, in order. *)
Lemma document_body_lines lines h m st0 :
  parse_prologue lines = Some (h, m, st0) ->
  increasing (idx st0) (map start_line (body (parse_document lines))) = true.
Proof.
  intros Hp. unfold parse_document. rewrite Hp. cbn [body].
  destruct (document_store lines h m st0 Hp) as (Hwf & Hr & Hfit & Hinv).
  set (st := body_loop lines st0) in *. unfold resolve_body.
  rewrite (resolved_lines _ (entry_line (heap st))).
  - now destruct Hinv as ((_ & R1 & _) & _).
  - intros e He. destruct (root_reads st e Hr He) as (t & Ht & Hl & _). eauto.
Qed.

(** X12. In the document parsed from any input, the blocks of the
    document's body, and those of the body of every section at any
    depth, are in the order of the lines on which they start, strictly
    increasing; the blocks of a section start after the line of its
    heading, and no block starts before line 1. *)
Theorem X12_bodies_in_source_order (lines : list str) :
  body_in_source_order (body (parse_document lines)) = true.
Proof.
  destruct (parse_prologue lines) as [[[h m] st0]|] eqn:Hp;
    [|unfold parse_document; rewrite Hp; reflexivity].
  unfold body_in_source_order. apply andb_true_iff. split.
  - apply (increasing_weaken (idx st0)); [lia|]. now apply (document_body_lines lines h m).
  - unfold parse_document. rewrite Hp. cbn [body].
    destruct (document_store lines h m st0 Hp) as (Hwf & Hr & Hfit & Hinv).
    set (st := body_loop lines st0) in *. unfold resolve_body.
    apply forallb_forall. intros c Hc. apply in_flat_map in Hc. destruct Hc as (e & He & Hc).
    destruct (root_reads st e Hr He) as (t & Ht & _ & Hkind).
    rewrite Ht in Hc. destruct Hc as [<-|[]]. destruct e as [b|r].
    + subst t. apply not_section_in_order. apply root_fits_not_section.
      destruct Hfit as [Hroot _]. rewrite Forall_forall in Hroot. now apply Hroot.
    + destruct Hkind as [Hsec _]. now apply (resolved_in_order _ st Hwf Hfit Hinv r).
Qed.

Lemma resolved_headings st :
  store_wf st -> store_fits st ->
  forall a t, nth_error (resolve_heap (heap st) 0) a = Some t ->
    forall hd, In hd (headings t) ->
      exists a' o', nth_error (heap st) a' = Some o' /\ hd = heading_line o'.
Proof.
  intros (Hfwd & _) [_ Hfit].
  apply (resolved_sections_ind (heap st)
           (fun _ t => forall hd, In hd (headings t) ->
                         exists a' o', nth_error (heap st) a' = Some o'
                                       /\ hd = heading_line o') Hfwd).
  intros a o Ho IH t Ht. rewrite (resolve_heap_at (heap st) a o Ho) in Ht.
  apply Some_inj in Ht. subst t.
  set (kids := flat_map _ (s_body o)). cbn [headings]. subst kids.
  intros hd [<-|Hin]; [now exists a, o|].
  apply in_flat_map in Hin. destruct Hin as (c & Hc & Hhd).
  apply in_flat_map in Hc. destruct Hc as (e & He & Hc).
  destruct (child_reads (heap st) a o e Hfwd Ho He) as (t & Ht & _ & Hkind).
  rewrite Ht in Hc. destruct Hc as [<-|[]]. destruct e as [b|r].
  - subst t. rewrite (not_section_headings b) in Hhd; [destruct Hhd|].
    now apply (heap_leaf_not_section (heap st) a o).
  - destruct Hkind as [Hr _]. now apply (IH r t).
Qed.

Lemma resolved_nearest lo st hs :
  store_wf st -> store_fits st -> line_inv lo st ->
  (forall hd, In hd hs ->
     exists a' o', nth_error (heap st) a' = Some o' /\ hd = heading_line o') ->
  forall a t, nth_error (resolve_heap (heap st) 0) a = Some t ->
    under_nearest_heading hs t = true.
Proof.
  intros (Hfwd & _) [_ Hfit] (_ & (_ & Hheads & Hleaves) & _) Hhs.
  apply (resolved_sections_ind (heap st) (fun _ t => under_nearest_heading hs t = true) Hfwd).
  intros a o Ho IH t Ht. rewrite (resolve_heap_at (heap st) a o Ho) in Ht.
  apply Some_inj in Ht. subst t.
  set (kids := flat_map _ (s_body o)). cbn [under_nearest_heading]. subst kids.
  apply andb_true_iff.
  split; apply forallb_forall; intros c Hc; apply in_flat_map in Hc;
    destruct Hc as (e & He & Hc);
    destruct (child_reads (heap st) a o e Hfwd Ho He) as (t & Ht & _ & Hkind);
    rewrite Ht in Hc; destruct Hc as [<-|[]]; destruct e as [b|r].
  - subst t. apply orb_true_iff. right. apply forallb_forall. intros hd Hhd.
    destruct (Hhs hd Hhd) as (a' & o' & Ho' & ->). apply orb_true_iff.
    fold (heading_line o).
    destruct (Nat.lt_trichotomy a' a) as [Hlt|[->|Hgt]].
    + left. apply Nat.leb_le. specialize (Hheads a' o' a o Hlt Ho' Ho). lia.
    + left. apply Nat.leb_le. rewrite Ho in Ho'. injection Ho' as <-. lia.
    + right. apply Nat.ltb_lt. now apply (Hleaves a o b a' o').
  - destruct Hkind as [_ Hsec]. now rewrite Hsec.
  - subst t. apply not_section_nearest. now apply (heap_leaf_not_section (heap st) a o).
  - destruct Hkind as [Hr _]. now apply (IH r).
Qed.

(** X13. A block belongs to the nearest heading above it: in the
    document parsed from any input, for every section at any depth and
    every block of its body that is not a section, no heading of the
    document lies after the section's heading and before the line on
    which the block starts.  This holds whatever the numbers of the
    headings are. *)
Theorem X13_block_under_nearest_heading (lines : list str) :
  forallb (under_nearest_heading (flat_map headings (body (parse_document lines))))
          (body (parse_document lines)) = true.
Proof.
  unfold parse_document.
  destruct (parse_prologue lines) as [[[h m] st0]|] eqn:Hp; [|reflexivity].
  cbn [body]. destruct (document_store lines h m st0 Hp) as (Hwf & Hr & Hfit & Hinv).
  set (st := body_loop lines st0) in *. unfold resolve_body.
  assert (Hhs : forall hd,
             In hd (flat_map headings
                      (flat_map (resolve_entry 0 (resolve_heap (heap st) 0)) (root st))) ->
             exists a' o', nth_error (heap st) a' = Some o' /\ hd = heading_line o').
  { intros hd Hhd. apply in_flat_map in Hhd. destruct Hhd as (c & Hc & Hhd).
    apply in_flat_map in Hc. destruct Hc as (e & He & Hc).
    destruct (root_reads st e Hr He) as (t & Ht & _ & Hkind).
    rewrite Ht in Hc. destruct Hc as [<-|[]]. destruct e as [b|r].
    - subst t. rewrite (not_section_headings b) in Hhd; [destruct Hhd|].
      apply root_fits_not_section.
      destruct Hfit as [Hroot _]. rewrite Forall_forall in Hroot. now apply Hroot.
    - destruct Hkind as [Hsec _]. now apply (resolved_headings st Hwf Hfit r t). }
  apply forallb_forall. intros c Hc. apply in_flat_map in Hc. destruct Hc as (e & He & Hc).
  destruct (root_reads st e Hr He) as (t & Ht & _ & Hkind).
  rewrite Ht in Hc. destruct Hc as [<-|[]]. destruct e as [b|r].
  - subst t. apply not_section_nearest. apply root_fits_not_section.
    destruct Hfit as [Hroot _]. rewrite Forall_forall in Hroot. now apply Hroot.
  - destruct Hkind as [Hsec _]. now apply (resolved_nearest _ st _ Hwf Hfit Hinv Hhs r).
Qed.

(* ===================================================================== *)
(** ** The metadata *)
(* ===================================================================== *)

Lemma metadata_loop_spec rest i md d :
  exists n,
    n <= length rest
    /\ forallb metadata_line (firstn n rest) = true
    /\ (n < length rest -> metadata_line (nth n rest []) = false)
    /\ fst (fst (metadata_loop rest i md d)) = md ++ metadata_entries (firstn n rest) i
    /\ length (metadata_entries (firstn n rest) i) = n
    /\ snd (fst (metadata_loop rest i md d))
       = i + n + (if (n <? length rest) && isblank (nth n rest []) then 1 else 0).
Proof.
  revert i md d; induction rest as [|l rest IH]; intros i md d; cbn [metadata_loop].
  - exists 0. cbn. rewrite app_nil_r. repeat split; try lia.
  - destruct (isblank l) eqn:Hblank.
    { exists 0. cbn [firstn forallb metadata_entries length nth fst snd Nat.ltb Nat.leb andb].
      rewrite app_nil_r, Hblank. unfold metadata_line. rewrite Hblank.
      repeat split; try lia. }
    destruct (METADATA_RE l) as [kv|] eqn:Hm.
    2:{ exists 0. cbn [firstn forallb metadata_entries length nth fst snd Nat.ltb Nat.leb andb].
        rewrite app_nil_r, Hblank. unfold metadata_line. rewrite Hblank, Hm.
        repeat split; try lia. }
    destruct (strip_illegal_spec l (i + 1) d) as [Hfst _].
    destruct (strip_illegal_inline_comment l (i + 1) d) as [cl d1]. cbn [fst] in Hfst. subst cl.
    destruct (METADATA_RE (strip_inline_comment_for_detection l)) as [[g1 g2]|] eqn:Hm2.
    2:{ exists 0. cbn [firstn forallb metadata_entries length nth fst snd Nat.ltb Nat.leb andb].
        rewrite app_nil_r, Hblank. unfold metadata_line. rewrite Hblank, Hm, Hm2.
        repeat split; try lia. }
    match goal with
    | |- context [metadata_loop rest ?i' ?md' ?d'] =>
        destruct (IH i' md' d') as (n & Hn & Hall & Hstop & Hmd & Hlen & Hidx)
    end.
    exists (S n). cbn [firstn forallb metadata_entries length nth].
    unfold metadata_line at 1, metadata_entry at 1 2. rewrite Hblank, Hm, Hm2. cbn [negb andb].
    split; [lia|]. split; [exact Hall|]. split; [intros H; apply Hstop; lia|].
    split; [rewrite Hmd, <- app_assoc; reflexivity|]. split; [cbn [app length]; lia|].
    rewrite Hidx. replace (S n <? S (length rest)) with (n <? length rest) by reflexivity.
    lia.
Qed.

(** X14. The metadata are read from the lines that follow the header
    line (the first line that is not blank, at index [k]): as many
    consecutive lines as are not blank and match the metadata pattern
    both as they are and without their inline comment.  Each gives one
    entry, key and value from the line without its inline comment, the
    location that of the whole line.  These entries are the metadata
    with which the body loop starts, and it starts after these lines,
    and after the blank line that follows them if there is one.  On an
    input that holds no heading on whose number [int] raises (a
    component of more than 4300 digits), so that the code returns a
    document, they are the metadata of the document, and the blocks of
    its body start where the body loop started: the blank line after
    the metadata gives no BlankLine block. *)
Theorem X14_metadata_lines (lines : list str) (k : nat) :
  first_non_blank_from lines 0 = Some k ->
  exists n,
    n <= length (skipn (k + 1) lines)
    /\ forallb metadata_line (firstn n (skipn (k + 1) lines)) = true
    /\ (n < length (skipn (k + 1) lines) ->
        metadata_line (nth n (skipn (k + 1) lines) []) = false)
    /\ length (metadata_entries (firstn n (skipn (k + 1) lines)) (k + 1)) = n
    /\ (exists h st0,
          parse_prologue lines
          = Some (h, metadata_entries (firstn n (skipn (k + 1) lines)) (k + 1), st0)
          /\ idx st0
             = k + 1 + n
               + (if (n <? length (skipn (k + 1) lines))
                     && isblank (nth n (skipn (k + 1) lines) [])
                  then 1 else 0))
    /\ (no_heading_raises lines = true ->
        metadata (parse_document lines)
        = metadata_entries (firstn n (skipn (k + 1) lines)) (k + 1)
        /\ increasing
             (k + 1 + n
              + (if (n <? length (skipn (k + 1) lines))
                    && isblank (nth n (skipn (k + 1) lines) [])
                 then 1 else 0))
             (map start_line (body (parse_document lines))) = true).
Proof.
  intros Hk.
  destruct (parse_prologue lines) as [[[h m] st0]|] eqn:Hp.
  2:{ unfold parse_prologue in Hp. rewrite Hk in Hp.
      destruct (strip_illegal_inline_comment _ _ _) as [hl d0].
      destruct (parse_header _ _ _) as [hd d1].
      destruct (metadata_loop _ _ _ _) as [[md i1] d2]. discriminate. }
  pose proof (document_body_lines lines h m st0 Hp) as Hbody.
  unfold parse_document. unfold parse_document in Hbody. rewrite Hp in Hbody |- *.
  cbn [metadata body] in *.
  unfold parse_prologue in Hp. rewrite Hk in Hp.
  destruct (strip_illegal_inline_comment _ _ _) as [hl d0].
  destruct (parse_header _ _ _) as [hd d1].
  destruct (metadata_loop_spec (skipn (k + 1) lines) (k + 1) [] d1)
    as (n & Hn & Hall & Hstop & Hmd & Hlen & Hidx).
  destruct (metadata_loop _ _ _ _) as [[md i1] d2]. cbn [fst snd app] in *.
  injection Hp as _ <- <-. cbn [idx] in Hbody. subst i1 md.
  exists n. split; [exact Hn|]. split; [exact Hall|]. split; [exact Hstop|].
  split; [exact Hlen|]. split.
  - eexists _, _. split; reflexivity.
  - intros _. split; [reflexivity|exact Hbody].
Qed.

Lemma X14_metadata_lines_example :
  first_non_blank_from header_key_blank_para 0 = Some 0
  /\ no_heading_raises header_key_blank_para = true
  /\ exists n,
       n <= length (skipn 1 header_key_blank_para)
       /\ forallb metadata_line (firstn n (skipn 1 header_key_blank_para)) = true
       /\ (n < length (skipn 1 header_key_blank_para) ->
           metadata_line (nth n (skipn 1 header_key_blank_para) []) = false)
       /\ length (metadata_entries (firstn n (skipn 1 header_key_blank_para)) 1) = n
       /\ (exists h st0,
             parse_prologue header_key_blank_para
             = Some (h, metadata_entries (firstn n (skipn 1 header_key_blank_para)) 1, st0)
             /\ idx st0
                = 0 + 1 + n
                  + (if (n <? length (skipn 1 header_key_blank_para))
                        && isblank (nth n (skipn 1 header_key_blank_para) [])
                     then 1 else 0))
       /\ metadata (parse_document header_key_blank_para)
          = metadata_entries (firstn n (skipn 1 header_key_blank_para)) 1
       /\ increasing
            (0 + 1 + n
             + (if (n <? length (skipn 1 header_key_blank_para))
                   && isblank (nth n (skipn 1 header_key_blank_para) [])
                then 1 else 0))
            (map start_line (body (parse_document header_key_blank_para))) = true.
Proof.
  split; [reflexivity|]. split; [reflexivity|].
  destruct (X14_metadata_lines header_key_blank_para 0)
    as (n & Hn & Hall & Hstop & Hlen & Hpro & Hdoc); [reflexivity|].
  exists n. split; [exact Hn|]. split; [exact Hall|]. split; [exact Hstop|].
  split; [exact Hlen|]. split; [exact Hpro|]. apply Hdoc. reflexivity.
Defined.

(* ===================================================================== *)
(** ** The cells of a table row *)
(* ===================================================================== *)

Lemma length_split sep s :
  length (split sep s) = S (length (filter (fun c => ch_eqb c sep) s)).
Proof.
  induction s as [|c s IH]; cbn [split filter]; [reflexivity|].
  destruct (ch_eqb c sep); cbn [length]; [now rewrite IH|].
  pose proof (split_nonempty sep s) as Hne.
  destruct (split sep s) as [|x t]; [contradiction|]. exact IH.
Qed.

Lemma split_parts_free sep s :
  Forall (fun x => filter (fun c => ch_eqb c sep) x = []) (split sep s).
Proof.
  induction s as [|c s IH]; cbn [split]; [repeat constructor|].
  destruct (ch_eqb c sep) eqn:E; [constructor; [reflexivity|exact IH]|].
  destruct (split sep s) as [|x t]; [repeat constructor; cbn; now rewrite E|].
  inversion IH; subst. constructor; [|assumption]. cbn [filter]. now rewrite E.
Qed.

Lemma length_removelast_pred {A} (l : list A) : length (removelast l) = length l - 1.
Proof.
  induction l as [|x l IH]; [reflexivity|]. destruct l as [|y l]; [reflexivity|].
  cbn [removelast length] in *. rewrite IH. lia.
Qed.

Lemma length_inner {A} (l : list A) : length (inner l) = length l - 2.
Proof.
  unfold inner. rewrite length_removelast_pred. destruct l; cbn; lia.
Qed.

Lemma In_removelast {A} (l : list A) x : In x (removelast l) -> In x l.
Proof.
  induction l as [|y l IH]; [intros []|]. destruct l as [|z l]; [intros []|].
  intros [->|H]; [now left|]. right. now apply IH.
Qed.

Lemma In_inner {A} (l : list A) x : In x (inner l) -> In x l.
Proof.
  unfold inner. intros H. apply In_removelast in H. destruct l; [destruct H|now right].
Qed.

Lemma filter_dropwhile (q p : ascii -> bool) s :
  (forall c, q c = true -> p c = false) ->
  filter q (dropwhile p s) = filter q s.
Proof.
  intros Hqp. induction s as [|c s IH]; cbn [dropwhile filter]; [reflexivity|].
  destruct (p c) eqn:Hp; [|reflexivity].
  destruct (q c) eqn:Hq; [|exact IH]. rewrite (Hqp c Hq) in Hp. discriminate.
Qed.

Lemma filter_rev_list {A} (q : A -> bool) l : filter q (rev l) = rev (filter q l).
Proof.
  induction l as [|x l IH]; cbn [rev filter]; [reflexivity|].
  rewrite filter_app, IH. cbn [filter]. destruct (q x); cbn [rev]; [reflexivity|].
  now rewrite app_nil_r.
Qed.

Lemma filter_strip (q : ascii -> bool) s :
  (forall c, q c = true -> isspace c = false) ->
  filter q (strip s) = filter q s.
Proof.
  intros Hq. unfold strip, rstrip, lstrip.
  rewrite filter_rev_list, (filter_dropwhile q isspace _ Hq), filter_rev_list, rev_involutive.
  now apply filter_dropwhile.
Qed.

Lemma pipe_not_space c : ch_eqb c "|" = true -> isspace c = false.
Proof. intros H. apply ch_eqb_eq in H. now subst. Qed.

Lemma dropwhile_fixed {A} (p : A -> bool) l :
  match l with [] => True | x :: _ => p x = false end -> dropwhile p l = l.
Proof. destruct l as [|x l]; cbn; [reflexivity|]. now intros ->. Qed.

Lemma dropwhile_idem {A} (p : A -> bool) l : dropwhile p (dropwhile p l) = dropwhile p l.
Proof.
  apply dropwhile_fixed. destruct (dropwhile p l) as [|x r] eqn:E; [exact I|].
  now apply dropwhile_head in E.
Qed.

Lemma rstrip_idem s : rstrip (rstrip s) = rstrip s.
Proof. unfold rstrip. now rewrite rev_involutive, dropwhile_idem. Qed.

Lemma rstrip_prefix s : exists ws, s = rstrip s ++ ws /\ forallb isspace ws = true.
Proof.
  unfold rstrip. exists (rev (takewhile isspace (rev s))). split.
  - rewrite <- rev_app_distr, takewhile_dropwhile. now rewrite rev_involutive.
  - apply forallb_forall. intros c Hc. apply in_rev in Hc.
    pose proof (forallb_takewhile isspace (rev s)) as H.
    rewrite forallb_forall in H. now apply H.
Qed.

Lemma lstrip_rstrip_lstrip s : lstrip (rstrip (lstrip s)) = rstrip (lstrip s).
Proof.
  unfold lstrip at 1. apply dropwhile_fixed.
  destruct (rstrip_prefix (lstrip s)) as (ws & E & _).
  destruct (rstrip (lstrip s)) as [|x r]; [exact I|].
  unfold lstrip in E. cbn [app] in E.
  now apply dropwhile_head in E.
Qed.

Lemma strip_idem s : strip (strip s) = strip s.
Proof. unfold strip. now rewrite lstrip_rstrip_lstrip, rstrip_idem. Qed.

Lemma row_cells_spec (row : str) :
  length (row_cells row) = pipes row - 1
  /\ Forall (fun c => strip c = c /\ pipes c = 0) (row_cells row).
Proof.
  unfold row_cells, pipes. split.
  - rewrite length_map, length_inner, length_split.
    rewrite (filter_strip _ row pipe_not_space). lia.
  - apply Forall_forall. intros c Hc. apply in_map_iff in Hc.
    destruct Hc as (x & <- & Hx). split; [apply strip_idem|].
    rewrite (filter_strip _ x pipe_not_space).
    apply In_inner in Hx. pose proof (split_parts_free "|" (strip row)) as H.
    rewrite Forall_forall in H. now rewrite (H x Hx).
Qed.

Lemma table_rows_of start_line i rows :
  Forall2 row_of (table_rows start_line i rows) rows.
Proof.
  revert i; induction rows as [|row rows IH]; intros i; cbn [table_rows]; constructor.
  - apply row_cells_spec.
  - apply IH.
Qed.

(** X15. The table made of a list of source rows that is not empty has
    one row for each, in order: the first is the header row, the second
    the alignment row, the others the data rows.  A source row with [n]
    pipe characters gives [n - 1] cells (none when it has fewer than two
    pipes); every cell is trimmed of white space at both ends and holds
    no pipe. *)
Theorem X15_table_rows (rows : list str) (d : list Diagnostic) (start_line : nat) :
  rows <> [] ->
  Forall2 row_of (table_all_rows (fst (parse_table rows d start_line))) rows.
Proof.
  intros Hne. rewrite parse_table_eq. cbn [fst table_all_rows].
  pose proof (table_rows_of start_line 0 rows) as H.
  destruct rows as [|r0 rows]; [contradiction|].
  destruct (table_rows start_line 0 (r0 :: rows)) as [|t0 [|t1 ts]] eqn:E; cbn in *.
  - discriminate.
  - exact H.
  - exact H.
Qed.

Lemma X15_table_rows_example :
  three_rows <> []
  /\ Forall2 row_of (table_all_rows (fst (parse_table three_rows [] 1))) three_rows.
Proof.
  split; [discriminate|]. apply (X15_table_rows three_rows [] 1). discriminate.
Defined.

(* ===================================================================== *)
(** ** Header and metadata lines *)
(* ===================================================================== *)

Lemma join_flat sep w ws :
  join [sep] (w :: ws) = w ++ flat_map (fun x => sep :: x) ws.
Proof.
  revert w; induction ws as [|x ws IH]; intros w.
  - cbn. now rewrite app_nil_r.
  - change (join [sep] (w :: x :: ws)) with (w ++ [sep] ++ join [sep] (x :: ws)).
    rewrite IH. reflexivity.
Qed.

Lemma runs_rest_spec p sep s m t :
  runs_rest p sep s = (m, t) ->
  exists w ws,
    forallb p w = true
    /\ Forall (fun x => x <> [] /\ forallb p x = true) ws
    /\ m = w ++ flat_map (fun x => sep :: x) ws
    /\ s = m ++ t
    /\ (forall c r, s = c :: r -> p c = true -> w <> []).
Proof.
  revert m t; induction s as [|c r IH]; intros m t; cbn [runs_rest].
  - intros [= <- <-]. exists [], []. repeat split; auto. intros c r H; discriminate.
  - destruct (p c) eqn:Hp.
    + destruct (runs_rest p sep r) as [m' t'] eqn:E. intros [= <- <-].
      destruct (IH _ _ eq_refl) as (w & ws & Hw & Hws & -> & -> & _).
      exists (c :: w), ws. cbn [forallb app]. rewrite Hp, Hw. repeat split; auto.
      intros; discriminate.
    + assert (Hstop : ([] : str, c :: r) = (m, t) ->
                exists w ws,
                  forallb p w = true
                  /\ Forall (fun x => x <> [] /\ forallb p x = true) ws
                  /\ m = w ++ flat_map (fun x => sep :: x) ws
                  /\ c :: r = m ++ t
                  /\ (forall c0 r0, c :: r = c0 :: r0 -> p c0 = true -> w <> [])).
      { intros [= <- <-]. exists [], []. repeat split; auto.
        intros c0 r0 [= <- <-] H. rewrite H in Hp. discriminate. }
      destruct (ch_eqb c sep) eqn:Hs; [|exact Hstop].
      destruct r as [|c2 r']; [exact Hstop|].
      destruct (p c2) eqn:Hp2; [|exact Hstop].
      destruct (runs_rest p sep (c2 :: r')) as [m' t'] eqn:E. intros [= <- <-].
      destruct (IH _ _ eq_refl) as (w & ws & Hw & Hws & -> & Hs' & Hne).
      apply ch_eqb_eq in Hs. subst c.
      exists [], (w :: ws). cbn [forallb app flat_map]. repeat split; auto.
      * constructor; [|exact Hws]. split; [|exact Hw]. now apply (Hne c2 r').
      * now rewrite Hs'.
      * intros c0 r0 [= <- <-] H. rewrite H in Hp. discriminate.
Qed.

Lemma runs_spec p sep s m t :
  runs p sep s = Some (m, t) -> words_of p sep m /\ s = m ++ t.
Proof.
  unfold runs. destruct s as [|c r]; [discriminate|].
  destruct (p c) eqn:Hp; [|discriminate].
  destruct (runs_rest p sep r) as [m' t'] eqn:E. intros [= <- <-].
  destruct (runs_rest_spec p sep r m' t' E) as (w & ws & Hw & Hws & -> & -> & _).
  split; [|reflexivity]. exists ((c :: w) :: ws). split; [discriminate|]. split.
  - constructor; [|exact Hws]. split; [discriminate|]. cbn [forallb]. now rewrite Hp, Hw.
  - now rewrite join_flat.
Qed.

Lemma colon_space_inv {A} (s : str) (f : str -> option A) x :
  match s with
  | ":"%char :: " "%char :: rest => f rest
  | _ => None
  end = Some x ->
  exists rest, s = ":"%char :: " "%char :: rest /\ f rest = Some x.
Proof.
  destruct s as [|a s]; [discriminate|].
  destruct (ascii_dec a ":") as [->|Ha].
  2:{ intros H. exfalso. destruct a as [[] [] [] [] [] [] [] []]; try discriminate H.
      now elim Ha. }
  destruct s as [|b s]; [discriminate|].
  destruct (ascii_dec b " ") as [->|Hb].
  2:{ intros H. exfalso. destruct b as [[] [] [] [] [] [] [] []]; try discriminate H.
      now elim Hb. }
  intros H. eauto.
Qed.

Lemma HEADER_RE_spec line tag text :
  HEADER_RE line = Some (tag, text) ->
  words_of isupper " " tag /\ text <> []
  /\ forallb (fun c => negb (isnewline c)) text = true
  /\ exists tl, line = tag ++ lit ": " ++ text ++ tl /\ line_end tl.
Proof.
  unfold HEADER_RE. destruct (runs isupper " " line) as [[tg t]|] eqn:E; [|discriminate].
  intros H.
  apply (colon_space_inv t
           (fun rest => match dot_plus_eol rest with
                        | Some text => Some (tg, text)
                        | None => None
                        end)) in H.
  destruct H as (rest & -> & H).
  destruct (dot_plus_eol rest) as [tx|] eqn:Ed; [|discriminate]. injection H as <- <-.
  destruct (runs_spec _ _ _ _ _ E) as [Hw ->].
  destruct (dot_plus_eol_spec _ _ Ed) as (Hne & tl & -> & Htl & Hnl).
  repeat split; auto. exists tl. split; [reflexivity|exact Htl].
Qed.

Lemma METADATA_RE_spec line key value :
  METADATA_RE line = Some (key, value) ->
  words_of iskey " " key
  /\ forallb (fun c => negb (isnewline c)) value = true
  /\ exists ws tl,
       line = ws ++ key ++ lit ": " ++ value ++ tl
       /\ forallb isspace ws = true /\ line_end tl.
Proof.
  unfold METADATA_RE.
  destruct (runs iskey " " (lstrip line)) as [[ky t]|] eqn:E; [|discriminate].
  intros H.
  apply (colon_space_inv t
           (fun rest => match dot_star_eol rest with
                        | Some value => Some (ky, value)
                        | None => None
                        end)) in H.
  destruct H as (rest & -> & H).
  destruct (dot_star_eol rest) as [v|] eqn:Ed; [|discriminate]. injection H as <- <-.
  destruct (runs_spec _ _ _ _ _ E) as [Hw Hl].
  destruct (dot_star_eol_spec _ _ Ed) as (tl & -> & Htl & Hnl).
  repeat split; auto. exists (takewhile isspace line), tl.
  split; [|split; [apply forallb_takewhile|exact Htl]].
  rewrite <- (takewhile_dropwhile isspace line) at 1. unfold lstrip in Hl. now rewrite Hl.
Qed.

(** X16. A header line that is accepted reads back: it is the tag, a
    colon and a space, the text, and at most a newline.  The tag is one
    or more words of capital letters with single spaces between them;
    the text is not empty and holds no newline.  No diagnostic is added,
    and the location is that of the whole line. *)
Theorem X16_header_round_trip (line : str) (line_no : nat) (d d' : list Diagnostic)
    (hd : Header) :
  parse_header line line_no d = (Some hd, d') ->
  d' = d
  /\ h_loc hd = make_loc line_no 1 (Some line_no) (Some (length line + 1))
  /\ words_of isupper " " (h_tag hd) /\ h_text hd <> []
  /\ forallb (fun c => negb (isnewline c)) (h_text hd) = true
  /\ exists tl, line = h_tag hd ++ lit ": " ++ h_text hd ++ tl /\ line_end tl.
Proof.
  unfold parse_header. destruct (HEADER_RE line) as [[g1 g2]|] eqn:E; [|discriminate].
  intros [= <- <-]. cbn [h_tag h_text h_loc]. split; [reflexivity|]. split; [reflexivity|].
  now apply HEADER_RE_spec.
Qed.

Lemma X16_header_round_trip_example :
  parse_header (lit "DOC: x") 1 []
  = (Some {| h_tag := lit "DOC"; h_text := lit "x"; h_loc := make_loc 1 1 (Some 1) (Some 7) |},
     [])
  /\ ([] = ([] : list Diagnostic)
      /\ make_loc 1 1 (Some 1) (Some 7) = make_loc 1 1 (Some 1) (Some (length (lit "DOC: x") + 1))
      /\ words_of isupper " " (lit "DOC") /\ lit "x" <> []
      /\ forallb (fun c => negb (isnewline c)) (lit "x") = true
      /\ exists tl, lit "DOC: x" = lit "DOC" ++ lit ": " ++ lit "x" ++ tl /\ line_end tl).
Proof.
  split; [reflexivity|].
  apply (X16_header_round_trip (lit "DOC: x") 1 [] []
           {| h_tag := lit "DOC"; h_text := lit "x";
              h_loc := make_loc 1 1 (Some 1) (Some 7) |}).
  reflexivity.
Defined.

(** X17. A line that matches the metadata pattern reads back: it is
    white space, the key, a colon and a space, the value, and at most a
    newline.  The key is one or more words of letters, digits, "_" and
    "-" with single spaces between them; the value holds no newline and
    may be empty. *)
Theorem X17_metadata_round_trip (line key value : str) :
  METADATA_RE line = Some (key, value) ->
  words_of iskey " " key
  /\ forallb (fun c => negb (isnewline c)) value = true
  /\ exists ws tl,
       line = ws ++ key ++ lit ": " ++ value ++ tl
       /\ forallb isspace ws = true /\ line_end tl.
Proof. apply METADATA_RE_spec. Qed.

Lemma X17_metadata_round_trip_example :
  METADATA_RE (lit "  my key: v") = Some (lit "my key", lit "v")
  /\ (words_of iskey " " (lit "my key")
      /\ forallb (fun c => negb (isnewline c)) (lit "v") = true
      /\ exists ws tl,
           lit "  my key: v" = ws ++ lit "my key" ++ lit ": " ++ lit "v" ++ tl
           /\ forallb isspace ws = true /\ line_end tl).
Proof.
  split; [reflexivity|].
  apply (X17_metadata_round_trip (lit "  my key: v") (lit "my key") (lit "v")). reflexivity.
Defined.

(* ===================================================================== *)
(** ** Stripping twice *)
(* ===================================================================== *)

Lemma strip_detect_loop_at line in_code i rest :
  strip_detect_loop line in_code i rest
  = match comment_at in_code i rest with
    | Some k => rstrip (firstn k line)
    | None => line
    end.
Proof.
  revert in_code i; induction rest as [|ch rest IH]; intros in_code i;
    cbn [strip_detect_loop comment_at]; [reflexivity|].
  destruct (ch_eqb ch "`"); [apply IH|].
  destruct (negb in_code && startswith comment_marker (ch :: rest)); [reflexivity|apply IH].
Qed.

Lemma startswith_app p s q : startswith p s = true -> startswith p (s ++ q) = true.
Proof.
  intros H. apply startswith_spec in H. destruct H as [r ->].
  apply startswith_spec. exists (r ++ q). now rewrite app_assoc.
Qed.

(** There is no marker to cut at in what stands before the first one. *)
Lemma comment_at_prefix p q in_code i :
  (comment_at in_code i (p ++ q) = None
   \/ exists k, comment_at in_code i (p ++ q) = Some k /\ i + length p <= k) ->
  comment_at in_code i p = None.
Proof.
  revert in_code i; induction p as [|c p IH]; intros in_code i H; [reflexivity|].
  cbn [comment_at app] in *. destruct (ch_eqb c "`").
  - apply IH. destruct H as [H|(k & H & Hk)]; [now left|].
    right. exists k. split; [exact H|]. cbn [length] in Hk. lia.
  - destruct (negb in_code) eqn:Hc; cbn [andb] in *.
    + destruct (startswith comment_marker (c :: p)) eqn:Hs.
      * change (c :: p ++ q) with ((c :: p) ++ q) in H.
        rewrite (startswith_app _ _ q Hs) in H.
        destruct H as [H|(k & [= <-] & Hk)]; [discriminate|]. cbn [length] in Hk. lia.
      * apply IH. destruct (startswith comment_marker (c :: p ++ q)).
        -- destruct H as [H|(k & [= <-] & Hk)]; [discriminate|]. cbn [length] in Hk. lia.
        -- destruct H as [H|(k & H & Hk)]; [now left|].
           right. exists k. split; [exact H|]. cbn [length] in Hk. lia.
    + apply IH. destruct H as [H|(k & H & Hk)]; [now left|].
      right. exists k. split; [exact H|]. cbn [length] in Hk. lia.
Qed.

Lemma strip_detect_idem line :
  strip_inline_comment_for_detection (strip_inline_comment_for_detection line)
  = strip_inline_comment_for_detection line.
Proof.
  unfold strip_inline_comment_for_detection. rewrite !strip_detect_loop_at.
  destruct (comment_at false 0 line) as [k|] eqn:E.
  - destruct (rstrip_prefix (firstn k line)) as (ws & Hws & _).
    rewrite (comment_at_prefix (rstrip (firstn k line)) (ws ++ skipn k line) false 0);
      [reflexivity|].
    right. exists k. rewrite app_assoc, <- Hws, firstn_skipn. split; [exact E|].
    pose proof (length_rstrip (firstn k line)) as H1. rewrite length_firstn in H1. lia.
  - now rewrite E.
Qed.

(** X18. Stripping is idempotent.  A line that went through
    [strip_inline_comment_for_detection] is left as it is by a second
    pass, and [strip_illegal_inline_comment] returns it unchanged and
    adds no diagnostic: no inline comment is left in it. *)
Theorem X18_strip_twice (line : str) (line_no : nat) (d : list Diagnostic) :
  strip_inline_comment_for_detection (strip_inline_comment_for_detection line)
  = strip_inline_comment_for_detection line
  /\ strip_illegal_inline_comment (strip_inline_comment_for_detection line) line_no d
     = (strip_inline_comment_for_detection line, d).
Proof.
  split; [apply strip_detect_idem|].
  destruct (strip_illegal_spec (strip_inline_comment_for_detection line) line_no d)
    as [Hfst [H|(k & r & _ & _ & Hne & _)]]; [exact H|].
  rewrite Hfst, strip_detect_idem in Hne. now elim Hne.
Qed.

(* ===================================================================== *)
(** ** The order of the diagnostics *)
(* ===================================================================== *)

Lemma place_section_diag_lines st sec ln :
  exists ds, diags (place_section st sec ln) = diags st ++ ds /\ diag_run ln ds ln.
Proof.
  unfold place_section. cbn [diags]. rewrite diags_append_to. cbn [diags].
  destruct (nonempty _); [|exists []; split; [now rewrite app_nil_r|apply diag_run_nil]].
  destruct (find_parent _ _ _);
    [exists []; split; [now rewrite app_nil_r|apply diag_run_nil]|].
  eexists. split; [reflexivity|]. split.
  - cbn [map nondecreasing dline d_loc line]. now rewrite Nat.leb_refl.
  - constructor; [|constructor]. cbn [dline d_loc line]. lia.
Qed.

Lemma turn_diag_lines st st' :
  turn st st' -> idx st + 1 <= idx st' ->
  exists ds, diags st' = diags st ++ ds /\ diag_run (idx st + 1) ds (idx st').
Proof.
  intros Ht Hi.
  destruct Ht as [st1 loc Hs Hl Hdl|st1 b Hs Hb Hl Hdl|st1 sec i Hs Hsec Hl Hdl].
  - destruct Hdl as (ds & Hd & Hrun). exists ds. rewrite diags_append_to. now split.
  - destruct Hdl as (ds & Hd & Hrun). exists ds. unfold add_block.
    rewrite diags_append_to, idx_append_to. now split.
  - destruct Hdl as (ds & Hd & R1 & R2).
    destruct (place_section_diag_lines st1 sec (line (loc_start (s_loc sec))))
      as (ds2 & Hd2 & S1 & S2).
    rewrite Hl in S1, S2. cbn [idx set_idx] in Hi.
    exists (ds ++ ds2). cbn [diags set_idx idx]. rewrite Hd2, Hd, app_assoc.
    split; [reflexivity|]. split.
    + rewrite map_app.
      apply (nondecreasing_app (idx st + 1) (idx st + 1));
        [exact R1|now apply Forall_map_le|lia|exact S1].
    + apply Forall_app. split.
      * eapply Forall_impl; [|exact R2]. cbn beta. intros; lia.
      * eapply Forall_impl; [|exact S2]. cbn beta. intros; lia.
Qed.

Lemma diags_in_order_step n st st' :
  turn st st' -> idx st + 1 <= idx st' <= n ->
  diags_in_order n st -> diags_in_order n st'.
Proof.
  intros Ht Hi (H1 & H2 & H3).
  destruct (turn_diag_lines st st' Ht ltac:(lia)) as (ds & Hd & R1 & R2).
  unfold diags_in_order. rewrite Hd. split; [|split].
  - rewrite map_app.
    apply (nondecreasing_app 1 (idx st + 1));
      [exact H1|now apply Forall_map_le|lia|exact R1].
  - apply Forall_app. split.
    + eapply Forall_impl; [|exact H2]. cbn beta. intros; lia.
    + eapply Forall_impl; [|exact R2]. cbn beta. intros; lia.
  - apply Forall_app. split; [exact H3|].
    eapply Forall_impl; [|exact R2]. cbn beta. intros; lia.
Qed.

Lemma strip_illegal_lines l line_no d :
  exists ds,
    snd (strip_illegal_inline_comment l line_no d) = d ++ ds
    /\ diag_run line_no ds line_no.
Proof.
  destruct (strip_illegal_spec l line_no d) as [_ [H|(k & r & _ & _ & _ & H)]].
  - rewrite H. exists []. cbn [snd]. split; [now rewrite app_nil_r|apply diag_run_nil].
  - rewrite H. eexists. split; [reflexivity|]. split.
    + cbn [map nondecreasing dline d_loc line]. now rewrite Nat.leb_refl.
    + constructor; [|constructor]. cbn [dline d_loc line]. lia.
Qed.

Lemma metadata_loop_lines rest i md d :
  exists ds,
    snd (metadata_loop rest i md d) = d ++ ds
    /\ diag_run (i + 1) ds (snd (fst (metadata_loop rest i md d)) + 1)
    /\ Forall (fun x => dline x <= i + length rest) ds.
Proof.
  revert i md d; induction rest as [|l rest IH]; intros i md d; cbn [metadata_loop].
  - exists []. rewrite app_nil_r. split; [reflexivity|]. split; [apply diag_run_nil|constructor].
  - destruct (isblank l);
      [exists []; rewrite app_nil_r; split; [reflexivity|];
       split; [apply diag_run_nil|constructor]|].
    destruct (METADATA_RE l) as [?|];
      [|exists []; rewrite app_nil_r; split; [reflexivity|];
        split; [apply diag_run_nil|constructor]].
    destruct (strip_illegal_lines l (i + 1) d) as (ds1 & Hd1 & R1 & R2).
    destruct (strip_illegal_inline_comment l (i + 1) d) as [cl d1]. cbn [snd] in Hd1. subst d1.
    assert (Hhere : Forall (fun x => dline x <= i + length (l :: rest)) ds1).
    { eapply Forall_impl; [|exact R2]. cbn beta. cbn [length]. intros; lia. }
    destruct (METADATA_RE cl) as [[g1 g2]|].
    2:{ exists ds1. cbn [fst snd]. split; [reflexivity|]. split; [now split|exact Hhere]. }
    match goal with
    | |- context [metadata_loop rest ?i' ?md' ?d'] =>
        destruct (IH i' md' d') as (ds2 & Hd2 & (S1 & S2) & S3);
        destruct (metadata_loop_spec rest i' md' d') as (n & _ & _ & _ & _ & _ & Hidx)
    end.
    exists (ds1 ++ ds2). rewrite Hd2, app_assoc. split; [reflexivity|]. split; [split|].
    + rewrite map_app.
      apply (nondecreasing_app (i + 1) (i + 1));
        [exact R1|now apply Forall_map_le|lia
        |apply (nondecreasing_weaken (i + 1 + 1)); [lia|exact S1]].
    + apply Forall_app. split; [|exact S2].
      eapply Forall_impl; [|exact R2]. cbn beta. rewrite Hidx. intros; lia.
    + apply Forall_app. split; [exact Hhere|].
      eapply Forall_impl; [|exact S3]. cbn beta. cbn [length]. intros; lia.
Qed.

Lemma prologue_diags_in_order lines h m st0 :
  parse_prologue lines = Some (h, m, st0) -> diags_in_order (length lines) st0.
Proof.
  unfold parse_prologue.
  destruct (first_non_blank_from lines 0) as [k|] eqn:Hk; [|discriminate].
  apply first_non_blank_bounds in Hk.
  destruct (strip_illegal_lines (nth k lines []) (k + 1) []) as (ds0 & Hd0 & R1 & R2).
  destruct (strip_illegal_inline_comment _ _ _) as [hl d0]. cbn [snd app] in Hd0. subst d0.
  assert (Hhead : exists ds1,
             snd (parse_header hl (k + 1) ds0) = ds0 ++ ds1 /\ diag_run (k + 1) ds1 (k + 1)).
  { unfold parse_header. destruct (HEADER_RE hl) as [[g1 g2]|]; cbn [snd].
    - exists []. split; [now rewrite app_nil_r|apply diag_run_nil].
    - eexists. split; [reflexivity|]. split.
      + cbn [map nondecreasing dline d_loc line]. now rewrite Nat.leb_refl.
      + constructor; [|constructor]. cbn [dline d_loc line]. lia. }
  destruct Hhead as (ds1 & Hd1 & T1 & T2).
  destruct (parse_header hl (k + 1) ds0) as [hd d1]. cbn [snd] in Hd1. subst d1.
  destruct (metadata_loop_lines (skipn (k + 1) lines) (k + 1) [] (ds0 ++ ds1))
    as (ds2 & Hd2 & (S1 & S2) & S3).
  destruct (metadata_loop_spec (skipn (k + 1) lines) (k + 1) [] (ds0 ++ ds1))
    as (n & _ & _ & _ & _ & _ & Hidx).
  rewrite length_skipn in S3.
  destruct (metadata_loop _ _ _ _) as [[md i1] d2]. cbn [fst snd] in *. subst d2.
  intros [= <- <- <-]. unfold diags_in_order. cbn [diags idx].
  assert (Hhd : nondecreasing 1 (map dline (ds0 ++ ds1)) = true).
  { rewrite map_app.
    apply (nondecreasing_app 1 (k + 1));
      [apply (nondecreasing_weaken (k + 1)); [lia|exact R1]
      |now apply Forall_map_le|lia|exact T1]. }
  assert (Hle : Forall (fun d => dline d <= k + 1) (ds0 ++ ds1)).
  { apply Forall_app. now split. }
  split; [|split].
  - rewrite map_app.
    apply (nondecreasing_app 1 (k + 1));
      [exact Hhd|now apply Forall_map_le|lia
      |apply (nondecreasing_weaken (k + 1 + 1)); [lia|exact S1]].
  - apply Forall_app. split; [|exact S2].
    eapply Forall_impl; [|exact Hle]. cbn beta. intros; lia.
  - apply Forall_app. split.
    + eapply Forall_impl; [|exact Hle]. cbn beta. intros; lia.
    + eapply Forall_impl; [|exact S3]. cbn beta. intros; lia.
Qed.

(** X19. The diagnostics of a document are in the order of their lines:
    the line never decreases along the list, it is at least 1 and at
    most the number of lines of the input (1 for the EMPTY diagnostic of
    an input without lines). *)
Theorem X19_diagnostics_in_line_order (lines : list str) :
  nondecreasing 1 (map dline (diags_of (parse_document lines))) = true
  /\ Forall (fun d => dline d <= Nat.max 1 (length lines)) (diags_of (parse_document lines)).
Proof.
  destruct (parse_prologue lines) as [[[h m] st0]|] eqn:Hp.
  - rewrite (diags_of_parse lines h m st0 Hp).
    assert (H : diags_in_order (length lines) (body_loop lines st0)).
    { apply body_loop_invariant; [|now apply (prologue_diags_in_order lines h m)].
      intros st Hlt Hinv. pose proof (body_step_cursor lines st Hlt) as Hcur.
      eapply diags_in_order_step; [now apply body_step_turn|lia|exact Hinv]. }
    destruct H as (H1 & _ & H3). split; [exact H1|].
    eapply Forall_impl; [|exact H3]. cbn beta. intros; lia.
  - unfold parse_document, diags_of. rewrite Hp. unfold empty_document.
    cbn [diagnostics map nondecreasing dline d_loc line]. split; [reflexivity|].
    constructor; [|constructor]. apply Nat.le_max_l.
Qed.

(* ===================================================================== *)
(** ** Heading lines *)
(* ===================================================================== *)

Lemma dot_space_inv (s r : str) :
  match s with
  | "."%char :: " "%char :: r => Some r
  | " "%char :: r => Some r
  | _ => None
  end = Some r ->
  s = "."%char :: " "%char :: r \/ s = " "%char :: r.
Proof.
  destruct s as [|a s]; [discriminate|].
  destruct (ascii_dec a " ") as [->|Hsp]; [intros [= ->]; now right|].
  destruct (ascii_dec a ".") as [->|Hdot].
  2:{ intros H. exfalso. destruct a as [[] [] [] [] [] [] [] []]; try discriminate H.
      - now elim Hsp.
      - now elim Hdot. }
  destruct s as [|b s]; [discriminate|].
  destruct (ascii_dec b " ") as [->|Hb]; [intros [= ->]; now left|].
  intros H. exfalso. destruct b as [[] [] [] [] [] [] [] []]; try discriminate H.
  now elim Hb.
Qed.

Lemma title_end_inv {A} (s : str) (x : A) (f : str -> option A) (v : A) :
  match s with
  | [] => Some x
  | ["010"%char] => Some x
  | ":"%char :: " "%char :: rest => f rest
  | _ => None
  end = Some v ->
  (line_end s /\ v = x) \/ exists rest, s = ":"%char :: " "%char :: rest /\ f rest = Some v.
Proof.
  destruct s as [|a s]; [intros [= <-]; left; split; [now left|reflexivity]|].
  destruct (ascii_dec a "010") as [->|Hnl].
  { destruct s as [|b s]; [intros [= <-]; left; split; [now right|reflexivity]|].
    discriminate. }
  destruct (ascii_dec a ":") as [->|Hc].
  2:{ intros H. exfalso. destruct a as [[] [] [] [] [] [] [] []];
        try discriminate H; try (destruct s; discriminate H).
      - now elim Hnl.
      - now elim Hc. }
  destruct s as [|b s]; [discriminate|].
  destruct (ascii_dec b " ") as [->|Hb]; [intros H; right; eauto|].
  intros H. exfalso. destruct b as [[] [] [] [] [] [] [] []]; try discriminate H.
  now elim Hb.
Qed.

Lemma firstn_length_app {A} (a b : list A) : firstn (length a) (a ++ b) = a.
Proof. induction a as [|x a IH]; cbn; [reflexivity|]. now rewrite IH. Qed.

Lemma skipn_length_app {A} (a b : list A) : skipn (length a) (a ++ b) = b.
Proof. induction a as [|x a IH]; cbn; [reflexivity|]. exact IH. Qed.

Lemma rstrip_sp_prefix s : exists sp, s = rstrip_sp s ++ sp.
Proof.
  unfold rstrip_sp. exists (rev (takewhile (ch_eqb " ") (rev s))).
  rewrite <- rev_app_distr, takewhile_dropwhile. now rewrite rev_involutive.
Qed.

Lemma forallb_app_l {A} (p : A -> bool) a b : forallb p (a ++ b) = true -> forallb p a = true.
Proof. rewrite forallb_app. intros H. now apply andb_true_iff in H. Qed.

(** The title of a heading: capitals and spaces, with a capital at both
    ends. *)
Lemma title_shape c r :
  isupper c = true ->
  let title := c :: rstrip_sp (takewhile isupper_or_space r) in
  forallb isupper_or_space title = true
  /\ isupper (last title " "%char) = true
  /\ exists more, c :: r = title ++ more.
Proof.
  intros Hc. cbn zeta.
  pose proof (forallb_takewhile isupper_or_space r) as Hrun.
  destruct (rstrip_sp_prefix (takewhile isupper_or_space r)) as [sp Hsp].
  assert (Hall : forallb isupper_or_space (rstrip_sp (takewhile isupper_or_space r)) = true).
  { rewrite Hsp in Hrun. now apply forallb_app_l in Hrun. }
  split; [|split].
  - cbn [forallb]. unfold isupper_or_space at 1. now rewrite Hc, Hall.
  - unfold rstrip_sp in *.
    destruct (dropwhile (ch_eqb " ") (rev (takewhile isupper_or_space r))) as [|x dl] eqn:E.
    + exact Hc.
    + cbn [rev] in *. change (c :: rev dl ++ [x]) with ((c :: rev dl) ++ [x]).
      rewrite last_last. apply dropwhile_head in E.
      rewrite forallb_app in Hall. apply andb_true_iff in Hall. destruct Hall as [_ Hx].
      cbn [forallb] in Hx. rewrite andb_true_r in Hx. unfold isupper_or_space in Hx.
      apply orb_true_iff in Hx. destruct Hx as [Hx|Hx]; [exact Hx|].
      apply ch_eqb_eq in Hx. subst x. cbn in E. discriminate.
  - exists (sp ++ dropwhile isupper_or_space r).
    rewrite <- (takewhile_dropwhile isupper_or_space r) at 1.
    rewrite Hsp at 1. cbn [app]. now rewrite <- app_assoc.
Qed.

Lemma SECTION_RE_spec line number title desc :
  SECTION_RE line = Some (number, title, desc) ->
  words_of isdigit "." number
  /\ forallb isupper_or_space title = true
  /\ isupper (hd " "%char title) = true /\ isupper (last title " "%char) = true
  /\ match desc with
     | Some d => forallb (fun c => negb (isnewline c)) d = true
     | None => True
     end
  /\ exists dot tl,
       (dot = [] \/ dot = ["."%char]) /\ line_end tl
       /\ line = number ++ dot ++ " "%char :: title
                 ++ match desc with Some d => lit ": " ++ d ++ tl | None => tl end.
Proof.
  unfold SECTION_RE.
  destruct (runs isdigit "." line) as [[num after]|] eqn:E; [|discriminate].
  destruct (runs_spec _ _ _ _ _ E) as [Hnum ->].
  destruct (match after with
            | "."%char :: " "%char :: r => Some r
            | " "%char :: r => Some r
            | _ => None
            end) as [[|c r]|] eqn:Ea; try discriminate.
  apply dot_space_inv in Ea.
  destruct (isupper c) eqn:Hc; [|discriminate].
  destruct (title_shape c r Hc) as (Hall & Hlast & more & Hmore).
  set (ttl := c :: rstrip_sp (takewhile isupper_or_space r)) in *.
  rewrite Hmore, skipn_length_app. intros H.
  apply (title_end_inv more (num, ttl, None)
           (fun rest => match dot_star_eol rest with
                        | Some d => Some (num, ttl, Some d)
                        | None => None
                        end)) in H.
  assert (Hdot : exists dot, (dot = [] \/ dot = ["."%char])
                             /\ after = dot ++ " "%char :: ttl ++ more).
  { destruct Ea as [->| ->]; [exists ["."%char]|exists []]; rewrite Hmore; auto. }
  destruct Hdot as (dot & Hdot & ->).
  destruct H as [[Hend [= -> -> ->]]|(rest & -> & H)].
  - repeat split; auto. exists dot, more. auto.
  - destruct (dot_star_eol rest) as [d|] eqn:Ed; [|discriminate]. injection H as <- <- <-.
    destruct (dot_star_eol_spec _ _ Ed) as (tl & -> & Htl & Hnl).
    repeat split; auto. exists dot, tl. auto.
Qed.

(** X20. A line that is accepted as a heading reads back: it is the
    number, an optional dot, a space, the title, and then either at most
    a newline or a colon, a space, the description and at most a
    newline.  The number is one or more runs of digits with single dots
    between them; the title is made of capitals and spaces and has a
    capital at both ends; the description holds no newline. *)
Theorem X20_heading_round_trip (line number title : str) (desc : option str) :
  SECTION_RE line = Some (number, title, desc) ->
  words_of isdigit "." number
  /\ forallb isupper_or_space title = true
  /\ isupper (hd " "%char title) = true /\ isupper (last title " "%char) = true
  /\ match desc with
     | Some d => forallb (fun c => negb (isnewline c)) d = true
     | None => True
     end
  /\ exists dot tl,
       (dot = [] \/ dot = ["."%char]) /\ line_end tl
       /\ line = number ++ dot ++ " "%char :: title
                 ++ match desc with Some d => lit ": " ++ d ++ tl | None => tl end.
Proof. apply SECTION_RE_spec. Qed.

Lemma X20_heading_round_trip_example :
  SECTION_RE (lit "1.2. MY TITLE: text") = Some (lit "1.2", lit "MY TITLE", Some (lit "text"))
  /\ (words_of isdigit "." (lit "1.2")
      /\ forallb isupper_or_space (lit "MY TITLE") = true
      /\ isupper (hd " "%char (lit "MY TITLE")) = true
      /\ isupper (last (lit "MY TITLE") " "%char) = true
      /\ forallb (fun c => negb (isnewline c)) (lit "text") = true
      /\ exists dot tl,
           (dot = [] \/ dot = ["."%char]) /\ line_end tl
           /\ lit "1.2. MY TITLE: text"
              = lit "1.2" ++ dot ++ " "%char :: lit "MY TITLE" ++ lit ": " ++ lit "text" ++ tl).
Proof.
  split; [reflexivity|].
  apply (X20_heading_round_trip (lit "1.2. MY TITLE: text") (lit "1.2") (lit "MY TITLE")
           (Some (lit "text"))).
  reflexivity.
Defined.

(* ===================================================================== *)
(** ** Paragraphs *)
(* ===================================================================== *)

Lemma paragraph_loop_eq rest para i :
  paragraph_loop rest para i
  = (para ++ combine (seq i (length (takewhile para_line rest))) (takewhile para_line rest),
     i + length (takewhile para_line rest)).
Proof.
  assert (Hstop : forall (para : list (nat * str)) i,
             (para, i) = (para ++ combine (seq i (length (@nil str))) [], i + length (@nil str))).
  { intros. cbn [length seq combine]. f_equal; [now rewrite app_nil_r|lia]. }
  revert para i; induction rest as [|l rest IH]; intros para i;
    cbn [paragraph_loop takewhile]; [apply Hstop|].
  destruct (isblank l) eqn:Hb.
  { replace (para_line l) with false by (unfold para_line; now rewrite Hb). apply Hstop. }
  destruct (ends_paragraph l) eqn:He.
  { replace (para_line l) with false by (unfold para_line; now rewrite Hb, He).
    apply Hstop. }
  replace (para_line l) with true by (unfold para_line; now rewrite Hb, He).
  rewrite IH. cbn [length seq combine]. rewrite <- app_assoc. cbn [app].
  replace (i + 1) with (S i) by lia. f_equal. lia.
Qed.

Lemma top_last {A} (l : list A) d : l <> [] -> top l = Some (last l d).
Proof.
  intros Hne. destruct (exists_last Hne) as (l' & x & ->).
  rewrite last_last. apply top_snoc.
Qed.

Lemma last_combine_seq {A} i (run : list A) d :
  run <> [] ->
  last (combine (seq i (length run)) run) (0, d) = (i + length run - 1, last run d).
Proof.
  revert i; induction run as [|x run IH]; intros i Hne; [contradiction|].
  destruct run as [|y run].
  - cbn. f_equal. lia.
  - change (length (x :: y :: run)) with (S (length (y :: run))).
    cbn [seq combine]. 
    change (last ((i, x) :: combine (seq (S i) (length (y :: run))) (y :: run)) (0, d))
      with (last (combine (seq (S i) (length (y :: run))) (y :: run)) (0, d)).
    rewrite IH by discriminate. cbn [length last]. f_equal. lia.
Qed.

Lemma map_snd_combine_seq {A B} (f : A -> B) i (run : list A) :
  map (fun pl => f (snd pl)) (combine (seq i (length run)) run) = map f run.
Proof.
  revert i; induction run as [|x run IH]; intros i; cbn; [reflexivity|]. now rewrite IH.
Qed.

Lemma last_is_nth {A} (l : list A) d : last l d = nth (length l - 1) l d.
Proof.
  induction l as [|x l IH]; [reflexivity|]. destruct l as [|y l]; [reflexivity|].
  change (last (x :: y :: l) d) with (last (y :: l) d). rewrite IH.
  cbn [length]. replace (S (S (length l)) - 1) with (S (S (length l) - 1)) by lia.
  reflexivity.
Qed.

Lemma nth_skipn_plus {A} (l : list A) i j d : nth j (skipn i l) d = nth (i + j) l d.
Proof.
  revert i; induction l as [|x l IH]; intros [|i]; cbn [skipn Nat.add]; try reflexivity.
  - now destruct j.
  - cbn [nth]. apply IH.
Qed.

Lemma nth_takewhile {A} (p : A -> bool) (l : list A) j d :
  j < length (takewhile p l) -> nth j (takewhile p l) d = nth j l d.
Proof.
  revert j; induction l as [|x l IH]; intros j; cbn [takewhile]; [cbn; lia|].
  destruct (p x); [|cbn; lia]. destruct j as [|j]; [reflexivity|].
  cbn [length nth]. intros H. apply IH. lia.
Qed.

Lemma paragraph_run_first lines i :
  i < length lines -> para_line (nth i lines []) = true ->
  exists run, paragraph_run lines i = nth i lines [] :: run.
Proof.
  intros Hlt Hp. unfold paragraph_run. rewrite (skipn_nth lines i []) by exact Hlt.
  cbn [takewhile]. rewrite Hp. eauto.
Qed.

Lemma paragraph_block_eq lines st :
  idx st < length lines -> para_line (nth (idx st) lines []) = true ->
  paragraph_block lines st
  = add_block (set_idx st (idx st + length (paragraph_run lines (idx st))))
              (paragraph_of lines (idx st)).
Proof.
  intros Hlt Hp. unfold paragraph_block, paragraph_of.
  rewrite paragraph_loop_eq. cbn [app]. fold (paragraph_run lines (idx st)).
  destruct (paragraph_run_first lines (idx st) Hlt Hp) as [run Hrun].
  assert (Hne : paragraph_run lines (idx st) <> []) by (rewrite Hrun; discriminate).
  assert (Hlast : nth (idx st + length (paragraph_run lines (idx st)) - 1) lines []
                  = last (paragraph_run lines (idx st)) []).
  { assert (Hlen : 1 <= length (paragraph_run lines (idx st)))
      by (rewrite Hrun; cbn [length]; lia).
    rewrite last_is_nth. unfold paragraph_run in *.
    rewrite nth_takewhile by lia. rewrite nth_skipn_plus. f_equal. lia. }
  assert (Htop : top (combine (seq (idx st) (length (paragraph_run lines (idx st))))
                              (paragraph_run lines (idx st)))
                 = Some (idx st + length (paragraph_run lines (idx st)) - 1,
                         last (paragraph_run lines (idx st)) [])).
  { rewrite (top_last _ (0, [])); [now rewrite last_combine_seq|].
    rewrite Hrun. discriminate. }
  pose proof (map_snd_combine_seq strip (idx st) (paragraph_run lines (idx st))) as Hmap.
  assert (Hfirst : exists rest',
             combine (seq (idx st) (length (paragraph_run lines (idx st))))
                     (paragraph_run lines (idx st))
             = (idx st, nth (idx st) lines []) :: rest').
  { rewrite Hrun. cbn [length seq combine]. eauto. }
  destruct Hfirst as [rest' Hfirst].
  rewrite Hfirst in *. rewrite Htop, Hmap. cbn [fst snd]. rewrite Hlast.
  replace (idx st + length (paragraph_run lines (idx st)) - 1 + 1)
    with (idx st + length (paragraph_run lines (idx st)))
    by (rewrite Hrun; cbn [length]; lia).
  reflexivity.
Qed.

(** X21. When the body loop comes to a line that is not blank and on
    which no other block starts, it makes a paragraph of the longest run
    of such lines from there: its inline nodes are those of the lines
    trimmed and joined by single spaces, lexed with inline comments
    allowed, from column 1 of the first line; its location goes from
    that point to the end of the last line of the run without its
    trailing white space.  The cursor moves past the run.  On an input
    that holds no heading on whose number [int] raises (a component of
    more than 4300 digits), so that the code returns a document, the
    paragraph is a node of that document. *)
Theorem X21_paragraph (lines : list str) (st : PState) :
  reach lines st ->
  idx st < length lines ->
  para_line (nth (idx st) lines []) = true ->
  paragraph_run lines (idx st) <> []
  /\ body_step lines st
     = add_block (set_idx st (idx st + length (paragraph_run lines (idx st))))
                 (paragraph_of lines (idx st))
  /\ (no_heading_raises lines = true ->
      occurs (paragraph_of lines (idx st)) (body (parse_document lines))).
Proof.
  intros Hreach Hlt Hp.
  assert (Hstep : body_step lines st
                  = add_block (set_idx st (idx st + length (paragraph_run lines (idx st))))
                              (paragraph_of lines (idx st))).
  { unfold body_step. unfold para_line in Hp. apply andb_true_iff in Hp.
    destruct Hp as [Hb He]. apply negb_true_iff in Hb, He. rewrite Hb.
    pose proof He as He'. unfold ends_paragraph, starts_fence_table_or_section in He'.
    rewrite !orb_false_iff in He'. destruct He' as [[[[Hf Ht] Hs] Hc] Hbu].
    destruct (FENCE_RE _); [discriminate|]. rewrite Ht.
    pose proof (section_block_cases st (nth (idx st) lines [])) as Hsec.
    destruct (SECTION_RE _); [discriminate|]. rewrite Hsec, Hc, Hbu.
    assert (Hst : set_diags st (diags st) = st) by (destruct st; reflexivity).
    rewrite Hst. apply paragraph_block_eq; [exact Hlt|].
    unfold para_line. now rewrite Hb, He. }
  split; [|split; [exact Hstep|]].
  - destruct (paragraph_run_first lines (idx st) Hlt Hp) as [run ->]. discriminate.
  - intros _.
    now destruct (added_block_in_document lines st _ _ Hreach Hlt Hstep
                    eq_refl eq_refl eq_refl) as [Hocc _].
Qed.

Lemma X21_paragraph_example :
  let st := {| idx := 1; diags := []; root := []; heap := []; section_stack := [] |} in
  no_heading_raises header_para2 = true
  /\ paragraph_run header_para2 (idx st) <> []
  /\ body_step header_para2 st
     = add_block (set_idx st (idx st + length (paragraph_run header_para2 (idx st))))
                 (paragraph_of header_para2 (idx st))
  /\ occurs (paragraph_of header_para2 (idx st)) (body (parse_document header_para2)).
Proof.
  intros st. split; [reflexivity|].
  destruct (X21_paragraph header_para2 st) as (Hrun & Hstep & Hdoc).
  - eapply reach_start. vm_compute. reflexivity.
  - cbn. lia.
  - vm_compute. reflexivity.
  - split; [exact Hrun|]. split; [exact Hstep|]. apply Hdoc. reflexivity.
Defined.

(* ===================================================================== *)
(** ** Lists *)
(* ===================================================================== *)

Lemma continuation_loop_count base rest cont la :
  snd (continuation_loop base rest cont la)
  = la + (length (fst (continuation_loop base rest cont la)) - length cont)
  /\ length cont <= length (fst (continuation_loop base rest cont la)).
Proof.
  revert cont la; induction rest as [|l rest IH]; intros cont la;
    cbn [continuation_loop].
  - cbn [fst snd]. lia.
  - destruct (isblank l); [cbn [fst snd]; lia|].
    destruct (is_bullet l); [cbn [fst snd]; lia|].
    destruct (starts_fence_table_or_section l); [cbn [fst snd]; lia|].
    destruct (_ <=? _); [|cbn [fst snd]; lia].
    destruct (IH (cont ++ [strip l]) (la + 1)) as [H1 H2].
    rewrite length_app in *. cbn [length] in *. lia.
Qed.

Lemma bullet_item_tile lines i g1 m t :
  i < length lines ->
  line (loc_start (i_loc (fst (bullet_item lines i g1 m t)))) = i + 1
  /\ line (loc_end (i_loc (fst (bullet_item lines i g1 m t))))
     = snd (bullet_item lines i g1 m t)
  /\ i + 1 <= snd (bullet_item lines i g1 m t)
  /\ match continuation (fst (bullet_item lines i g1 m t)) with
     | Some c => length c
     | None => 0
     end = snd (bullet_item lines i g1 m t) - (i + 1).
Proof.
  intros Hlt. unfold bullet_item.
  pose proof (continuation_loop_cursor (length g1 + 2) (skipn (i + 1) lines) [] (i + 1)) as Hc.
  pose proof (continuation_loop_count (length g1 + 2) (skipn (i + 1) lines) [] (i + 1)) as Hn.
  destruct (continuation_loop _ _ _ _) as [cont la]. cbn [fst snd length] in *.
  cbn [i_loc make_loc loc_start loc_end line continuation].
  split; [reflexivity|]. split; [lia|]. split; [lia|].
  destruct cont; cbn [nonempty length] in *; lia.
Qed.

Lemma bullet_loop_tiles lines n :
  forall i items0,
    length lines - i <= n ->
    exists new,
      fst (bullet_loop lines i items0) = items0 ++ new
      /\ tiles i new (snd (bullet_loop lines i items0)).
Proof.
  induction n as [|n IH]; intros i items0 Hn; rewrite bullet_loop_step;
    destruct (i <? length lines) eqn:Hlt;
    try (exists []; cbn [fst snd tiles]; now rewrite app_nil_r);
    apply Nat.ltb_lt in Hlt; [lia|].
  destruct (BULLET_RE (nth i lines [])) as [[[g1 m] t]|];
    [|exists []; cbn [fst snd tiles]; now rewrite app_nil_r].
  destruct (bullet_item_tile lines i g1 m t Hlt) as (T1 & T2 & T3 & T4).
  destruct (IH (snd (bullet_item lines i g1 m t))
               (items0 ++ [fst (bullet_item lines i g1 m t)]) ltac:(lia))
    as (new & Hnew & Htiles).
  exists (fst (bullet_item lines i g1 m t) :: new). split.
  - now rewrite Hnew, <- app_assoc.
  - cbn [tiles]. rewrite T2. repeat split; auto.
Qed.

Lemma top_cons {A} (x : A) l : l <> [] -> top (x :: l) = top l.
Proof.
  intros Hne. destruct (exists_last Hne) as (l' & y & ->).
  change (x :: l' ++ [y]) with ((x :: l') ++ [y]). now rewrite !top_snoc.
Qed.

Lemma tiles_end cur items stop :
  tiles cur items stop -> items <> [] ->
  exists it, top items = Some it /\ line (loc_end (i_loc it)) = stop.
Proof.
  revert cur; induction items as [|it items IH]; intros cur Ht Hne; [contradiction|].
  destruct Ht as (_ & _ & _ & Ht). destruct items as [|it2 items].
  - exists it. split; [reflexivity|exact Ht].
  - rewrite top_cons by discriminate. apply (IH _ Ht). discriminate.
Qed.

(** X22. When the body loop comes to a bullet line, it makes a list
    whose items cover the lines up to the cursor after it: the first
    item starts on the bullet line, every other item on the line after
    the end of the item before it, and an item has as many continuation
    lines as there are lines after its first.  The list starts at column
    1 of the bullet line and ends on the last line of its last item.  On
    an input that holds no heading on whose number [int] raises (a
    component of more than 4300 digits), so that the code returns a
    document, the list is a node of that document. *)
Theorem X22_list_items_tile (lines : list str) (st : PState) :
  reach lines st ->
  idx st < length lines ->
  list_line (nth (idx st) lines []) = true ->
  exists items loc i',
    body_step lines st = add_block (set_idx st i') (BulletList items loc)
    /\ items <> []
    /\ tiles (idx st) items i'
    /\ loc_start loc = {| line := idx st + 1; column := 1 |}
    /\ line (loc_end loc) = i'
    /\ (no_heading_raises lines = true ->
        occurs (BulletList items loc) (body (parse_document lines))).
Proof.
  intros Hreach Hlt Hl.
  unfold list_line in Hl. rewrite !andb_true_iff, !negb_true_iff in Hl.
  destruct Hl as [[[Hb Hs] Hc] Hbu].
  destruct (bullet_loop_tiles lines (length lines) (idx st) [] ltac:(lia))
    as (items & Hitems & Htiles).
  assert (Hne : items <> []).
  { intros ->. cbn [tiles] in Htiles.
    pose proof (bullet_loop_first lines (idx st) [] Hlt Hbu) as Hfirst. lia. }
  destruct (tiles_end _ _ _ Htiles Hne) as (it & Htop & Hend).
  assert (Hstep : body_step lines st
                  = add_block (set_idx st (snd (bullet_loop lines (idx st) [])))
                      (BulletList items
                         (make_loc (idx st + 1) 1 (Some (line (loc_end (i_loc it))))
                                   (Some (column (loc_end (i_loc it))))))).
  { unfold body_step. rewrite Hb.
    unfold starts_fence_table_or_section in Hs. rewrite !orb_false_iff in Hs.
    destruct Hs as [[Hf Ht] Hsec].
    destruct (FENCE_RE _); [discriminate|]. rewrite Ht.
    pose proof (section_block_cases st (nth (idx st) lines [])) as Hcases.
    destruct (SECTION_RE _); [discriminate|]. rewrite Hcases, Hc, Hbu.
    assert (Hst : set_diags st (diags st) = st) by (destruct st; reflexivity).
    rewrite Hst. unfold bullet_block.
    destruct (bullet_loop lines (idx st) []) as [items' i'']. cbn [fst snd app] in *.
    subst items'. now rewrite Htop. }
  eexists _, _, _. split; [exact Hstep|]. split; [exact Hne|]. split; [exact Htiles|].
  split; [reflexivity|]. split; [exact Hend|]. intros _.
  now destruct (added_block_in_document lines st _ _ Hreach Hlt Hstep
                  eq_refl eq_refl eq_refl) as [Hocc _].
Qed.

Lemma X22_list_items_tile_example :
  let st := {| idx := 1; diags := []; root := []; heap := []; section_stack := [] |} in
  no_heading_raises header_list2 = true
  /\ exists items loc i',
    body_step header_list2 st = add_block (set_idx st i') (BulletList items loc)
    /\ items <> []
    /\ tiles (idx st) items i'
    /\ loc_start loc = {| line := idx st + 1; column := 1 |}
    /\ line (loc_end loc) = i'
    /\ occurs (BulletList items loc) (body (parse_document header_list2)).
Proof.
  intros st. split; [reflexivity|].
  destruct (X22_list_items_tile header_list2 st)
    as (items & loc & i' & Hstep & Hne & Htiles & Hstart & Hend & Hdoc).
  - eapply reach_start. vm_compute. reflexivity.
  - cbn. lia.
  - vm_compute. reflexivity.
  - exists items, loc, i'. split; [exact Hstep|]. split; [exact Hne|].
    split; [exact Htiles|]. split; [exact Hstart|]. split; [exact Hend|].
    apply Hdoc. reflexivity.
Defined.

(* ===================================================================== *)
(** ** The kinds of lines *)
(* ===================================================================== *)

Lemma FENCE_RE_first l g :
  FENCE_RE l = Some g -> exists c, first_char l = Some c /\ kind_of c = 1.
Proof.
  unfold FENCE_RE, first_char. destruct (dropwhile isspace l) as [|c r]; [discriminate|].
  destruct (ascii_dec c "`") as [->|Hc]; [intros _; now exists "`"%char|].
  intros H. exfalso. destruct c as [[] [] [] [] [] [] [] []]; try discriminate H. now elim Hc.
Qed.

Lemma TABLE_RE_first l :
  TABLE_RE l = true -> exists c, first_char l = Some c /\ kind_of c = 2.
Proof.
  unfold TABLE_RE, first_char. destruct (dropwhile isspace l) as [|c r]; [discriminate|].
  destruct (ascii_dec c "|") as [->|Hc]; [intros _; now exists "|"%char|].
  intros H. exfalso. destruct c as [[] [] [] [] [] [] [] []]; try discriminate H. now elim Hc.
Qed.

Lemma COMMENT_RE_first l :
  COMMENT_RE l = true -> exists c, first_char l = Some c /\ kind_of c = 3.
Proof.
  unfold COMMENT_RE, first_char. destruct (dropwhile isspace l) as [|c r]; [discriminate|].
  destruct (ascii_dec c "#") as [->|Hc]; [intros _; now exists "#"%char|].
  intros H. exfalso. destruct c as [[] [] [] [] [] [] [] []]; try discriminate H. now elim Hc.
Qed.

Lemma is_bullet_first l :
  is_bullet l = true -> exists c, first_char l = Some c /\ kind_of c = 4.
Proof.
  unfold is_bullet. destruct (BULLET_RE l) as [[[g1 m] t]|] eqn:E; [|discriminate].
  intros _. destruct (BULLET_RE_spec _ _ _ _ E) as (Hm & _ & Hws & tl & -> & _).
  exists m. split.
  - unfold first_char. rewrite dropwhile_app_all by exact Hws.
    cbn [dropwhile]. now rewrite (ismarker_not_space m Hm).
  - unfold ismarker in Hm. rewrite !orb_true_iff, !ch_eqb_eq in Hm.
    destruct Hm as [[->| ->]| ->]; reflexivity.
Qed.

Lemma digit_kind c : isdigit c = true -> kind_of c = 5 /\ isspace c = false.
Proof.
  destruct c as [[] [] [] [] [] [] [] []]; intros H; try discriminate H; split; reflexivity.
Qed.

Lemma strip_detect_prefix l :
  exists rest, l = strip_inline_comment_for_detection l ++ rest.
Proof.
  unfold strip_inline_comment_for_detection. rewrite strip_detect_loop_at.
  destruct (comment_at false 0 l) as [k|]; [|exists []; now rewrite app_nil_r].
  destruct (rstrip_prefix (firstn k l)) as (ws & Hws & _).
  exists (ws ++ skipn k l). now rewrite app_assoc, <- Hws, firstn_skipn.
Qed.

Lemma SECTION_RE_first l g :
  SECTION_RE (strip_inline_comment_for_detection l) = Some g ->
  exists c, first_char l = Some c /\ kind_of c = 5.
Proof.
  destruct (strip_detect_prefix l) as [rest Hl]. unfold SECTION_RE, runs.
  destruct (strip_inline_comment_for_detection l) as [|c r]; [discriminate|].
  destruct (isdigit c) eqn:Hd; [|discriminate]. intros _.
  destruct (digit_kind c Hd) as [Hk Hs]. exists c. split; [|exact Hk].
  unfold first_char. rewrite Hl. cbn [app dropwhile]. now rewrite Hs.
Qed.

Lemma first_char_not_blank l c : first_char l = Some c -> isblank l = false.
Proof.
  unfold first_char. destruct (dropwhile isspace l) as [|x r] eqn:E; [discriminate|].
  intros _. eapply not_blank_of_lstrip; eauto.
Qed.

(** X23. A line starts at most one kind of block: of the five tests
    that the body loop makes after the one for a blank line (fence,
    table, heading, whole-line comment, bullet) at most one succeeds,
    so their order decides nothing; on a blank line none succeeds. *)
Theorem X23_one_kind_of_block (l : str) :
  block_starts l <= 1 /\ (isblank l = true -> block_starts l = 0).
Proof.
  unfold block_starts.
  pose proof (fun g => FENCE_RE_first l g) as Hf.
  pose proof (TABLE_RE_first l) as Ht.
  pose proof (fun g => SECTION_RE_first l g) as Hs.
  pose proof (COMMENT_RE_first l) as Hc.
  pose proof (is_bullet_first l) as Hb.
  pose proof (first_char_not_blank l) as Hblank.
  destruct (FENCE_RE l) as [gf|]; [destruct (Hf gf eq_refl) as (c1 & F1 & K1)|]; clear Hf;
    (destruct (TABLE_RE l); [destruct (Ht eq_refl) as (c2 & F2 & K2)|]; clear Ht);
    (destruct (SECTION_RE _) as [gs|]; [destruct (Hs gs eq_refl) as (c3 & F3 & K3)|];
     clear Hs);
    (destruct (COMMENT_RE l); [destruct (Hc eq_refl) as (c4 & F4 & K4)|]; clear Hc);
    (destruct (is_bullet l); [destruct (Hb eq_refl) as (c5 & F5 & K5)|]; clear Hb);
    cbn [b2n Nat.add];
    repeat match goal with
           | H1 : first_char l = Some ?a, H2 : first_char l = Some ?b |- _ =>
               rewrite H1 in H2; injection H2 as <-
           end;
    try congruence;
    (split; [lia|]);
    try (intros _; reflexivity);
    intros Hbl;
    match goal with
    | H : first_char l = Some _ |- _ => rewrite (Hblank _ H) in Hbl; discriminate
    end.
Qed.

(* ===================================================================== *)
(** ** The order of the inline nodes *)
(* ===================================================================== *)

Lemma cols_in_order_snoc lo out b nd :
  ordered_upto lo out b ->
  b <= column (loc_start (inline_loc nd)) ->
  column (loc_start (inline_loc nd)) <= column (loc_end (inline_loc nd)) ->
  ordered_upto lo (out ++ [nd]) (column (loc_end (inline_loc nd))).
Proof.
  intros (H1 & H2 & H3) Hs He. split; [|split; [|lia]].
  - revert lo H1 H2 H3. induction out as [|x out IH]; intros lo H1 H2 H3;
      cbn [app cols_in_order] in *.
    + rewrite !andb_true_iff, !Nat.leb_le. repeat split; lia.
    + rewrite !andb_true_iff in *. destruct H1 as [[A B] C]. inversion H2; subst.
      repeat split; auto.
  - apply Forall_app. split; [|constructor; [lia|constructor]].
    eapply Forall_impl; [|exact H2]. cbn beta. intros; lia.
Qed.

Lemma ordered_upto_mono lo out b b' :
  b <= b' -> ordered_upto lo out b -> ordered_upto lo out b'.
Proof.
  intros Hb (H1 & H2 & H3). split; [exact H1|]. split; [|lia].
  eapply Forall_impl; [|exact H2]. cbn beta. intros; lia.
Qed.

Lemma parse_labels_loop_ordered text line_no base_col lo pos out :
  pos <= length text ->
  ordered_upto lo out (base_col + pos) ->
  ordered_upto lo (parse_labels_loop text out line_no base_col pos)
               (base_col + length text).
Proof.
  revert out. pattern pos. apply (label_cursor_ind text). clear pos.
  intros pos IH out Hpos Hout. rewrite parse_labels_loop_step.
  destruct (LABEL_search text pos) as [[ms me]|] eqn:Hm.
  - pose proof (LABEL_search_bounds _ _ _ _ Hm) as Hb.
    pose proof (label_end_bounds text me) as He.
    apply (IH ms me eq_refl); [lia|].
    match goal with
    | |- ordered_upto _ (_ ++ [?nd]) _ =>
        apply (cols_in_order_snoc lo _ (base_col + ms) nd)
    end; cbn [inline_loc make_loc loc_start loc_end column]; try lia.
    destruct (pos <? ms) eqn:E.
    + apply Nat.ltb_lt in E.
      match goal with
      | |- ordered_upto _ (_ ++ [?nd]) _ =>
          apply (cols_in_order_snoc lo _ (base_col + pos) nd)
      end; cbn [inline_loc make_loc loc_start loc_end column]; try lia. exact Hout.
    + apply Nat.ltb_ge in E. apply (ordered_upto_mono lo out (base_col + pos)); [lia|exact Hout].
  - destruct (nonempty (skipn pos text)) eqn:E.
    + match goal with
      | |- ordered_upto _ (_ ++ [?nd]) _ =>
          apply (cols_in_order_snoc lo _ (base_col + pos) nd)
      end; cbn [inline_loc make_loc loc_start loc_end column]; try lia. exact Hout.
    + apply (ordered_upto_mono lo out (base_col + pos)); [lia|exact Hout].
Qed.

Lemma parse_labels_into_ordered text start_col line_no lo a b out :
  a <= b -> b <= length text ->
  ordered_upto lo out (start_col + a) ->
  ordered_upto lo (parse_labels_into (slice a b text) out line_no (start_col + a))
               (start_col + b).
Proof.
  intros Hab Hb Hout. unfold parse_labels_into.
  replace (start_col + b) with (start_col + a + length (slice a b text))
    by (rewrite length_slice by exact Hb; lia).
  apply parse_labels_loop_ordered; [lia|]. now rewrite Nat.add_0_r.
Qed.

Lemma piwc_loop_ordered text line_no start_col lo :
  forall rest i result (in_code : bool) code_start plain_start,
    skipn i text = rest -> i <= length text ->
    (in_code = true -> 1 <= code_start <= i) -> plain_start <= i ->
    ordered_upto lo result (start_col + (if in_code then code_start - 1 else plain_start)) ->
    ordered_upto lo
      (piwc_loop text line_no start_col result in_code code_start plain_start i rest)
      (start_col + length text).
Proof.
  induction rest as [|c rest IH];
    intros i result in_code code_start plain_start Hrest Hi Hcs Hps Hres; cbn [piwc_loop].
  - set (ps := if in_code then code_start - 1 else plain_start) in *.
    assert (Hpsi : ps <= i) by (unfold ps; destruct in_code; [specialize (Hcs eq_refl)|]; lia).
    destruct (ps <? length text) eqn:E.
    + apply Nat.ltb_lt in E. rewrite <- slice_to_end.
      apply parse_labels_into_ordered; [lia|lia|exact Hres].
    + apply (ordered_upto_mono lo result (start_col + ps)); [lia|exact Hres].
  - destruct (skipn_cons_nth _ _ _ _ Hrest) as [Hnext Hlt].
    destruct (ch_eqb c "`").
    + destruct in_code.
      * specialize (Hcs eq_refl).
        apply IH; [exact Hnext|lia|discriminate|lia|].
        match goal with
        | |- ordered_upto _ (_ ++ [?nd]) _ =>
            apply (ordered_upto_mono lo _ (column (loc_end (inline_loc nd))));
            [cbn [inline_loc make_loc loc_start loc_end column]; lia|];
            apply (cols_in_order_snoc lo _ (start_col + (code_start - 1)) nd)
        end; cbn [inline_loc make_loc loc_start loc_end column]; try lia. exact Hres.
      * apply IH; [exact Hnext|lia|intros _; lia|lia|].
        replace (i + 1 - 1) with i by lia.
        destruct (plain_start <? i) eqn:E.
        -- apply Nat.ltb_lt in E. apply parse_labels_into_ordered; [lia|lia|exact Hres].
        -- apply Nat.ltb_ge in E.
           apply (ordered_upto_mono lo result (start_col + plain_start)); [lia|exact Hres].
    + apply IH; [exact Hnext|lia|intros H; specialize (Hcs H); lia|lia|].
      destruct in_code; exact Hres.
Qed.

Lemma piwc_ordered text line_no start_col :
  ordered_upto start_col (parse_inline_without_comment text line_no start_col)
               (start_col + length text).
Proof.
  unfold parse_inline_without_comment.
  apply piwc_loop_ordered; [reflexivity|lia|discriminate|lia|].
  split; [reflexivity|]. split; [constructor|lia].
Qed.

(** X24. The inline nodes of a text are in the order of the text and do
    not overlap: from the start column on, every node ends at or after
    its start, and the next node starts at or after its end. *)
Theorem X24_inline_nodes_in_order (text : str) (allow : bool) (line_no start_col : nat) :
  cols_in_order start_col (parse_inline text allow line_no start_col) = true.
Proof.
  unfold parse_inline.
  destruct (comment_pos_loop allow false 0 text) as [p|] eqn:Hp.
  - apply comment_pos_loop_bounds in Hp.
    pose proof (piwc_ordered (firstn p text) line_no start_col) as H.
    rewrite length_firstn in H. replace (Nat.min p (length text)) with p in H by lia.
    match goal with
    | |- cols_in_order _ (_ ++ [?nd]) = true =>
        destruct (cols_in_order_snoc start_col _ (start_col + p) nd H) as [H1 _]
    end; cbn [inline_loc make_loc loc_start loc_end column]; try lia. exact H1.
  - now destruct (piwc_ordered text line_no start_col) as [H _].
Qed.
